(** * AbleSet companion module: connection monitor, mirrored state and feedbacks

    A shallow embedding of [src/main.ts] (class [ModuleInstance]) and of the
    parts of the JavaScript runtime its handlers rely on, followed by the
    properties of the synchronisation core.

    Layout:
    - [JS]: JavaScript primitive values and the conversions [Number(v)],
      [Boolean(v)], [String(v)] the handlers apply to message arguments;
    - [Debounce], [DebounceGather]: the two timing primitives imported from
      [./utils/debounce];
    - the module instance: configuration, transport endpoints, mirrored
      state, the listeners registered by [init] and [initOscListeners], the
      feedback callbacks, and the event loop that delivers timed events;
    - the properties. *)

From Stdlib Require Import ZArith QArith Lqa Ascii.
From stdpp Require Import gmap strings list fin_maps pretty.

Local Open Scope Z_scope.

(* ===================================================================== *)
(** ** JavaScript values *)
(* ===================================================================== *)

Module JS.

(** A JavaScript number. Finite values are kept as exact rationals: the
    rounding of binary64 is not modelled (every index computation of the
    module is exact on integers below 2^53), and [+0]/[-0] are one value,
    which [===], [<] and [-] do not tell apart either. *)
Inductive number : Set :=
  | NaN
  | Infinity (negative : bool)
  | Fin (q : Q).

Definition of_Z (z : Z) : number := Fin (inject_Z z).
Definition of_nat (n : nat) : number := of_Z (Z.of_nat n).

Definition isNaN (x : number) : bool :=
  match x with NaN => true | _ => false end.

Definition Qltb (a b : Q) : bool := negb (Qle_bool b a).

(** [x < y] *)
Definition ltb (x y : number) : bool :=
  match x, y with
  | NaN, _ | _, NaN => false
  | Fin a, Fin b => Qltb a b
  | Infinity nx, Infinity ny => nx && negb ny
  | Infinity nx, Fin _ => nx
  | Fin _, Infinity ny => negb ny
  end.

(** [x === y] on numbers *)
Definition eqb (x y : number) : bool :=
  match x, y with
  | Fin a, Fin b => Qeq_bool a b
  | Infinity nx, Infinity ny => Bool.eqb nx ny
  | _, _ => false
  end.

(** [x <= y] *)
Definition leb (x y : number) : bool := ltb x y || eqb x y.
(** [x > y] and [x >= y] *)
Definition gtb (x y : number) : bool := ltb y x.
Definition geb (x y : number) : bool := leb y x.

(** [x - y] *)
Definition sub (x y : number) : number :=
  match x, y with
  | NaN, _ | _, NaN => NaN
  | Fin a, Fin b => Fin (a - b)
  | Infinity nx, Infinity ny => if Bool.eqb nx ny then NaN else Infinity nx
  | Infinity nx, Fin _ => Infinity nx
  | Fin _, Infinity ny => Infinity (negb ny)
  end.

(** The primitive values that reach the module: OSC message arguments
    (numbers, strings, booleans), host variable values and option values,
    and [undefined] for an absent array element or a variable that is
    not defined. *)
Inductive value : Set :=
  | Undefined
  | Bool (b : bool)
  | Num (n : number)
  | Str (s : string).

(** [a === b] *)
Definition strict_eq (a b : value) : bool :=
  match a, b with
  | Undefined, Undefined => true
  | Bool x, Bool y => Bool.eqb x y
  | Num x, Num y => eqb x y
  | Str x, Str y => String.eqb x y
  | _, _ => false
  end.

(** [a ?? b] *)
Definition nullish (a b : value) : value :=
  match a with Undefined => b | _ => a end.

(** *** StringToNumber

    [Number(s)] on a string: white space is trimmed at both ends, the empty
    string is [0], and what is left must be [Infinity] with an optional
    sign, a decimal literal with an optional sign, or an unsigned
    hexadecimal, octal or binary literal; anything else is [NaN]. Strings
    are sequences of UTF-8 bytes. *)

Definition byte (c : ascii) : N := N_of_ascii c.

(** One white-space or line-terminator character at the head: TAB, LF, VT,
    FF, CR, SP, U+00A0, U+1680, U+2000..U+200A, U+2028, U+2029, U+202F,
    U+205F, U+3000, U+FEFF. *)
Definition strip_ws (l : list ascii) : option (list ascii) :=
  match List.map byte l, l with
  | (9 | 10 | 11 | 12 | 13 | 32)%N :: _, _ :: r => Some r
  | 194%N :: 160%N :: _, _ :: _ :: r => Some r
  | 225%N :: 154%N :: 128%N :: _, _ :: _ :: _ :: r => Some r
  | 226%N :: 128%N :: b :: _, _ :: _ :: _ :: r =>
      if ((128 <=? b) && (b <=? 138) || (b =? 168) || (b =? 169) || (b =? 175))%N
      then Some r else None
  | 226%N :: 129%N :: 159%N :: _, _ :: _ :: _ :: r => Some r
  | 227%N :: 128%N :: 128%N :: _, _ :: _ :: _ :: r => Some r
  | 239%N :: 187%N :: 191%N :: _, _ :: _ :: _ :: r => Some r
  | _, _ => None
  end.

(** The same character read from the end of the string ([l] is reversed). *)
Definition strip_ws_rev (l : list ascii) : option (list ascii) :=
  match l with
  | a :: r =>
      if bool_decide (strip_ws [a] = Some []) then Some r else
      match r with
      | b :: r' =>
          if bool_decide (strip_ws [b; a] = Some []) then Some r' else
          match r' with
          | c :: r'' => if bool_decide (strip_ws [c; b; a] = Some []) then Some r'' else None
          | [] => None
          end
      | [] => None
      end
  | [] => None
  end.

Fixpoint iter_strip (strip : list ascii → option (list ascii)) (fuel : nat)
    (l : list ascii) : list ascii :=
  match fuel with
  | O => l
  | S fuel' => match strip l with Some r => iter_strip strip fuel' r | None => l end
  end.

Definition trim (l : list ascii) : list ascii :=
  let l1 := iter_strip strip_ws (length l) l in
  rev (iter_strip strip_ws_rev (length l1) (rev l1)).

Definition digit (base : Z) (c : ascii) : option Z :=
  let b := Z.of_N (byte c) in
  let v := if (48 <=? b) && (b <=? 57) then b - 48
           else if (97 <=? b) && (b <=? 102) then b - 87
           else if (65 <=? b) && (b <=? 70) then b - 55
           else base in
  if v <? base then Some v else None.

(** The longest prefix of digits, as its value and its length, and the rest. *)
Fixpoint span_digits (base : Z) (acc : Z) (n : nat) (l : list ascii)
    : Z * nat * list ascii :=
  match l with
  | c :: r =>
      match digit base c with
      | Some v => span_digits base (acc * base + v) (S n) r
      | None => (acc, n, l)
      end
  | [] => (acc, n, [])
  end.

Definition sign_of (l : list ascii) : bool * list ascii :=
  match l with
  | "+"%char :: r => (false, r)
  | "-"%char :: r => (true, r)
  | _ => (false, l)
  end.

Definition scale10 (m e : Z) : Q :=
  if 0 <=? e then inject_Z (m * 10 ^ e) else Qmake m (Z.to_pos (10 ^ (- e))).

(** [ExponentPart] or nothing, up to the end of the literal. *)
Definition exponent (l : list ascii) : option Z :=
  match l with
  | [] => Some 0
  | c :: r =>
      if bool_decide (c = "e"%char ∨ c = "E"%char) then
        let '(neg, r1) := sign_of r in
        match span_digits 10 0 0 r1 with
        | (_, O, _) => None
        | (e, _, []) => Some (if neg then - e else e)
        | _ => None
        end
      else None
  end.

Definition StrDecimalLiteral (l : list ascii) : number :=
  let '(neg, l1) := sign_of l in
  if bool_decide (l1 = String.list_ascii_of_string "Infinity") then Infinity neg else
  let '(ip, ni, r1) := span_digits 10 0 0 l1 in
  let '(m, nd, r2) :=
    match r1 with
    | "."%char :: r => let '(m, n, r') := span_digits 10 ip 0 r in (m, n, r')
    | _ => (ip, O, r1)
    end in
  match (ni + nd)%nat, exponent r2 with
  | S _, Some e =>
      Fin (scale10 (if neg then - m else m) (e - Z.of_nat nd))
  | _, _ => NaN
  end.

Definition NonDecimalIntegerLiteral (l : list ascii) : option number :=
  match l with
  | "0"%char :: p :: r =>
      let base :=
        if bool_decide (p = "x"%char ∨ p = "X"%char) then Some 16
        else if bool_decide (p = "o"%char ∨ p = "O"%char) then Some 8
        else if bool_decide (p = "b"%char ∨ p = "B"%char) then Some 2
        else None in
      match base with
      | Some b =>
          match span_digits b 0 0 r with
          | (v, S _, []) => Some (of_Z v)
          | _ => Some NaN
          end
      | None => None
      end
  | _ => None
  end.

Definition StringToNumber (s : string) : number :=
  match trim (String.list_ascii_of_string s) with
  | [] => of_Z 0
  | l => match NonDecimalIntegerLiteral l with
         | Some n => n
         | None => StrDecimalLiteral l
         end
  end.

(** [Number(v)] *)
Definition Number (v : value) : number :=
  match v with
  | Undefined => NaN
  | Bool b => of_Z (if b then 1 else 0)
  | Num n => n
  | Str s => StringToNumber s
  end.

(** [Boolean(v)] *)
Definition Boolean (v : value) : bool :=
  match v with
  | Undefined => false
  | Bool b => b
  | Num NaN => false
  | Num (Fin q) => negb (Qeq_bool q 0)
  | Num (Infinity _) => true
  | Str s => negb (String.eqb s "")
  end.

(** [!s] on a string *)
Definition falsy (s : string) : bool := String.eqb s "".

End JS.

Example Number_examples :
  JS.Number (JS.Str "") = JS.of_Z 0 ∧
  JS.Number (JS.Str "39052") = JS.of_Z 39052 ∧
  JS.Number (JS.Str " 12 ") = JS.of_Z 12 ∧
  JS.Number (JS.Str "0x1F") = JS.of_Z 31 ∧
  JS.Number (JS.Str "-1.5e1") = JS.Fin (-15) ∧
  JS.Number (JS.Str "2.5") = JS.Fin (25 # 10) ∧
  JS.Number (JS.Str ".5") = JS.Fin (5 # 10) ∧
  JS.Number (JS.Str "5.") = JS.of_Z 5 ∧
  JS.Number (JS.Str "-Infinity") = JS.Infinity true ∧
  JS.Number (JS.Str "abc") = JS.NaN ∧
  JS.Number (JS.Str "12px") = JS.NaN ∧
  JS.Number (JS.Str "0x") = JS.NaN ∧
  JS.Number (JS.Str "-0x10") = JS.NaN ∧
  JS.Number (JS.Str "1e") = JS.NaN ∧
  JS.Number (JS.Str ".") = JS.NaN ∧
  JS.Number (JS.Str "1 2") = JS.NaN ∧
  JS.Number (JS.Str "1e999x") = JS.NaN ∧
  JS.Number JS.Undefined = JS.NaN.
Proof. vm_compute. repeat split. Qed.

(* ===================================================================== *)
(** ** The timing primitives of [./utils/debounce] *)
(* ===================================================================== *)

(** Time is the event loop's clock, in milliseconds. A pending timer is the
    instant it is due at; the event loop (below) runs the action of every
    timer that is due before it delivers the next event. *)

Module Debounce.

(** Modelled from the spec: the state of [debounce] of [./utils/debounce],
    which is not among the sources: the pending timer, if any (section 4.1,
    the scheduled run of the wrapped action). *)
Record t : Set := { timer : option Z }.

(** Modelled from the spec: [debounce(action, D)] as it is returned: no
    call yet, so nothing is scheduled. *)
Definition create : t := {| timer := None |}.

(** Modelled from the spec: a call [fire()] at instant [now]. Section 4.1:
    it (re)schedules the wrapped action to run exactly [D] after the last
    call; a call before the scheduled time cancels and reschedules. *)
Definition fire (D now : Z) (d : t) : t := {| timer := Some (now + D) |}.

(** Modelled from the spec: the scheduled time has come. *)
Definition due (now : Z) (d : t) : bool :=
  match timer d with
  | Some at_ => at_ <=? now
  | None => false
  end.

(** Modelled from the spec: the timer has run the wrapped action; one
    invocation per burst, nothing is scheduled afterwards. *)
Definition expire (d : t) : t := {| timer := None |}.

End Debounce.

Module DebounceGather.
Section Gather.
Context {K : Type} `{EqDecision K}.

(** Modelled from the spec: the state of [debounceGather] of
    [./utils/debounce], which is not among the sources: the window of
    section 3, "a set of pending keys plus a pending timer handle". *)
Record t : Type := { timer : option Z; pending : list K }.

(** Modelled from the spec: [debounceGather(action, D)] as it is returned:
    idle, no window. *)
Definition create : t := {| timer := None; pending := [] |}.

(** Modelled from the spec: section 4.2, a key is appended "to the pending
    set if not already present (set semantics on key identity;
    insertion-order preserved for the eventual delivery)". *)
Definition add (acc : list K) (k : K) : list K :=
  if bool_decide (k ∈ acc) then acc else acc ++ [k].

(** Modelled from the spec: a call at instant [now]. Section 4.2: the first
    call after an idle period starts a window and a timer for [D]; a call
    while the window is open adds its key and does not reset the timer. The
    call sites of [main.ts] pass several keys in one call
    ([debouncedCheckFeedbacks(Feedback.IsInLoop, Feedback.IsInActiveLoop)]),
    read here as passing them one after the other. *)
Definition fire (D now : Z) (keys : list K) (d : t) : t :=
  {| timer := match timer d with
              | Some at_ => Some at_
              | None => Some (now + D)
              end;
     pending := foldl add (pending d) keys |}.

(** Modelled from the spec: the timer of the window is due. *)
Definition due (now : Z) (d : t) : bool :=
  match timer d with
  | Some at_ => at_ <=? now
  | None => false
  end.

(** Modelled from the spec: the timer fires. Section 4.2: the action is
    invoked once with the accumulated keys, and the window state is cleared
    so that a later call starts a fresh window. The result is the keys
    handed to the action, and the state afterwards. *)
Definition expire (d : t) : list K * t := (pending d, create).

(** The primitive on an event loop of its own: the clock reaches [now], and
    the action is invoked if the timer is due. An invocation is recorded
    with the instant its timer was due at. *)
Definition tick (now : Z) (d : t) : list (Z * list K) * t :=
  match timer d with
  | Some at_ => if at_ <=? now then ([(at_, pending d)], (expire d).2) else ([], d)
  | None => ([], d)
  end.

(** The timed calls [(instant, keys)], in the order they are made, and the
    invocations of the action they lead to. *)
Fixpoint run (D : Z) (calls : list (Z * list K)) (d : t) : list (Z * list K) * t :=
  match calls with
  | [] => ([], d)
  | (now, keys) :: rest =>
      let '(o1, d1) := tick now d in
      let '(o2, d2) := run D rest (fire D now keys d1) in
      (o1 ++ o2, d2)
  end.

(** Each distinct key once, in the order of first occurrence. *)
Fixpoint first_occurrences (l : list K) : list K :=
  match l with
  | [] => []
  | k :: r => k :: filter (λ x, x ≠ k) (first_occurrences r)
  end.

End Gather.
Global Arguments t : clear implicits.
Global Arguments create {K}.
End DebounceGather.

(* ===================================================================== *)
(** ** The module instance *)
(* ===================================================================== *)

(** [enums.ts] *)
Inductive Feedback : Set :=
  | IsPlaying | IsInLoop | IsInActiveLoop
  | IsCurrentSong | IsCurrentSection
  | IsQueuedSong | IsQueuedSection
  | CanJumpToNextSong | CanJumpToPreviousSong
  | CanJumpToNextSection | CanJumpToPreviousSection.

Global Instance Feedback_eq_dec : EqDecision Feedback.
Proof. solve_decision. Defined.

(** The actions the presets refer to ([enums.ts]). *)
Inductive Action : Set :=
  | PlayPause | PlayStop | ToggleLoop
  | JumpToSongByNumber | JumpBySongs
  | JumpToSectionByNumber | JumpBySections.

(** [InstanceStatus] of the host library, the members [main.ts] uses. *)
Inductive InstanceStatus : Set :=
  | Ok | Connecting | Disconnected | ConnectionFailure | BadConfig.

Record Config : Set := {
  clientHost : string;  (* the host registered in AbleSet for updates *)
  clientPort : string;  (* the port used to listen to updates *)
  serverHost : string;  (* the hostname or IP address to connect to *)
}.

(** A transport endpoint ([Server] or [Client] of node-osc). *)
Record Endpoint : Set := { host : string; port : JS.number; open : bool }.

(** The variables of one call of [init] that its listeners close over:
    [isConnected], the watchdog [handleHeartbeat], and whether the
    once-listener of ['/global/isPlaying'] is still registered. *)
Record Session : Set := {
  isConnected : bool;
  handleHeartbeat : Debounce.t;
  oncePlaying : bool;
}.

Record Preset : Set := {
  category : string;
  name : string;
  text : string;
  down : list (Action * list (string * JS.value));
  feedbacks : list (Feedback * list (string * JS.value));
}.

(** What the module does to the outside: status reports, transport
    construction and shutdown, outbound messages, feedback re-checks.
    (Log lines are left out.) *)
Inductive Effect : Set :=
  | EUpdateStatus (s : InstanceStatus) (message : option string)
  | ENewServer (port : JS.number) (host : string)
  | ENewClient (host : string) (port : JS.number)
  | EClose (e : Endpoint)
  | ESend (address : string) (args : list JS.value)
  | ECheckFeedbacks (types : list Feedback).

Record ModuleInstance : Type := {
  config : Config;
  oscServer : option Endpoint;
  oscClient : option Endpoint;
  songs : list JS.value;
  sections : list JS.value;
  debouncedCheckFeedbacks : DebounceGather.t Feedback;
  (* kept by the host base class *)
  status : option (InstanceStatus * option string);
  variableValues : gmap string JS.value;
  variableDefinitions : list (string * string);
  presetDefinitions : list (string * Preset);
  (* the listeners on [oscServer], if [init] got to register them *)
  session : option Session;
  (* watchdogs of superseded sessions that are still pending *)
  orphans : list Z;
  (* the effects so far, oldest first *)
  effects : list Effect;
}.

Definition set_config v (st : ModuleInstance) :=
  let (_, b, c, d, e, f, g, h, i, j, k, l, m) := st in Build_ModuleInstance v b c d e f g h i j k l m.
Definition set_oscServer v (st : ModuleInstance) :=
  let (a, _, c, d, e, f, g, h, i, j, k, l, m) := st in Build_ModuleInstance a v c d e f g h i j k l m.
Definition set_oscClient v (st : ModuleInstance) :=
  let (a, b, _, d, e, f, g, h, i, j, k, l, m) := st in Build_ModuleInstance a b v d e f g h i j k l m.
Definition set_songs v (st : ModuleInstance) :=
  let (a, b, c, _, e, f, g, h, i, j, k, l, m) := st in Build_ModuleInstance a b c v e f g h i j k l m.
Definition set_sections v (st : ModuleInstance) :=
  let (a, b, c, d, _, f, g, h, i, j, k, l, m) := st in Build_ModuleInstance a b c d v f g h i j k l m.
Definition set_debouncedCheckFeedbacks v (st : ModuleInstance) :=
  let (a, b, c, d, e, _, g, h, i, j, k, l, m) := st in Build_ModuleInstance a b c d e v g h i j k l m.
Definition set_status v (st : ModuleInstance) :=
  let (a, b, c, d, e, f, _, h, i, j, k, l, m) := st in Build_ModuleInstance a b c d e f v h i j k l m.
Definition set_variableValues v (st : ModuleInstance) :=
  let (a, b, c, d, e, f, g, _, i, j, k, l, m) := st in Build_ModuleInstance a b c d e f g v i j k l m.
Definition set_variableDefinitions v (st : ModuleInstance) :=
  let (a, b, c, d, e, f, g, h, _, j, k, l, m) := st in Build_ModuleInstance a b c d e f g h v j k l m.
Definition set_presetDefinitions v (st : ModuleInstance) :=
  let (a, b, c, d, e, f, g, h, i, _, k, l, m) := st in Build_ModuleInstance a b c d e f g h i v k l m.
Definition set_session v (st : ModuleInstance) :=
  let (a, b, c, d, e, f, g, h, i, j, _, l, m) := st in Build_ModuleInstance a b c d e f g h i j v l m.
Definition set_orphans v (st : ModuleInstance) :=
  let (a, b, c, d, e, f, g, h, i, j, k, _, m) := st in Build_ModuleInstance a b c d e f g h i j k v m.
Definition set_effects v (st : ModuleInstance) :=
  let (a, b, c, d, e, f, g, h, i, j, k, l, _) := st in Build_ModuleInstance a b c d e f g h i j k l v.

Definition emit (e : Effect) (st : ModuleInstance) : ModuleInstance :=
  set_effects (effects st ++ [e]) st.

Section Instance.

(** [Number::toString] of the runtime, applied when a handler formats a
    numeric message argument; its digits play no part in what follows. *)
Variable NumberToString : JS.number → string.

(** Whether constructing a transport endpoint throws, and with which
    message ([None]: the constructor returns). *)
Variable new_Server : JS.number → string → option string.
Variable new_Client : string → JS.number → option string.

(** [String(v)] *)
Definition ToString (v : JS.value) : string :=
  match v with
  | JS.Undefined => "undefined"
  | JS.Bool true => "true"
  | JS.Bool false => "false"
  | JS.Num n => NumberToString n
  | JS.Str s => s
  end.

(** *** The variables of the module *)

Definition PRESET_COUNT : nat := 32.

(** [song${i + 1}Name], [section${i + 1}Name] *)
Definition indexedName (prefix : string) (i : nat) : string :=
  prefix +:+ pretty (i + 1)%nat +:+ "Name".

(** The [variableId]s and names given to [setVariableDefinitions]. *)
Definition variableDefinitionList : list (string * string) :=
  [ ("beatsPosition", "Playhead Position in Beats");
    ("humanPosition", "Playhead Position in Bars.Beats");
    ("tempo", "Current Tempo");
    ("isPlaying", "Is Playing");
    ("timeSignature", "Time Signature");
    ("setlistName", "Setlist Name");
    ("activeSongName", "Active Song Name");
    ("activeSongIndex", "Active Song Index");
    ("queuedSongName", "Queued Song Name");
    ("queuedSongIndex", "Queued Song Index");
    ("activeSectionName", "Active Section Name");
    ("activeSectionIndex", "Active Section Index");
    ("queuedSectionName", "Queued Section Name");
    ("queuedSectionIndex", "Queued Section Index");
    ("nextSongName", "Next Song Name");
    ("nextSongIndex", "Next Song Index") ]
  ++ ((λ i, (indexedName "song" i, "Song " +:+ pretty (i + 1)%nat +:+ " Name"))
        <$> seq 0 PRESET_COUNT)
  ++ ((λ i, (indexedName "section" i, "Section " +:+ pretty (i + 1)%nat +:+ " Name"))
        <$> seq 0 PRESET_COUNT)
  ++ [ ("loopEnabled", "Loop Enabled");
       ("loopStart", "Loop Start");
       ("loopEnd", "Loop End");
       ("isCountingIn", "Is Counting In");
       ("playAudio12Connected", "PlayAUDIO12 Connected");
       ("playAudio12Scene", "PlayAUDIO12 Scene");
       ("autoplay", "Autoplay");
       ("safeMode", "Safe Mode");
       ("alwaysStopOnSongEnd", "Always Stop on Song End");
       ("autoJumpToNextSong", "Autojump to the Next Song");
       ("autoLoopCurrentSection", "Autoloop the Current Section");
       ("countIn", "Count-In");
       ("countInSoloClick", "Solo Click During Count-In");
       ("countInDuration", "Count-In Duration");
       ("jumpMode", "Jump Mode") ].

(** *** The host base class *)

Definition updateStatus (s : InstanceStatus) (message : option string)
    (st : ModuleInstance) : ModuleInstance :=
  emit (EUpdateStatus s message) (set_status (Some (s, message)) st).

(** Later entries of the object win. *)
Definition setVariableValues (values : list (string * JS.value))
    (st : ModuleInstance) : ModuleInstance :=
  set_variableValues
    (foldl (λ m kv, <[kv.1 := kv.2]> m) (variableValues st) values) st.

(** [getVariableValue] reads the values the host holds: the value given to
    [setVariableValues] last; for a variable that was given none, the empty
    string when [setVariableDefinitions] has defined it (the host gives every
    variable it defines a value of [''] until the module sets one), and
    [undefined] when it is not a defined variable. [variableValues] holds
    the values given to [setVariableValues]. The callbacks that read a
    variable are registered by [updateActions] and [updateFeedbacks], which
    [init] calls together with [updateVariableDefinitions]: every read
    comes after the definitions. *)
Definition getVariableValue (variableId : string) (st : ModuleInstance) : JS.value :=
  match variableValues st !! variableId with
  | Some v => v
  | None =>
      if bool_decide (variableId ∈ variableDefinitionList.*1) then JS.Str ""
      else JS.Undefined
  end.

Definition checkFeedbacks (types : list Feedback) (st : ModuleInstance) : ModuleInstance :=
  emit (ECheckFeedbacks types) st.

(** *** [main.ts] *)

(** [Array(number).fill(0).map((_, i) => i)]: the numbers from 0 up to, and
    excluding, [number] (the doc comment of the source says "including"). *)
Definition makeRange (number : nat) : list nat := seq 0 number.

(** The delays given to [debounce] and [debounceGather]. *)
Definition HEARTBEAT_TIMEOUT : Z := 2500.
Definition FEEDBACK_DELAY : Z := 50.

Definition sendOsc (address : string) (args : list JS.value)
    (st : ModuleInstance) : ModuleInstance :=
  match oscClient st with
  | Some _ => emit (ESend address args) st
  | None => st
  end.

(** A call [this.debouncedCheckFeedbacks(...types)] at instant [now]. *)
Definition gather (now : Z) (types : list Feedback) (st : ModuleInstance) : ModuleInstance :=
  set_debouncedCheckFeedbacks
    (DebounceGather.fire FEEDBACK_DELAY now types (debouncedCheckFeedbacks st)) st.

(** Element [i + 1] of the message array (element 0 is the address). *)
Definition arg (i : nat) (args : list JS.value) : JS.value :=
  default JS.Undefined (args !! i).

Definition Listener : Type := Z → list JS.value → ModuleInstance → ModuleInstance.

Definition set1 (variableId : string) (v : JS.value) : ModuleInstance → ModuleInstance :=
  setVariableValues [(variableId, v)].

Definition number_of (i : nat) (args : list JS.value) : JS.value :=
  JS.Num (JS.Number (arg i args)).
Definition boolean_of (i : nat) (args : list JS.value) : JS.value :=
  JS.Bool (JS.Boolean (arg i args)).
Definition string_of (i : nat) (args : list JS.value) : JS.value :=
  JS.Str (ToString (arg i args)).

Definition indexedNames (prefix : string) (items : list JS.value)
    : list (string * JS.value) :=
  (λ i, (indexedName prefix i,
         JS.Str (ToString (JS.nullish (arg i items) (JS.Str ""))))) <$> makeRange PRESET_COUNT.

Definition initOscListeners : list (string * Listener) := [
  ("/global/beatsPosition", λ now args st,
     gather now [IsInLoop; IsInActiveLoop] (set1 "beatsPosition" (number_of 0 args) st));
  ("/global/humanPosition", λ now args st,
     set1 "humanPosition"
       (JS.Str (ToString (JS.nullish (arg 0 args) (JS.Num (JS.of_Z 0))) +:+ "." +:+
                ToString (JS.nullish (arg 1 args) (JS.Num (JS.of_Z 0))))) st);
  ("/global/tempo", λ now args st, set1 "tempo" (number_of 0 args) st);
  ("/global/isPlaying", λ now args st,
     gather now [IsPlaying] (set1 "isPlaying" (boolean_of 0 args) st));
  ("/global/timeSignature", λ now args st,
     set1 "timeSignature"
       (JS.Str (ToString (arg 0 args) +:+ "/" +:+ ToString (arg 1 args))) st);
  ("/setlist/name", λ now args st, set1 "setlistName" (string_of 0 args) st);
  ("/setlist/songs", λ now args st,
     gather now [CanJumpToNextSong; CanJumpToPreviousSong]
       (setVariableValues (indexedNames "song" args) (set_songs args st)));
  ("/setlist/sections", λ now args st,
     gather now [CanJumpToNextSection; CanJumpToPreviousSection]
       (setVariableValues (indexedNames "section" args) (set_sections args st)));
  ("/setlist/activeSongName", λ now args st,
     set1 "activeSongName" (string_of 0 args) st);
  ("/setlist/activeSongIndex", λ now args st,
     gather now [IsCurrentSong; CanJumpToNextSong; CanJumpToPreviousSong]
       (set1 "activeSongIndex" (number_of 0 args) st));
  ("/setlist/activeSectionName", λ now args st,
     set1 "activeSectionName" (string_of 0 args) st);
  ("/setlist/activeSectionIndex", λ now args st,
     gather now [IsCurrentSection; CanJumpToNextSection; CanJumpToPreviousSection]
       (set1 "activeSectionIndex" (number_of 0 args) st));
  ("/setlist/queuedName", λ now args st,
     setVariableValues [("queuedSongName", string_of 0 args);
                        ("queuedSectionName", string_of 1 args)] st);
  ("/setlist/queuedIndex", λ now args st,
     gather now [IsQueuedSong; IsQueuedSection]
       (setVariableValues [("queuedSongIndex", number_of 0 args);
                           ("queuedSectionIndex", number_of 1 args)] st));
  ("/setlist/nextSongName", λ now args st, set1 "nextSongName" (string_of 0 args) st);
  ("/setlist/nextSongIndex", λ now args st, set1 "nextSongIndex" (number_of 0 args) st);
  ("/setlist/loopEnabled", λ now args st,
     gather now [IsInLoop; IsInActiveLoop] (set1 "loopEnabled" (boolean_of 0 args) st));
  ("/setlist/loopStart", λ now args st,
     gather now [IsInLoop; IsInActiveLoop] (set1 "loopStart" (number_of 0 args) st));
  ("/setlist/loopEnd", λ now args st,
     gather now [IsInLoop; IsInActiveLoop] (set1 "loopEnd" (number_of 0 args) st));
  ("/setlist/isCountingIn", λ now args st, set1 "isCountingIn" (boolean_of 0 args) st);
  ("/playaudio12/isConnected", λ now args st,
     set1 "playAudio12Connected" (boolean_of 0 args) st);
  ("/playaudio12/scene", λ now args st, set1 "playAudio12Scene" (number_of 0 args) st);
  ("/settings/autoplay", λ now args st, set1 "autoplay" (boolean_of 0 args) st);
  ("/settings/safeMode", λ now args st, set1 "safeMode" (boolean_of 0 args) st);
  ("/settings/alwaysStopOnSongEnd", λ now args st,
     set1 "alwaysStopOnSongEnd" (boolean_of 0 args) st);
  ("/settings/autoJumpToNextSong", λ now args st,
     set1 "autoJumpToNextSong" (boolean_of 0 args) st);
  ("/settings/autoLoopCurrentSection", λ now args st,
     set1 "autoLoopCurrentSection" (boolean_of 0 args) st);
  ("/settings/countIn", λ now args st, set1 "countIn" (boolean_of 0 args) st);
  ("/settings/countInSoloClick", λ now args st,
     set1 "countInSoloClick" (boolean_of 0 args) st);
  ("/settings/countInDuration", λ now args st,
     set1 "countInDuration" (number_of 0 args) st);
  ("/settings/jumpMode", λ now args st, set1 "jumpMode" (string_of 0 args) st)
].

Definition isInActiveLoop (st : ModuleInstance) : bool :=
  let pos := JS.Number (getVariableValue "beatsPosition" st) in
  JS.Boolean (getVariableValue "loopEnabled" st) &&
  JS.geb pos (JS.Number (getVariableValue "loopStart" st)) &&
  JS.leb pos (JS.Number (getVariableValue "loopEnd" st)).

(** [feedback.options.id] *)
Definition option_value (id : string) (options : gmap string JS.value) : JS.value :=
  default JS.Undefined (options !! id).

(** The callbacks registered by [updateFeedbacks]. *)
Definition feedback_callback (f : Feedback) (options : gmap string JS.value)
    (st : ModuleInstance) : bool :=
  match f with
  | IsPlaying => JS.Boolean (getVariableValue "isPlaying" st)
  | IsInLoop =>
      let pos := JS.Number (getVariableValue "beatsPosition" st) in
      JS.geb pos (JS.Number (getVariableValue "loopStart" st)) &&
      JS.leb pos (JS.Number (getVariableValue "loopEnd" st))
  | IsInActiveLoop => isInActiveLoop st
  | IsCurrentSong =>
      JS.eqb (JS.Number (getVariableValue "activeSongIndex" st))
             (JS.sub (JS.Number (option_value "songNumber" options)) (JS.of_Z 1))
  | IsCurrentSection =>
      JS.eqb (JS.Number (getVariableValue "activeSectionIndex" st))
             (JS.sub (JS.Number (option_value "sectionNumber" options)) (JS.of_Z 1))
  | IsQueuedSong =>
      negb (JS.strict_eq (getVariableValue "queuedSongIndex" st) (JS.Str "")) &&
      JS.eqb (JS.Number (getVariableValue "queuedSongIndex" st))
             (JS.sub (JS.Number (option_value "songNumber" options)) (JS.of_Z 1))
  | IsQueuedSection =>
      negb (JS.strict_eq (getVariableValue "queuedSectionIndex" st) (JS.Str "")) &&
      JS.eqb (JS.Number (getVariableValue "queuedSectionIndex" st))
             (JS.sub (JS.Number (option_value "sectionNumber" options)) (JS.of_Z 1))
  | CanJumpToNextSong =>
      JS.ltb (JS.Number (getVariableValue "activeSongIndex" st))
             (JS.sub (JS.of_nat (length (songs st))) (JS.of_Z 1))
  | CanJumpToPreviousSong =>
      JS.gtb (JS.Number (getVariableValue "activeSongIndex" st)) (JS.of_Z 0)
  | CanJumpToNextSection =>
      JS.ltb (JS.Number (getVariableValue "activeSectionIndex" st))
             (JS.sub (JS.of_nat (length (sections st))) (JS.of_Z 1))
  | CanJumpToPreviousSection =>
      JS.gtb (JS.Number (getVariableValue "activeSectionIndex" st)) (JS.of_Z 0)
  end.

(** [setVariableDefinitions] registers the definitions. The host also gives
    each of these variables that has no value the value ['']: that is what
    [getVariableValue] returns for them. *)
Definition updateVariableDefinitions (st : ModuleInstance) : ModuleInstance :=
  set_variableDefinitions variableDefinitionList st.

(** The presets given to [setPresetDefinitions] (colours, sizes and icons
    are left out). *)
Definition indexedPreset (key title variable : string) (a : Action)
    (queued current : Feedback) (optionId : string) (i : nat) : string * Preset :=
  let n := JS.Num (JS.of_nat (i + 1)) in
  (key +:+ pretty (i + 1)%nat,
   {| category := title +:+ "s";
      name := title +:+ " " +:+ pretty (i + 1)%nat;
      text := "$(AbleSet:" +:+ indexedName variable i +:+ ")";
      down := [(a, [("number", n)])];
      feedbacks := [(queued, [(optionId, n)]); (current, [(optionId, n)])] |}).

Definition songPresets : list (string * Preset) :=
  indexedPreset "song" "Song" "song" JumpToSongByNumber
                IsQueuedSong IsCurrentSong "songNumber" <$> makeRange PRESET_COUNT.

Definition sectionPresets : list (string * Preset) :=
  indexedPreset "section" "Section" "section" JumpToSectionByNumber
                IsQueuedSection IsCurrentSection "sectionNumber" <$> makeRange PRESET_COUNT.

Definition newline : string := String (ascii_of_nat 10) "".

Definition playbackPresets : list (string * Preset) :=
  let step n := [("steps", JS.Num (JS.of_Z n))] in
  [ ("playPause", {| category := "Playback"; name := "Toggle Play/Pause"; text := "";
                     down := [(PlayPause, [])]; feedbacks := [(IsPlaying, [])] |});
    ("playStop", {| category := "Playback"; name := "Toggle Play/Stop"; text := "";
                    down := [(PlayStop, [])]; feedbacks := [(IsPlaying, [])] |});
    ("prevSong", {| category := "Playback"; name := "Previous Song";
                    text := "<" +:+ newline +:+ "Song";
                    down := [(JumpBySongs, step (-1))];
                    feedbacks := [(CanJumpToPreviousSong, [])] |});
    ("nextSong", {| category := "Playback"; name := "Next Song";
                    text := ">" +:+ newline +:+ "Song";
                    down := [(JumpBySongs, step 1)];
                    feedbacks := [(CanJumpToNextSong, [])] |});
    ("prevSection", {| category := "Playback"; name := "Previous Section";
                       text := "<" +:+ newline +:+ "Section";
                       down := [(JumpBySections, step (-1))];
                       feedbacks := [(CanJumpToPreviousSection, [])] |});
    ("nextSection", {| category := "Playback"; name := "Next Section";
                       text := ">" +:+ newline +:+ "Section";
                       down := [(JumpBySections, step 1)];
                       feedbacks := [(CanJumpToNextSection, [])] |});
    ("toggleLoop", {| category := "Playback"; name := "Toggle Loop"; text := "";
                      down := [(ToggleLoop, [])];
                      feedbacks := [(IsInLoop, []); (IsInActiveLoop, [])] |}) ].

Definition updatePresets (st : ModuleInstance) : ModuleInstance :=
  set_presetDefinitions (songPresets ++ sectionPresets ++ playbackPresets) st.

(** *** Session life cycle *)


Definition fresh_session : Session :=
  {| isConnected := false;
     handleHeartbeat := Debounce.create;
     oncePlaying := true |}.

(** The listeners of a server that is replaced are never called again, but
    the pending timer of their watchdog stays with the event loop. *)
Definition supersede (st : ModuleInstance) : ModuleInstance :=
  match session st with
  | Some ss =>
      set_session None
        (match Debounce.timer (handleHeartbeat ss) with
         | Some at_ => set_orphans (orphans st ++ [at_]) st
         | None => st
         end)
  | None => st
  end.

Definition badHostMessage : string :=
  "You must provide an IP address for AbleSet to send updates to when AbleSet isn't running on this machine, and it can't be 127.0.0.1 or localhost.".

(** The [catch] clause of [init]. *)
Definition init_catch (message : string) (st : ModuleInstance) : ModuleInstance :=
  updateStatus ConnectionFailure (Some message) st.

(** The [try] block of [init]. *)
Definition init_try (cfg : Config) (st : ModuleInstance) : ModuleInstance :=
  let portNumber := JS.Number (JS.Str (clientPort (config st))) in
  if JS.isNaN portNumber then
    init_catch ("Client port is not valid: " +:+ clientPort (config st)) st
  else
    match new_Server portNumber (clientHost cfg) with
    | Some message => init_catch message st
    | None =>
        let st := emit (ENewServer portNumber (clientHost cfg))
                    (set_oscServer
                       (Some {| host := clientHost cfg; port := portNumber; open := true |})
                       (supersede st)) in
        match new_Client (serverHost (config st)) (JS.of_Z 39051) with
        | Some message => init_catch message st
        | None =>
            let st := emit (ENewClient (serverHost (config st)) (JS.of_Z 39051))
                        (set_oscClient
                           (Some {| host := serverHost (config st);
                                    port := JS.of_Z 39051; open := true |}) st) in
            set_session (Some fresh_session) st
        end
    end.

(** The condition of the first [if] of [init]: AbleSet runs on another
    machine and the client host is missing or is this machine's loopback. *)
Definition remote_without_client_host (cfg : Config) : bool :=
  negb (String.eqb (serverHost cfg) "127.0.0.1") &&
  negb (String.eqb (serverHost cfg) "localhost") &&
  (JS.falsy (clientHost cfg) || String.eqb (clientHost cfg) "127.0.0.1"
   || String.eqb (clientHost cfg) "localhost").

Definition init (cfg : Config) (st : ModuleInstance) : ModuleInstance :=
  let st := set_config cfg st in
  if remote_without_client_host cfg
  then updateStatus BadConfig (Some badHostMessage) st
  else
    let st := updateStatus Connecting None st in
    let st := init_try cfg st in
    (* updateActions and updateFeedbacks register the action and feedback
       callbacks with the host *)
    updateVariableDefinitions (updatePresets st).

Definition close (e : Endpoint) : Endpoint :=
  {| host := host e; port := port e; open := false |}.

(** [destroy], and whether it finishes: each [await] waits for the callback
    of [close], which [?.] never calls on an endpoint that is [null]. What
    node-osc does when an endpoint that is already closed is sent through or
    closed again is not modelled. *)
Definition destroy (st : ModuleInstance) : ModuleInstance * bool :=
  let st := sendOsc "/unsubscribe" [] st in
  match oscClient st with
  | None => (st, false)
  | Some c =>
      let st := emit (EClose c) (set_oscClient (Some (close c)) st) in
      match oscServer st with
      | None => (st, false)
      | Some s => (emit (EClose s) (set_oscServer (Some (close s)) st), true)
      end
  end.

Definition configUpdated (cfg : Config) (st : ModuleInstance) : ModuleInstance :=
  let st := set_config cfg st in
  let '(st, finished) := destroy st in
  if finished then init cfg st else st.

(** The instance as its constructor leaves it. *)
Definition new_ModuleInstance : ModuleInstance :=
  {| config := {| clientHost := "127.0.0.1"; clientPort := "39052";
                  serverHost := "127.0.0.1" |};
     oscServer := None;
     oscClient := None;
     songs := [];
     sections := [];
     debouncedCheckFeedbacks := DebounceGather.create;
     status := None;
     variableValues := ∅;
     variableDefinitions := [];
     presetDefinitions := [];
     session := None;
     orphans := [];
     effects := [] |}.

(** *** Events *)

Inductive Event : Set :=
  | Listening
  | Message (address : string) (args : list JS.value)
  | Error (message : string).

Definition lostMessage : string := "Didn't receive a heartbeat in a while".

(** The server delivers to its listeners while it is open. *)
Definition live (st : ModuleInstance) : bool :=
  match session st, oscServer st with
  | Some _, Some sv => open sv
  | _, _ => false
  end.

Definition with_session (f : Session → Session) (st : ModuleInstance) : ModuleInstance :=
  match session st with
  | Some ss => set_session (Some (f ss)) st
  | None => st
  end.

(** A call [handleHeartbeat()] at instant [now]. *)
Definition arm (now : Z) : ModuleInstance → ModuleInstance :=
  with_session (λ ss, {| isConnected := isConnected ss;
                         handleHeartbeat := Debounce.fire HEARTBEAT_TIMEOUT now (handleHeartbeat ss);
                         oncePlaying := oncePlaying ss |}).

Definition set_isConnected (b : bool) : ModuleInstance → ModuleInstance :=
  with_session (λ ss, {| isConnected := b;
                         handleHeartbeat := handleHeartbeat ss;
                         oncePlaying := oncePlaying ss |}).

(** [oscServer.on('listening', ...)] *)
Definition on_listening (now : Z) (st : ModuleInstance) : ModuleInstance :=
  match oscServer st with
  | Some sv =>
      let st := sendOsc "/subscribe"
                  [JS.Str (host sv); JS.Num (port sv); JS.Str "Companion"] st in
      let st := sendOsc "/getValues" [] st in
      arm now st
  | None => st
  end.

(** [oscServer.once('/global/isPlaying', ...)] *)
Definition once_isPlaying (st : ModuleInstance) : ModuleInstance :=
  match session st with
  | Some ss =>
      if oncePlaying ss then
        updateStatus Ok None
          (set_session (Some {| isConnected := true;
                                handleHeartbeat := handleHeartbeat ss;
                                oncePlaying := false |}) st)
      else st
  | None => st
  end.

(** [oscServer.on('/heartbeat', ...)] *)
Definition on_heartbeat (now : Z) (st : ModuleInstance) : ModuleInstance :=
  match session st with
  | Some ss =>
      let st := if isConnected ss then st
                else updateStatus Ok None (set_isConnected true st) in
      arm now st
  | None => st
  end.

(** [oscServer.on('error', ...)] *)
Definition on_error (message : string) (st : ModuleInstance) : ModuleInstance :=
  updateStatus ConnectionFailure (Some message) st.

(** The listeners of [listeners] registered for [address], in the order of
    their registration. *)
Definition emit_to (listeners : list (string * Listener)) (now : Z)
    (address : string) (args : list JS.value) (st : ModuleInstance) : ModuleInstance :=
  foldl (λ st (l : string * Listener),
           if String.eqb l.1 address then l.2 now args st else st)
        st listeners.

(** The listeners of an address run in the order of their registration:
    those of [initOscListeners], then the once-listener, then the
    heartbeat listener. *)
Definition dispatch (now : Z) (address : string) (args : list JS.value)
    (st : ModuleInstance) : ModuleInstance :=
  let st := emit_to initOscListeners now address args st in
  let st := if String.eqb address "/global/isPlaying" then once_isPlaying st else st in
  if String.eqb address "/heartbeat" then on_heartbeat now st else st.

Definition handle (now : Z) (ev : Event) (st : ModuleInstance) : ModuleInstance :=
  if live st then
    match ev with
    | Listening => on_listening now st
    | Message address args => dispatch now address args st
    | Error message => on_error message st
    end
  else st.

(** *** Timers *)

(** The action of the watchdog. *)
Definition declare_lost (st : ModuleInstance) : ModuleInstance :=
  set_isConnected false (updateStatus Disconnected (Some lostMessage) st).

Definition run_gather (now : Z) (st : ModuleInstance) : ModuleInstance :=
  if DebounceGather.due now (debouncedCheckFeedbacks st) then
    let '(types, d) := DebounceGather.expire (debouncedCheckFeedbacks st) in
    checkFeedbacks types (set_debouncedCheckFeedbacks d st)
  else st.

(** The watchdog of a superseded session reports through the same instance. *)
Definition run_orphans (now : Z) (st : ModuleInstance) : ModuleInstance :=
  foldl (λ st _, updateStatus Disconnected (Some lostMessage) st)
        (set_orphans (filter (λ at_, ¬ at_ ≤ now) (orphans st)) st)
        (filter (λ at_, at_ ≤ now) (orphans st)).

Definition run_watchdog (now : Z) (st : ModuleInstance) : ModuleInstance :=
  match session st with
  | Some ss =>
      if Debounce.due now (handleHeartbeat ss) then
        declare_lost
          (with_session (λ ss, {| isConnected := isConnected ss;
                                  handleHeartbeat := Debounce.expire (handleHeartbeat ss);
                                  oncePlaying := oncePlaying ss |}) st)
      else st
  | None => st
  end.

(** The clock reaches [now]: every timer that is due runs. Timers that are
    due together run in the order gather, superseded watchdogs, watchdog;
    they do not interfere. *)
Definition advance (now : Z) (st : ModuleInstance) : ModuleInstance :=
  run_watchdog now (run_orphans now (run_gather now st)).

(** The event loop on a sequence of timed events. *)
Definition step (st : ModuleInstance) (e : Z * Event) : ModuleInstance :=
  handle e.1 e.2 (advance e.1 st).

Definition run (events : list (Z * Event)) (st : ModuleInstance) : ModuleInstance :=
  foldl step st events.

End Instance.

(** An instance of the runtime for the examples: [Number::toString] exact
    on the integers, and constructors that do not throw. *)
Definition integerToString (n : JS.number) : string :=
  match n with
  | JS.NaN => "NaN"
  | JS.Infinity negative => if negative then "-Infinity" else "Infinity"
  | JS.Fin q => pretty (Qnum q / Zpos (Qden q))
  end.

Definition returns {A B : Type} : A → B → option string := λ _ _, None.

Definition localConfig : Config :=
  {| clientHost := "127.0.0.1"; clientPort := "39052"; serverHost := "127.0.0.1" |}.

(* ===================================================================== *)
(** ** The gathering debounce *)
(* ===================================================================== *)

Section GatherFacts.
Context {K : Type} `{EqDecision K}.
Implicit Types (l keys acc : list K) (d : DebounceGather.t K).

Lemma add_spec acc k x :
  x ∈ DebounceGather.add acc k ↔ x ∈ acc ∨ x = k.
Proof.
  unfold DebounceGather.add. case_bool_decide as Hk.
  - split; [auto | intros [?| ->]; done].
  - rewrite elem_of_app, list_elem_of_singleton. done.
Qed.

Lemma foldl_add_first_occurrences l acc :
  foldl DebounceGather.add acc l
  = acc ++ filter (λ x, x ∉ acc) (DebounceGather.first_occurrences l).
Proof.
  revert acc. induction l as [|k r IH]; intros acc; simpl.
  - by rewrite app_nil_r.
  - rewrite IH. unfold DebounceGather.add. case_bool_decide as Hk.
    + rewrite filter_cons_False by (intros Hn; by apply Hn).
      f_equal. rewrite list_filter_filter. apply list_filter_iff.
      intros x. split; [|tauto]. intros Hx. split; [done|]. by intros ->.
    + rewrite filter_cons_True by done. rewrite <- app_assoc. simpl.
      do 2 f_equal. rewrite list_filter_filter. apply list_filter_iff.
      intros x. rewrite elem_of_app, list_elem_of_singleton. tauto.
Qed.

Lemma gathered_first_occurrences l :
  foldl DebounceGather.add [] l = DebounceGather.first_occurrences l.
Proof.
  rewrite foldl_add_first_occurrences. simpl.
  induction (DebounceGather.first_occurrences l) as [|x r IH]; [done|].
  rewrite filter_cons_True by apply not_elem_of_nil. by rewrite IH.
Qed.

Lemma elem_of_first_occurrences l x :
  x ∈ DebounceGather.first_occurrences l ↔ x ∈ l.
Proof.
  induction l as [|k r IH]; simpl; [done|].
  rewrite !elem_of_cons, list_elem_of_filter, IH.
  destruct (decide (x = k)); tauto.
Qed.

Lemma NoDup_first_occurrences l : NoDup (DebounceGather.first_occurrences l).
Proof.
  induction l as [|k r IH]; simpl; [constructor|].
  constructor.
  - rewrite list_elem_of_filter. tauto.
  - by apply NoDup_filter.
Qed.

(** While the window is open, calls made before the timer is due only add
    their keys. *)
Lemma run_open_window D (calls : list (Z * list K)) d at_ :
  DebounceGather.timer d = Some at_ →
  Forall (λ c, c.1 < at_) calls →
  DebounceGather.run D calls d
  = ([], {| DebounceGather.timer := Some at_;
            DebounceGather.pending :=
              foldl DebounceGather.add (DebounceGather.pending d) (concat calls.*2) |}).
Proof.
  revert d. induction calls as [|[now keys] rest IH]; intros d Ht Hall; simpl.
  - destruct d; simpl in *. by subst.
  - inversion_clear Hall as [|?? Hnow Hrest]. simpl in Hnow.
    unfold DebounceGather.tick. rewrite Ht.
    destruct (Z.leb_spec at_ now) as [?|_]; [lia|].
    rewrite (IH (DebounceGather.fire D now keys d)); [| by simpl; rewrite Ht | done].
    simpl. by rewrite foldl_app.
Qed.

(** C3. Calls whose keys are [k1..kn] (repeats allowed), the first at [t1] and
    the others before [t1 + D]: once the clock has passed [t1 + D] the action
    has been invoked exactly once, at [t1 + D], with each distinct key once
    in the order of first occurrence, and the primitive is idle again. *)
Theorem gather_window_delivers_once D t1 (keys1 : list K) (rest : list (Z * list K)) T :
  Forall (λ c, c.1 < t1 + D) rest →
  t1 + D ≤ T →
  let keys := keys1 ++ concat rest.*2 in
  let '(invoked, d) := DebounceGather.run D ((t1, keys1) :: rest) DebounceGather.create in
  let '(invoked', d') := DebounceGather.tick T d in
  invoked ++ invoked' = [(t1 + D, DebounceGather.first_occurrences keys)]
  ∧ NoDup (DebounceGather.first_occurrences keys)
  ∧ (∀ k, k ∈ DebounceGather.first_occurrences keys ↔ k ∈ keys)
  ∧ d' = DebounceGather.create.
Proof.
  intros Hrest HT. simpl.
  rewrite (run_open_window D rest _ (t1 + D)) by done.
  unfold DebounceGather.tick. simpl.
  destruct (Z.leb_spec (t1 + D) T) as [_|?]; [|lia].
  rewrite <- foldl_app, gathered_first_occurrences.
  split_and!; [done | apply NoDup_first_occurrences | | done].
  intros k. apply elem_of_first_occurrences.
Qed.

End GatherFacts.

(** Three keys with a repeat, fired at 0, 10 and 49 with [D = 50]. *)
Lemma gather_window_delivers_once_witness :
  let '(invoked, d) :=
    DebounceGather.run 50 [(0, [IsInLoop; IsInActiveLoop]); (10, [IsPlaying]);
                           (49, [IsInLoop])] DebounceGather.create in
  let '(invoked', d') := DebounceGather.tick 60 d in
  invoked ++ invoked' = [(50, [IsInLoop; IsInActiveLoop; IsPlaying])]
  ∧ d' = DebounceGather.create.
Proof.
  destruct (gather_window_delivers_once 50 0 [IsInLoop; IsInActiveLoop]
              [(10, [IsPlaying]); (49, [IsInLoop])] 60) as (Hinvoked & _ & _ & Hidle).
  - repeat constructor.
  - lia.
  - split; [exact Hinvoked | exact Hidle].
Defined.

(* ===================================================================== *)
(** ** The connection monitor *)
(* ===================================================================== *)

Section ConnectionFacts.
Variable NumberToString : JS.number → string.

Abbreviation handle := (handle NumberToString).
Abbreviation dispatch := (dispatch NumberToString).
Abbreviation step := (step NumberToString).
Abbreviation run := (run NumberToString).
Abbreviation initOscListeners := (initOscListeners NumberToString).

(** What the connection monitor owns or reports, apart from the mirrored
    state. *)
Definition connection (st : ModuleInstance) :=
  (session st, status st, oscServer st, oscClient st, orphans st, effects st).

(** The pending instant of the watchdog. *)
Definition watchdog (st : ModuleInstance) : option Z :=
  ss ← session st; Debounce.timer (handleHeartbeat ss).

Definition connected (st : ModuleInstance) : option bool :=
  isConnected <$> session st.

Definition is_heartbeat (e : Event) : bool :=
  match e with
  | Message address _ => String.eqb address "/heartbeat"
  | _ => false
  end.

Lemma listeners_keep_connection :
  Forall (λ l : string * Listener,
            ∀ now args st, connection (l.2 now args st) = connection st)
         initOscListeners.
Proof.
  repeat (apply List.Forall_cons; [intros now args []; reflexivity|]).
  apply List.Forall_nil.
Qed.

Lemma emit_to_keeps {A : Type} (f : ModuleInstance → A)
    (listeners : list (string * Listener)) now address args st :
  Forall (λ l : string * Listener, ∀ now args st, f (l.2 now args st) = f st) listeners →
  f (emit_to listeners now address args st) = f st.
Proof.
  intros Hall. revert st. unfold emit_to.
  induction Hall as [|l ls Hl _ IH]; intros st; simpl; [done|].
  rewrite IH. destruct (String.eqb l.1 address); [apply Hl | done].
Qed.

Lemma listeners_keep {A : Type} (f : ModuleInstance → A) :
  (∀ st st', connection st' = connection st → f st' = f st) →
  Forall (λ l : string * Listener, ∀ now args st, f (l.2 now args st) = f st)
         initOscListeners.
Proof.
  intros Hf. eapply List.Forall_impl; [|exact listeners_keep_connection].
  intros l Hl now args st. apply Hf, Hl.
Qed.

Lemma mirror_session now address args st :
  session (emit_to initOscListeners now address args st) = session st.
Proof.
  apply (emit_to_keeps session), listeners_keep.
  unfold connection. congruence.
Qed.

Lemma mirror_status now address args st :
  status (emit_to initOscListeners now address args st) = status st.
Proof.
  apply (emit_to_keeps status), listeners_keep.
  unfold connection. congruence.
Qed.

Lemma mirror_oscServer now address args st :
  oscServer (emit_to initOscListeners now address args st) = oscServer st.
Proof.
  apply (emit_to_keeps oscServer), listeners_keep.
  unfold connection. congruence.
Qed.

Lemma mirror_effects now address args st :
  effects (emit_to initOscListeners now address args st) = effects st.
Proof.
  apply (emit_to_keeps effects), listeners_keep.
  unfold connection. congruence.
Qed.

Lemma once_isPlaying_connection st :
  session (once_isPlaying st)
  = (λ ss, if oncePlaying ss
           then {| isConnected := true; handleHeartbeat := handleHeartbeat ss;
                   oncePlaying := false |}
           else ss) <$> session st
  ∧ oscServer (once_isPlaying st) = oscServer st
  ∧ status (once_isPlaying st)
    = match session st with
      | Some ss => if oncePlaying ss then Some (Ok, None) else status st
      | None => status st
      end.
Proof.
  unfold once_isPlaying.
  destruct st as [? ? ? ? ? ? ? ? ? ? [[c h []]|] ? ?]; done.
Qed.

Lemma on_heartbeat_connection now st :
  session (on_heartbeat now st)
  = (λ ss, {| isConnected := true;
              handleHeartbeat := Debounce.fire HEARTBEAT_TIMEOUT now (handleHeartbeat ss);
              oncePlaying := oncePlaying ss |}) <$> session st
  ∧ oscServer (on_heartbeat now st) = oscServer st
  ∧ status (on_heartbeat now st)
    = match session st with
      | Some ss => if isConnected ss then status st else Some (Ok, None)
      | None => status st
      end.
Proof.
  unfold on_heartbeat.
  destruct st as [? ? ? ? ? ? ? ? ? ? [[[] h o]|] ? ?]; done.
Qed.

(** The session after a message, from the session before it. *)
Definition once_session (address : string) (ss : Session) : Session :=
  if String.eqb address "/global/isPlaying" && oncePlaying ss
  then {| isConnected := true; handleHeartbeat := handleHeartbeat ss;
          oncePlaying := false |}
  else ss.

Definition heartbeat_session (now : Z) (address : string) (ss : Session) : Session :=
  if String.eqb address "/heartbeat"
  then {| isConnected := true;
          handleHeartbeat := Debounce.fire HEARTBEAT_TIMEOUT now (handleHeartbeat ss);
          oncePlaying := oncePlaying ss |}
  else ss.

Lemma dispatch_session now address args st :
  session (dispatch now address args st)
  = heartbeat_session now address <$> (once_session address <$> session st).
Proof.
  unfold dispatch, heartbeat_session, once_session.
  pose proof (mirror_session now address args st) as Hs.
  destruct (String.eqb address "/heartbeat"), (String.eqb address "/global/isPlaying");
    rewrite ?(proj1 (on_heartbeat_connection _ _)), ?(proj1 (once_isPlaying_connection _)), Hs;
    destruct (session st) as [[c h []]|]; done.
Qed.

Lemma dispatch_oscServer now address args st :
  oscServer (dispatch now address args st) = oscServer st.
Proof.
  unfold dispatch.
  pose proof (mirror_oscServer now address args st) as Hs.
  destruct (String.eqb address "/heartbeat"), (String.eqb address "/global/isPlaying");
    rewrite ?(proj1 (proj2 (on_heartbeat_connection _ _))),
            ?(proj1 (proj2 (once_isPlaying_connection _))); done.
Qed.

(** The status after a message: [Ok] when the once-listener or the heartbeat
    listener reports, the status before otherwise. *)
Lemma dispatch_status now address args st :
  status (dispatch now address args st)
  = match session st with
    | Some ss =>
        if (String.eqb address "/global/isPlaying" && oncePlaying ss)
           || (String.eqb address "/heartbeat"
               && negb (isConnected (once_session address ss)))
        then Some (Ok, None) else status st
    | None => status st
    end.
Proof.
  unfold dispatch, once_session.
  pose proof (mirror_session now address args st) as Hs.
  pose proof (mirror_status now address args st) as Ht.
  destruct (String.eqb address "/heartbeat"), (String.eqb address "/global/isPlaying");
    rewrite ?(proj2 (proj2 (on_heartbeat_connection _ _))),
            ?(proj1 (on_heartbeat_connection _ _)),
            ?(proj2 (proj2 (once_isPlaying_connection _))),
            ?(proj1 (once_isPlaying_connection _)), ?Hs, ?Ht;
    destruct (session st) as [[[] h []]|]; done.
Qed.

Lemma live_iff st :
  live st = true ↔ ∃ ss sv, session st = Some ss ∧ oscServer st = Some sv ∧ open sv = true.
Proof.
  unfold live. destruct (session st) as [ss|], (oscServer st) as [sv|]; split;
    try discriminate; try (intros (? & ? & ? & ? & ?); congruence).
  intros Ho. by exists ss, sv.
Qed.

Lemma handle_session now e st :
  live st = true →
  session (handle now e st)
  = match e with
    | Listening =>
        (λ ss, {| isConnected := isConnected ss;
                  handleHeartbeat := Debounce.fire HEARTBEAT_TIMEOUT now (handleHeartbeat ss);
                  oncePlaying := oncePlaying ss |}) <$> session st
    | Message address _ =>
        heartbeat_session now address <$> (once_session address <$> session st)
    | Error _ => session st
    end.
Proof.
  intros Hlive. unfold handle. rewrite Hlive. destruct e as [|address args|message].
  - apply live_iff in Hlive as (ss & sv & Hs & Hv & _).
    unfold on_listening. rewrite Hv.
    destruct st as [? ? [?|] ? ? ? ? ? ? ? ? ? ?]; simpl in *; subst; reflexivity.
  - apply dispatch_session.
  - destruct st; reflexivity.
Qed.

Lemma handle_oscServer now e st : oscServer (handle now e st) = oscServer st.
Proof.
  unfold handle. destruct (live st); [|done]. destruct e as [|address args|message].
  - unfold on_listening.
    destruct st as [? [?|] [?|] ? ? ? ? ? ? ? [?|] ? ?]; reflexivity.
  - apply dispatch_oscServer.
  - destruct st; reflexivity.
Qed.

(** Timers. *)
Lemma run_gather_connection now st :
  session (run_gather now st) = session st ∧
  oscServer (run_gather now st) = oscServer st ∧
  status (run_gather now st) = status st.
Proof.
  unfold run_gather. destruct (DebounceGather.due _ _); [|done].
  destruct st; done.
Qed.

Lemma run_orphans_connection now st :
  session (run_orphans now st) = session st ∧
  oscServer (run_orphans now st) = oscServer st.
Proof.
  unfold run_orphans.
  assert (∀ (l : list Z) s,
    session (foldl (λ st _, updateStatus Disconnected (Some lostMessage) st) s l) = session s ∧
    oscServer (foldl (λ st _, updateStatus Disconnected (Some lostMessage) st) s l) = oscServer s)
    as Hfold.
  { induction l as [|x l IH]; intros s; simpl; [done|].
    destruct (IH (updateStatus Disconnected (Some lostMessage) s)) as [-> ->].
    destruct s; done. }
  destruct (Hfold (filter (λ at_, at_ ≤ now) (orphans st))
                  (set_orphans (filter (λ at_, ¬ at_ ≤ now) (orphans st)) st)) as [-> ->].
  destruct st; done.
Qed.

Lemma run_watchdog_early now st at_ :
  watchdog st = Some at_ → now < at_ → run_watchdog now st = st.
Proof.
  unfold watchdog, run_watchdog, Debounce.due.
  destruct (session st) as [ss|]; simpl; [|done].
  intros -> Hlt. destruct (Z.leb_spec at_ now); [lia | done].
Qed.

Lemma run_watchdog_due now st at_ :
  watchdog st = Some at_ → at_ ≤ now →
  status (run_watchdog now st) = Some (Disconnected, Some lostMessage) ∧
  connected (run_watchdog now st) = Some false ∧
  watchdog (run_watchdog now st) = None ∧
  oscServer (run_watchdog now st) = oscServer st ∧
  (oncePlaying <$> session (run_watchdog now st)) = (oncePlaying <$> session st).
Proof.
  unfold watchdog, connected, run_watchdog, Debounce.due.
  destruct (session st) as [ss|] eqn:Hs; simpl; [|done].
  intros -> Hle. destruct (Z.leb_spec at_ now); [|lia].
  destruct st; simpl in *; subst; done.
Qed.

Lemma advance_early now st at_ :
  watchdog st = Some at_ → now < at_ →
  session (advance now st) = session st ∧ oscServer (advance now st) = oscServer st.
Proof.
  intros Hw Hlt. unfold advance.
  destruct (run_gather_connection now st) as (Hs1 & Hv1 & _).
  destruct (run_orphans_connection now (run_gather now st)) as (Hs2 & Hv2).
  rewrite (run_watchdog_early now _ at_); [| | done].
  - split; congruence.
  - unfold watchdog in *. congruence.
Qed.

Lemma advance_due now st at_ :
  watchdog st = Some at_ → at_ ≤ now →
  status (advance now st) = Some (Disconnected, Some lostMessage) ∧
  connected (advance now st) = Some false ∧
  watchdog (advance now st) = None ∧
  oscServer (advance now st) = oscServer st ∧
  (oncePlaying <$> session (advance now st)) = (oncePlaying <$> session st).
Proof.
  intros Hw Hle. unfold advance.
  destruct (run_gather_connection now st) as (Hs1 & Hv1 & _).
  destruct (run_orphans_connection now (run_gather now st)) as (Hs2 & Hv2).
  destruct (run_watchdog_due now (run_orphans now (run_gather now st)) at_)
    as (? & ? & ? & ? & ?); [unfold watchdog in *; congruence | done |].
  split_and!; congruence.
Qed.

Lemma run_watchdog_frame now st :
  oscServer (run_watchdog now st) = oscServer st ∧
  (oncePlaying <$> session (run_watchdog now st)) = (oncePlaying <$> session st).
Proof.
  unfold run_watchdog.
  destruct (session st) as [ss|] eqn:Hs; [|by rewrite Hs].
  destruct (Debounce.due now (handleHeartbeat ss)); [|by rewrite Hs].
  destruct st; simpl in *; subst; done.
Qed.

Lemma advance_frame now st :
  oscServer (advance now st) = oscServer st ∧
  (oncePlaying <$> session (advance now st)) = (oncePlaying <$> session st).
Proof.
  unfold advance.
  destruct (run_gather_connection now st) as (Hs1 & Hv1 & _).
  destruct (run_orphans_connection now (run_gather now st)) as (Hs2 & Hv2).
  destruct (run_watchdog_frame now (run_orphans now (run_gather now st))) as [-> ->].
  split; congruence.
Qed.

Lemma advance_live now st : live (advance now st) = live st.
Proof.
  destruct (advance_frame now st) as [Hv Ho]. unfold live. rewrite Hv.
  destruct (session (advance now st)), (session st); done.
Qed.

Lemma handle_live now e st : live (handle now e st) = live st.
Proof.
  destruct (live st) eqn:Hlive; [|by unfold handle; rewrite Hlive].
  pose proof (handle_session now e st Hlive) as Hs.
  pose proof (handle_oscServer now e st) as Hv.
  apply live_iff in Hlive as (ss & sv & Hss & Hsv & Ho).
  apply live_iff. rewrite Hs, Hv, Hss. destruct e; simpl; eauto.
Qed.

(** Events that do not call [handleHeartbeat]: messages on any address but
    ['/heartbeat'], and transport errors. *)
Definition quiet (e : Event) : bool :=
  match e with
  | Listening => false
  | Message address _ => negb (String.eqb address "/heartbeat")
  | Error _ => true
  end.

Lemma handle_quiet now e st :
  live st = true → quiet e = true → watchdog (handle now e st) = watchdog st.
Proof.
  intros Hlive Hq. unfold watchdog. rewrite handle_session by done.
  destruct e as [|address args|message]; [done| |done].
  simpl in Hq. apply negb_true_iff in Hq.
  unfold heartbeat_session, once_session. rewrite Hq.
  destruct (session st) as [[c h o]|]; simpl; [|done].
  by destruct (String.eqb address "/global/isPlaying" && o).
Qed.

Lemma handle_heartbeat_watchdog now args st :
  live st = true →
  watchdog (handle now (Message "/heartbeat" args) st) = Some (now + HEARTBEAT_TIMEOUT).
Proof.
  intros Hlive. unfold watchdog. rewrite handle_session by done.
  apply live_iff in Hlive as (ss & _ & -> & _). done.
Qed.

Lemma step_quiet st at_ now e :
  live st = true → watchdog st = Some at_ → now < at_ → quiet e = true →
  live (step st (now, e)) = true ∧ watchdog (step st (now, e)) = Some at_.
Proof.
  intros Hlive Hw Hlt Hq. unfold step. simpl.
  rewrite handle_live, advance_live. split; [done|].
  rewrite handle_quiet by (by rewrite ?advance_live).
  destruct (advance_early now st at_ Hw Hlt) as [Hs _].
  unfold watchdog in *. by rewrite Hs.
Qed.

Lemma run_quiet events st at_ :
  live st = true → watchdog st = Some at_ →
  Forall (λ e : Z * Event, e.1 < at_ ∧ quiet e.2 = true) events →
  live (run events st) = true ∧ watchdog (run events st) = Some at_.
Proof.
  intros Hlive Hw Hall. revert st Hlive Hw. unfold run.
  induction Hall as [|[now e] rest [Hlt Hq] _ IH]; intros st Hlive Hw; simpl; [done|].
  destruct (step_quiet st at_ now e Hlive Hw Hlt Hq) as [Hlive' Hw'].
  by apply IH.
Qed.

(** C1, as the code has it. With the watchdog pending at [at_]: a message on
    ['/heartbeat'] delivered at [now] moves the watchdog to [now + 2500];
    a message on any other address leaves it at [at_]; and if only such
    messages (or transport errors) arrive before [at_], the connection is
    declared lost once the clock reaches [at_], with the status
    [Disconnected] and the message of the watchdog. *)
Theorem watchdog_rearmed_by_heartbeat_only st at_ :
  live st = true →
  watchdog st = Some at_ →
  (∀ now args,
     watchdog (step st (now, Message "/heartbeat" args)) = Some (now + 2500))
  ∧ (∀ now address args,
       now < at_ → address ≠ "/heartbeat" →
       watchdog (step st (now, Message address args)) = Some at_)
  ∧ (∀ events T,
       Forall (λ e : Z * Event, e.1 < at_ ∧ quiet e.2 = true) events →
       at_ ≤ T →
       status (advance T (run events st)) = Some (Disconnected, Some lostMessage)
       ∧ connected (advance T (run events st)) = Some false).
Proof.
  intros Hlive Hw. split_and!.
  - intros now args. unfold step. simpl.
    apply handle_heartbeat_watchdog. by rewrite advance_live.
  - intros now address args Hlt Hne.
    apply step_quiet; try done. simpl.
    apply negb_true_iff, String.eqb_neq, Hne.
  - intros events T Hall HT.
    destruct (run_quiet events st at_ Hlive Hw Hall) as [_ Hw'].
    destruct (advance_due T _ at_ Hw' HT) as (? & ? & _). done.
Qed.

Lemma on_heartbeat_effects now st :
  effects (on_heartbeat now st)
  = match session st with
    | Some ss => if isConnected ss then effects st
                 else effects st ++ [EUpdateStatus Ok None]
    | None => effects st
    end.
Proof.
  unfold on_heartbeat.
  destruct st as [? ? ? ? ? ? ? ? ? ? [[[] h o]|] ? ?]; done.
Qed.

Lemma dispatch_heartbeat now args st :
  dispatch now "/heartbeat" args st
  = on_heartbeat now (emit_to initOscListeners now "/heartbeat" args st).
Proof. reflexivity. Qed.

(** C2, as the code has it. Once the watchdog has expired (the status is
    [Disconnected], with its message), a message on ['/heartbeat'] sets the
    status to [Ok] and arms the watchdog again; the module does nothing
    else: no endpoint is constructed, nothing is sent. A message on any other
    address leaves the status [Disconnected] when the once-listener of
    ['/global/isPlaying'] has been used. *)
Theorem heartbeat_restores_connection st at_ T now args :
  live st = true →
  watchdog st = Some at_ →
  at_ ≤ T →
  let lost := advance T st in
  let back := handle now (Message "/heartbeat" args) lost in
  status lost = Some (Disconnected, Some lostMessage)
  ∧ status back = Some (Ok, None)
  ∧ connected back = Some true
  ∧ watchdog back = Some (now + 2500)
  ∧ effects back = effects lost ++ [EUpdateStatus Ok None]
  ∧ (∀ address args',
       address ≠ "/heartbeat" →
       oncePlaying <$> session st = Some false →
       status (handle now (Message address args') lost)
       = Some (Disconnected, Some lostMessage)).
Proof.
  intros Hlive Hw HT lost back.
  destruct (advance_due T st at_ Hw HT) as (Hstatus & Hconn & _ & _ & Honce).
  assert (live lost = true) as Hlost by (by unfold lost; rewrite advance_live).
  fold lost in Hstatus, Hconn, Honce.
  unfold connected in Hconn.
  destruct (session lost) as [[c h o]|] eqn:Hs; [|done].
  simpl in Hconn. injection Hconn as ->.
  split_and!; [done|..].
  - unfold back, handle. rewrite Hlost, dispatch_status, Hs. done.
  - unfold back, connected. rewrite handle_session, Hs by done. done.
  - by apply handle_heartbeat_watchdog.
  - unfold back, handle. rewrite Hlost, dispatch_heartbeat, on_heartbeat_effects.
    by rewrite mirror_session, mirror_effects, Hs.
  - intros address args' Hne Hused. unfold handle.
    rewrite Hlost, dispatch_status, Hs. simpl.
    apply String.eqb_neq in Hne. rewrite Hne.
    rewrite Hused in Honce. simpl in Honce. injection Honce as ->.
    by rewrite andb_false_r.
Qed.

(** The once-listener of ['/global/isPlaying'] has been used. *)
Definition once_used (st : ModuleInstance) : Prop :=
  live st = true ∧ oncePlaying <$> session st = Some false.

Lemma handle_once_used now e st : once_used st → once_used (handle now e st).
Proof.
  intros [Hlive Hused]. split; [by rewrite handle_live|].
  rewrite handle_session by done.
  destruct (session st) as [[c h o]|]; [|done].
  simpl in Hused. injection Hused as ->.
  destruct e as [|address args|message]; try done. simpl.
  unfold heartbeat_session, once_session. rewrite andb_false_r.
  by destruct (String.eqb address "/heartbeat").
Qed.

Lemma step_once_used st e : once_used st → once_used (step st e).
Proof.
  intros [Hlive Hused]. apply handle_once_used. split; [by rewrite advance_live|].
  by rewrite (proj2 (advance_frame _ _)).
Qed.

Lemma run_once_used events st : once_used st → once_used (run events st).
Proof.
  revert st. unfold run. induction events as [|e rest IH]; intros st Hst; simpl; [done|].
  by apply IH, step_once_used.
Qed.

Lemma first_isPlaying_uses_once now args st :
  live st = true → once_used (step st (now, Message "/global/isPlaying" args)).
Proof.
  intros Hlive. unfold step. simpl.
  assert (live (advance now st) = true) as Hlive' by (by rewrite advance_live).
  split; [by rewrite handle_live|].
  rewrite handle_session by done.
  apply live_iff in Hlive' as ([c h o] & _ & -> & _). simpl.
  unfold heartbeat_session, once_session. simpl. by destruct o.
Qed.

Lemma dispatch_isPlaying now args st :
  dispatch now "/global/isPlaying" args st
  = once_isPlaying (gather now [IsPlaying] (set1 "isPlaying" (boolean_of 0 args) st)).
Proof. reflexivity. Qed.

Lemma on_listening_status now st : status (on_listening now st) = status st.
Proof.
  unfold on_listening.
  destruct st as [? [?|] [?|] ? ? ? ? ? ? ? [?|] ? ?]; reflexivity.
Qed.

(** C9. After the first message on ['/global/isPlaying'] that the session
    receives, and whatever events follow: a message on that address sets the
    variable [isPlaying] and requests the re-check of [IsPlaying], and
    leaves the status, the [isConnected] flag, the watchdog and everything
    else as they are; and the only event that makes the status [Ok] again is
    a message on ['/heartbeat']. *)
Theorem isPlaying_confirms_once st t0 args0 events :
  live st = true →
  let confirmed := run events (step st (t0, Message "/global/isPlaying" args0)) in
  (∀ now args,
     let before := advance now confirmed in
     let after := handle now (Message "/global/isPlaying" args) before in
     after = gather now [IsPlaying]
               (set1 "isPlaying" (JS.Bool (JS.Boolean (arg 0 args))) before)
     ∧ status after = status before
     ∧ session after = session before
     ∧ effects after = effects before
     ∧ variableValues after
       = <["isPlaying" := JS.Bool (JS.Boolean (arg 0 args))]> (variableValues before))
  ∧ (∀ now e,
       let before := advance now confirmed in
       status before ≠ Some (Ok, None) →
       status (handle now e before) = Some (Ok, None) →
       ∃ args, e = Message "/heartbeat" args).
Proof.
  intros Hlive confirmed.
  assert (once_used confirmed) as Hused
    by (by apply run_once_used, first_isPlaying_uses_once).
  split.
  - intros now args before after.
    assert (once_used before) as [Hlive' Hu].
    { destruct Hused as [Hl Hu]. split; [by unfold before; rewrite advance_live|].
      unfold before. by rewrite (proj2 (advance_frame _ _)). }
    assert (after = gather now [IsPlaying]
               (set1 "isPlaying" (JS.Bool (JS.Boolean (arg 0 args))) before)) as ->.
    { unfold after, handle. rewrite Hlive', dispatch_isPlaying.
      unfold once_isPlaying.
      set (st1 := gather _ _ _).
      assert (session st1 = session before) as -> by (by destruct before).
      destruct (session before) as [[c h o]|]; [|done].
      simpl in Hu. by injection Hu as ->. }
    destruct before; done.
  - intros now e before Hnot Hok.
    assert (once_used before) as [Hlive' Hu].
    { destruct Hused as [Hl Hu]. split; [by unfold before; rewrite advance_live|].
      unfold before. by rewrite (proj2 (advance_frame _ _)). }
    unfold handle in Hok. rewrite Hlive' in Hok.
    destruct e as [|address args|message].
    + by rewrite on_listening_status in Hok.
    + rewrite dispatch_status in Hok.
      destruct (session before) as [[c h o]|]; [|done].
      simpl in Hu. injection Hu as ->. rewrite andb_false_r in Hok. simpl in Hok.
      destruct (String.eqb_spec address "/heartbeat") as [->|_]; [by eexists|].
      done.
    + destruct before; discriminate.
Qed.

End ConnectionFacts.

(** A session that is confirmed: the server is listening at 0 and the first
    message on ['/global/isPlaying'] arrives at 100. The watchdog is
    pending at 2500. *)
Definition confirmedExample : ModuleInstance :=
  run integerToString
      [(0, Listening); (100, Message "/global/isPlaying" [JS.Bool true])]
      (init returns returns localConfig new_ModuleInstance).

Lemma watchdog_rearmed_by_heartbeat_only_witness :
  (∀ now args,
     watchdog (step integerToString confirmedExample (now, Message "/heartbeat" args))
     = Some (now + 2500))
  ∧ (∀ now address args,
       now < 2500 → address ≠ "/heartbeat" →
       watchdog (step integerToString confirmedExample (now, Message address args))
       = Some 2500)
  ∧ (∀ events T,
       Forall (λ e : Z * Event, e.1 < 2500 ∧ quiet e.2 = true) events →
       2500 ≤ T →
       status (advance T (run integerToString events confirmedExample))
       = Some (Disconnected, Some lostMessage)
       ∧ connected (advance T (run integerToString events confirmedExample))
         = Some false).
Proof.
  apply (watchdog_rearmed_by_heartbeat_only integerToString confirmedExample 2500);
    vm_compute; reflexivity.
Defined.

(** C1 as stated fails: the session is confirmed, ['/global/tempo'] is one
    of the addresses [initOscListeners] registers, and a message on it at
    1000 does not move the watchdog to 3500: it stays at 2500, and at 2500
    the connection is declared lost. *)
Lemma tempo_does_not_rearm_watchdog :
  status confirmedExample = Some (Ok, None)
  ∧ "/global/tempo" ∈ (initOscListeners integerToString).*1
  ∧ let st := step integerToString confirmedExample
                (1000, Message "/global/tempo" [JS.Num (JS.of_Z 120)]) in
    getVariableValue "tempo" st = JS.Num (JS.of_Z 120)
    ∧ watchdog st ≠ Some (1000 + 2500)
    ∧ watchdog st = Some 2500
    ∧ status (advance 2500 st) = Some (Disconnected, Some lostMessage).
Proof.
  split; [vm_compute; reflexivity|].
  split; [apply list_elem_of_In; simpl; tauto|].
  intros st. split_and!; try (vm_compute; reflexivity).
  vm_compute. intros [=].
Qed.

Lemma heartbeat_restores_connection_witness :
  let lost := advance 2500 confirmedExample in
  let back := handle integerToString 3000 (Message "/heartbeat" []) lost in
  status lost = Some (Disconnected, Some lostMessage)
  ∧ status back = Some (Ok, None)
  ∧ connected back = Some true
  ∧ watchdog back = Some (3000 + 2500)
  ∧ effects back = effects lost ++ [EUpdateStatus Ok None]
  ∧ (∀ address args',
       address ≠ "/heartbeat" →
       oncePlaying <$> session confirmedExample = Some false →
       status (handle integerToString 3000 (Message address args') lost)
       = Some (Disconnected, Some lostMessage)).
Proof.
  apply (heartbeat_restores_connection integerToString confirmedExample 2500 2500 3000 []).
  - vm_compute; reflexivity.
  - vm_compute; reflexivity.
  - lia.
Defined.

(** C2 as stated fails: after the watchdog has expired at 2500, a message on
    ['/global/isPlaying'] (a recognised address, and the one that confirmed
    the session) sets the variable but leaves the status [Disconnected]. *)
Lemma isPlaying_does_not_restore_connection :
  let lost := advance 2500 confirmedExample in
  let after := handle integerToString 3000
                 (Message "/global/isPlaying" [JS.Bool false]) lost in
  status lost = Some (Disconnected, Some lostMessage)
  ∧ "/global/isPlaying" ∈ (initOscListeners integerToString).*1
  ∧ getVariableValue "isPlaying" lost = JS.Bool true
  ∧ getVariableValue "isPlaying" after = JS.Bool false
  ∧ status after ≠ Some (Ok, None)
  ∧ status after = Some (Disconnected, Some lostMessage).
Proof.
  intros lost after. split_and!; try (vm_compute; reflexivity).
  - apply list_elem_of_In. simpl. tauto.
  - vm_compute. intros [=].
Qed.

Lemma isPlaying_confirms_once_witness :
  let st := handle integerToString 0 Listening
              (init returns returns localConfig new_ModuleInstance) in
  let confirmed :=
    run integerToString [(2600, Message "/setlist/name" [JS.Str "Tour"])]
        (step integerToString st (100, Message "/global/isPlaying" [JS.Bool true])) in
  (∀ now args,
     let before := advance now confirmed in
     let after := handle integerToString now (Message "/global/isPlaying" args) before in
     after = gather now [IsPlaying]
               (set1 "isPlaying" (JS.Bool (JS.Boolean (arg 0 args))) before)
     ∧ status after = status before
     ∧ session after = session before
     ∧ effects after = effects before
     ∧ variableValues after
       = <["isPlaying" := JS.Bool (JS.Boolean (arg 0 args))]> (variableValues before))
  ∧ (∀ now e,
       let before := advance now confirmed in
       status before ≠ Some (Ok, None) →
       status (handle integerToString now e before) = Some (Ok, None) →
       ∃ args, e = Message "/heartbeat" args).
Proof.
  apply (isPlaying_confirms_once integerToString
           (handle integerToString 0 Listening
              (init returns returns localConfig new_ModuleInstance))
           100 [JS.Bool true] [(2600, Message "/setlist/name" [JS.Str "Tour"])]).
  vm_compute; reflexivity.
Defined.

(* ===================================================================== *)
(** ** Initialisation and re-initialisation *)
(* ===================================================================== *)

(** What the feedbacks and the host's variables read. *)
(** A closed membership or non-membership, by computation. *)
Ltac by_computation := apply (bool_decide_unpack _); vm_compute; exact I.

Definition mirrored (st : ModuleInstance) :=
  (songs st, sections st, variableValues st).

(** What [getVariableValue] returns for a variable that was given a value,
    and for a defined variable that was given none. *)
Lemma getVariableValue_set variableId v st :
  variableValues st !! variableId = Some v → getVariableValue variableId st = v.
Proof. unfold getVariableValue. by intros ->. Qed.

Lemma getVariableValue_never_set variableId st :
  variableId ∈ variableDefinitionList.*1 →
  variableValues st !! variableId = None →
  getVariableValue variableId st = JS.Str "".
Proof.
  unfold getVariableValue. intros Hdefined ->. by rewrite bool_decide_eq_true_2.
Qed.

Lemma feedback_callback_mirrored f options st st' :
  mirrored st' = mirrored st →
  feedback_callback f options st' = feedback_callback f options st.
Proof.
  unfold mirrored. intros [= Hsongs Hsections Hvalues].
  destruct f; unfold feedback_callback, isInActiveLoop, getVariableValue;
    by rewrite ?Hsongs, ?Hsections, ?Hvalues.
Qed.

Section InitFacts.
Variable new_Server : JS.number → string → option string.
Variable new_Client : string → JS.number → option string.

Abbreviation init := (init new_Server new_Client).
Abbreviation init_try := (init_try new_Server new_Client).
Abbreviation configUpdated := (configUpdated new_Server new_Client).

Lemma supersede_mirrored st : mirrored (supersede st) = mirrored st.
Proof.
  unfold supersede. destruct st as [? ? ? ? ? ? ? ? ? ? [[c [[at_|]] o]|] ? ?]; done.
Qed.

Lemma init_try_mirrored cfg st : mirrored (init_try cfg st) = mirrored st.
Proof.
  unfold init_try, init_catch.
  destruct (JS.isNaN _); [by destruct st|].
  destruct (new_Server _ _); [by destruct st|].
  destruct (new_Client _ _).
  - rewrite <- (supersede_mirrored st). by destruct (supersede st).
  - rewrite <- (supersede_mirrored st). by destruct (supersede st).
Qed.

Lemma supersede_config st : config (supersede st) = config st.
Proof.
  unfold supersede. destruct st as [? ? ? ? ? ? ? ? ? ? [[c [[at_|]] o]|] ? ?]; done.
Qed.

Lemma init_try_session cfg st :
  config st = cfg →
  JS.isNaN (JS.Number (JS.Str (clientPort cfg))) = false →
  new_Server (JS.Number (JS.Str (clientPort cfg))) (clientHost cfg) = None →
  new_Client (serverHost cfg) (JS.of_Z 39051) = None →
  session (init_try cfg st) = Some fresh_session.
Proof.
  intros Hcfg Hport HS HC. unfold init_try. rewrite Hcfg, Hport, HS.
  pose proof (supersede_config st) as Hsup. rewrite Hcfg in Hsup.
  destruct (supersede st); simpl in *; subst. by rewrite HC.
Qed.

Lemma init_mirrored cfg st : mirrored (init cfg st) = mirrored st.
Proof.
  unfold init. destruct (remote_without_client_host cfg); [by destruct st|].
  transitivity (mirrored (init_try cfg (updateStatus Connecting None (set_config cfg st)))).
  - by destruct (init_try cfg _).
  - rewrite init_try_mirrored. by destruct st.
Qed.

Lemma destroy_mirrored st : mirrored (destroy st).1 = mirrored st.
Proof.
  unfold destroy, sendOsc. destruct st as [? [?|] [?|] ? ? ? ? ? ? ? ? ? ?]; done.
Qed.

Lemma configUpdated_mirrored cfg st : mirrored (configUpdated cfg st) = mirrored st.
Proof.
  unfold configUpdated.
  pose proof (destroy_mirrored (set_config cfg st)) as Hd.
  destruct (destroy (set_config cfg st)) as [st' []]; simpl in Hd.
  - rewrite init_mirrored, Hd. by destruct st.
  - rewrite Hd. by destruct st.
Qed.

(** C4, as the code has it. When AbleSet is remote and the client host is
    missing or a loopback address, [init] reports [BadConfig] with its
    message and does nothing else. Otherwise, when the client port does not
    convert to a number, [init] reports [Connecting] and then, through its
    [catch] clause, [ConnectionFailure] with the message naming the port; no
    endpoint is constructed, the endpoints and listeners stay as they were,
    and nothing else is attempted. *)
Theorem init_configuration_errors cfg st :
  (remote_without_client_host cfg = true →
     status (init cfg st) = Some (BadConfig, Some badHostMessage)
     ∧ effects (init cfg st) = effects st ++ [EUpdateStatus BadConfig (Some badHostMessage)]
     ∧ oscServer (init cfg st) = oscServer st
     ∧ oscClient (init cfg st) = oscClient st
     ∧ session (init cfg st) = session st)
  ∧ (remote_without_client_host cfg = false →
     JS.isNaN (JS.Number (JS.Str (clientPort cfg))) = true →
     let message := "Client port is not valid: " +:+ clientPort cfg in
     status (init cfg st) = Some (ConnectionFailure, Some message)
     ∧ effects (init cfg st)
       = effects st ++ [EUpdateStatus Connecting None;
                        EUpdateStatus ConnectionFailure (Some message)]
     ∧ oscServer (init cfg st) = oscServer st
     ∧ oscClient (init cfg st) = oscClient st
     ∧ session (init cfg st) = session st).
Proof.
  split.
  - intros Hhost. unfold init. rewrite Hhost. by destruct st.
  - intros Hhost Hport message. unfold init, init_try. rewrite Hhost.
    assert (config (updateStatus Connecting None (set_config cfg st)) = cfg) as ->
      by (by destruct st).
    rewrite Hport. destruct st; simpl. by rewrite <- app_assoc.
Qed.

(** C5, as the code has it. [configUpdated] leaves the mirrored state as the
    previous session left it: the songs and sections lists and the variable
    values are the same, and so is the result of every feedback. What it
    re-creates, when the endpoints can be constructed, is the connection
    state: the [isConnected] flag, the watchdog and the once-listener. *)
Theorem configUpdated_keeps_mirrored_state cfg st :
  songs (configUpdated cfg st) = songs st
  ∧ sections (configUpdated cfg st) = sections st
  ∧ variableValues (configUpdated cfg st) = variableValues st
  ∧ (∀ f options,
       feedback_callback f options (configUpdated cfg st) = feedback_callback f options st)
  ∧ (is_Some (oscClient st) → is_Some (oscServer st) →
     remote_without_client_host cfg = false →
     JS.isNaN (JS.Number (JS.Str (clientPort cfg))) = false →
     new_Server (JS.Number (JS.Str (clientPort cfg))) (clientHost cfg) = None →
     new_Client (serverHost cfg) (JS.of_Z 39051) = None →
     session (configUpdated cfg st) = Some fresh_session).
Proof.
  pose proof (configUpdated_mirrored cfg st) as Hm.
  split_and!; try (unfold mirrored in Hm; congruence).
  - intros f options. by apply feedback_callback_mirrored.
  - intros [c Hc] [s Hs] Hhost Hport HS HC.
    unfold configUpdated, destroy, sendOsc.
    destruct st as [? ? ? ? ? ? ? ? ? ? ? ? ?]; simpl in *; subst; simpl.
    unfold init. rewrite Hhost.
    set (st1 := updateStatus Connecting None _).
    transitivity (session (init_try cfg st1)); [by destruct (init_try cfg st1)|].
    by apply init_try_session.
Qed.

End InitFacts.

(** C4 as stated fails: with the client port ["abc"], which does not convert
    to a number, [init] constructs no endpoint, and the status it reports is
    [ConnectionFailure], not [BadConfig]. *)
Lemma invalid_port_reports_connection_failure :
  let cfg := {| clientHost := "127.0.0.1"; clientPort := "abc";
                serverHost := "127.0.0.1" |} in
  let st := init returns returns cfg new_ModuleInstance in
  JS.Number (JS.Str (clientPort cfg)) = JS.NaN
  ∧ status st = Some (ConnectionFailure, Some "Client port is not valid: abc")
  ∧ fst <$> status st ≠ Some BadConfig
  ∧ effects st = [EUpdateStatus Connecting None;
                  EUpdateStatus ConnectionFailure (Some "Client port is not valid: abc")].
Proof.
  intros cfg st. split_and!; try (vm_compute; reflexivity).
  vm_compute. intros [=].
Qed.

(** C5 as stated fails: the songs received in one session are still read
    after [configUpdated], by [CanJumpToNextSong] for one. *)
Lemma songs_survive_configUpdated :
  let before :=
    run integerToString
        [(200, Message "/setlist/songs" [JS.Str "A"; JS.Str "B"; JS.Str "C"]);
         (210, Message "/setlist/activeSongIndex" [JS.Num (JS.of_Z 0)])]
        confirmedExample in
  let after := configUpdated returns returns localConfig before in
  session after = Some fresh_session
  ∧ songs after = [JS.Str "A"; JS.Str "B"; JS.Str "C"]
  ∧ songs after ≠ songs new_ModuleInstance
  ∧ feedback_callback CanJumpToNextSong ∅ after = true.
Proof.
  intros before after. split_and!; try (vm_compute; reflexivity).
  vm_compute. intros [=].
Qed.

(* ===================================================================== *)
(** ** The feedbacks *)
(* ===================================================================== *)

Lemma Qltb_lt a b : JS.Qltb a b = true ↔ (a < b)%Q.
Proof.
  unfold JS.Qltb. rewrite negb_true_iff. split.
  - intros Hb. apply Qnot_le_lt. intros Hle. apply Qle_bool_iff in Hle. congruence.
  - intros Hlt. destruct (Qle_bool b a) eqn:Hb; [|done].
    apply Qle_bool_iff in Hb. by apply Qlt_not_le in Hlt.
Qed.

Lemma ltb_lt x (m : Z) :
  JS.ltb x (JS.sub (JS.of_Z m) (JS.of_Z 1)) = true
  ↔ x = JS.Infinity true ∨ ∃ q, x = JS.Fin q ∧ (q < inject_Z (m - 1))%Q.
Proof.
  assert (inject_Z m - inject_Z 1 == inject_Z (m - 1))%Q as Heq.
  { unfold Qeq, Qminus, Qplus, Qopp, inject_Z. simpl. lia. }
  destruct x as [|[]|q]; simpl.
  - split; [done|]. intros [?|(? & ? & ?)]; done.
  - split; [by left | done].
  - split; [done|]. intros [?|(? & ? & ?)]; done.
  - rewrite Qltb_lt, Heq. split.
    + intros Hq. right. by exists q.
    + intros [?|(q' & [= <-] & Hq)]; done.
Qed.

Lemma inject_Z_lt (i m : Z) : (inject_Z i < inject_Z m)%Q ↔ i < m.
Proof. unfold Qlt, inject_Z. simpl. lia. Qed.

(** C6, as the code has it. [CanJumpToNextSong] is [true] exactly when the
    active song index, converted to a number, is below the number of songs
    minus one. For an integer index [i] and [n] songs that is [i < n - 1]: so
    it is [false] at the last song, [false] when the index is at or past the
    number of songs, and [false] for an empty list and an index from -1 on.
    An index that was never set reads as the empty string, which counts
    as 0: the feedback is then [true] exactly when there are at least two
    songs. A value [undefined] would give [false]. *)
Theorem CanJumpToNextSong_iff (options : gmap string JS.value) st :
  let index := JS.Number (getVariableValue "activeSongIndex" st) in
  let n := Z.of_nat (length (songs st)) in
  let can := feedback_callback CanJumpToNextSong options st in
  (can = true ↔ index = JS.Infinity true ∨ ∃ q, index = JS.Fin q ∧ (q < inject_Z (n - 1))%Q)
  ∧ (∀ i : Z, index = JS.of_Z i →
       (can = true ↔ i < n - 1)
       ∧ (i = n - 1 → can = false)
       ∧ (n ≤ i → can = false)
       ∧ (n = 0 → -1 ≤ i → can = false))
  ∧ (getVariableValue "activeSongIndex" st = JS.Undefined → can = false)
  ∧ (getVariableValue "activeSongIndex" st = JS.Str "" → (can = true ↔ 1 < n))
  ∧ (variableValues st !! "activeSongIndex" = None → (can = true ↔ 1 < n)).
Proof.
  intros index n can.
  assert (can = true ↔ index = JS.Infinity true
                       ∨ ∃ q, index = JS.Fin q ∧ (q < inject_Z (n - 1))%Q) as Hcan
    by apply ltb_lt.
  assert (∀ i : Z, index = JS.of_Z i → (can = true ↔ i < n - 1)) as Hint.
  { intros i Hi. rewrite Hcan, Hi. unfold JS.of_Z. split.
    - intros [?|(q & [= <-] & Hq)]; [done|]. by apply inject_Z_lt.
    - intros Hlt. right. eexists. split; [done|]. by apply inject_Z_lt. }
  assert (getVariableValue "activeSongIndex" st = JS.Str "" → (can = true ↔ 1 < n))
    as Hempty.
  { intros Hu. rewrite (Hint 0); [lia|]. unfold index. by rewrite Hu. }
  split_and!; [done| | |done|].
  - intros i Hi. specialize (Hint i Hi).
    split_and!; [done|..]; intros; apply not_true_is_false; rewrite Hint; lia.
  - intros Hu. apply not_true_is_false. rewrite Hcan. unfold index. rewrite Hu.
    intros [?|(? & ? & ?)]; done.
  - intros Hnone. apply Hempty, getVariableValue_never_set; [by_computation | done].
Qed.

(** C6 as stated fails: with three songs, the index 5 is neither the last
    one nor is the list empty, and [CanJumpToNextSong] is [false]. *)
Lemma CanJumpToNextSong_false_past_the_end :
  let past :=
    run integerToString
        [(200, Message "/setlist/songs" [JS.Str "A"; JS.Str "B"; JS.Str "C"]);
         (210, Message "/setlist/activeSongIndex" [JS.Num (JS.of_Z 5)])]
        confirmedExample in
  songs past ≠ []
  ∧ getVariableValue "activeSongIndex" past = JS.Num (JS.of_Z 5)
  ∧ 5 ≠ Z.of_nat (length (songs past)) - 1
  ∧ feedback_callback CanJumpToNextSong ∅ past = false.
Proof.
  intros past.
  split_and!; try (vm_compute; reflexivity); vm_compute; intros [=].
Qed.

Lemma eqb_number x (n : Q) :
  JS.eqb x (JS.sub (JS.Fin n) (JS.of_Z 1)) = true
  ↔ ∃ q, x = JS.Fin q ∧ (q == n - 1)%Q.
Proof.
  destruct x as [|b|q]; simpl.
  - split; [done|]. intros (? & ? & ?); done.
  - split; [done|]. intros (? & ? & ?); done.
  - rewrite Qeq_bool_iff. split.
    + intros Hq. by exists q.
    + intros (q' & [= <-] & Hq). done.
Qed.

Lemma strict_eq_empty v : JS.strict_eq v (JS.Str "") = true ↔ v = JS.Str "".
Proof.
  destruct v as [|b|x|s]; simpl; try (split; done).
  rewrite String.eqb_eq. split; congruence.
Qed.

Lemma queued_iff v (n : Q) :
  negb (JS.strict_eq v (JS.Str "")) &&
  JS.eqb (JS.Number v) (JS.sub (JS.Fin n) (JS.of_Z 1)) = true
  ↔ v ≠ JS.Str "" ∧ ∃ q, JS.Number v = JS.Fin q ∧ (q == n - 1)%Q.
Proof.
  rewrite andb_true_iff, negb_true_iff, eqb_number.
  split; intros [Hv Hq]; (split; [|done]).
  - intros Hs. apply strict_eq_empty in Hs. congruence.
  - apply not_true_is_false. by rewrite strict_eq_empty.
Qed.

(** C7. For every store and every number [n] of the range the option
    [songNumber] declares, [min: 1] to [max: 100] (where the subtraction
    [n - 1] of the runtime is exact), [IsQueuedSong] is [true] exactly when
    the stored queued song index is not the empty string and, converted to
    a number, equals [n - 1]. An index that was never set reads as the
    empty string: the callback returns [false] then, as it does for a value
    [undefined]. The same holds of [IsQueuedSection] with [sectionNumber]
    and the queued section index. *)
Theorem IsQueued_iff (options : gmap string JS.value) st (n : Q) :
  (1 <= n)%Q → (n <= 100)%Q →
  let queuedSong := getVariableValue "queuedSongIndex" st in
  let queuedSection := getVariableValue "queuedSectionIndex" st in
  let isQueuedSong :=
    feedback_callback IsQueuedSong (<["songNumber" := JS.Num (JS.Fin n)]> options) st in
  let isQueuedSection :=
    feedback_callback IsQueuedSection (<["sectionNumber" := JS.Num (JS.Fin n)]> options) st in
  (isQueuedSong = true
   ↔ queuedSong ≠ JS.Str "" ∧ ∃ q, JS.Number queuedSong = JS.Fin q ∧ (q == n - 1)%Q)
  ∧ (queuedSong = JS.Str "" ∨ queuedSong = JS.Undefined → isQueuedSong = false)
  ∧ (variableValues st !! "queuedSongIndex" = None → isQueuedSong = false)
  ∧ (isQueuedSection = true
     ↔ queuedSection ≠ JS.Str "" ∧ ∃ q, JS.Number queuedSection = JS.Fin q ∧ (q == n - 1)%Q)
  ∧ (queuedSection = JS.Str "" ∨ queuedSection = JS.Undefined → isQueuedSection = false)
  ∧ (variableValues st !! "queuedSectionIndex" = None → isQueuedSection = false).
Proof.
  intros _ _ queuedSong queuedSection isQueuedSong isQueuedSection.
  assert (isQueuedSong = true
          ↔ queuedSong ≠ JS.Str "" ∧ ∃ q, JS.Number queuedSong = JS.Fin q ∧ (q == n - 1)%Q)
    as Hsong.
  { unfold isQueuedSong, feedback_callback, option_value.
    rewrite lookup_insert_eq. apply queued_iff. }
  assert (isQueuedSection = true
          ↔ queuedSection ≠ JS.Str ""
            ∧ ∃ q, JS.Number queuedSection = JS.Fin q ∧ (q == n - 1)%Q)
    as Hsection.
  { unfold isQueuedSection, feedback_callback, option_value.
    rewrite lookup_insert_eq. apply queued_iff. }
  assert (queuedSong = JS.Str "" ∨ queuedSong = JS.Undefined → isQueuedSong = false)
    as Hunknown.
  { intros Hu. apply not_true_is_false. rewrite Hsong.
    intros [Hne (q & Hq & _)]. destruct Hu as [Hu|Hu]; [done|]. by rewrite Hu in Hq. }
  assert (queuedSection = JS.Str "" ∨ queuedSection = JS.Undefined
          → isQueuedSection = false) as Hunknown'.
  { intros Hu. apply not_true_is_false. rewrite Hsection.
    intros [Hne (q & Hq & _)]. destruct Hu as [Hu|Hu]; [done|]. by rewrite Hu in Hq. }
  split_and!; [done|done| |done|done|].
  - intros Hnone. apply Hunknown. left.
    apply getVariableValue_never_set; [by_computation | done].
  - intros Hnone. apply Hunknown'. left.
    apply getVariableValue_never_set; [by_computation | done].
Qed.

(** The third song and the first section are queued, and [n] is 3. *)
Lemma IsQueued_iff_witness :
  let st :=
    run integerToString
        [(200, Message "/setlist/queuedIndex" [JS.Num (JS.of_Z 2); JS.Num (JS.of_Z 0)])]
        confirmedExample in
  let n := inject_Z 3 in
  let queuedSong := getVariableValue "queuedSongIndex" st in
  let queuedSection := getVariableValue "queuedSectionIndex" st in
  let isQueuedSong :=
    feedback_callback IsQueuedSong (<["songNumber" := JS.Num (JS.Fin n)]> ∅) st in
  let isQueuedSection :=
    feedback_callback IsQueuedSection (<["sectionNumber" := JS.Num (JS.Fin n)]> ∅) st in
  (isQueuedSong = true
   ↔ queuedSong ≠ JS.Str "" ∧ ∃ q, JS.Number queuedSong = JS.Fin q ∧ (q == n - 1)%Q)
  ∧ (queuedSong = JS.Str "" ∨ queuedSong = JS.Undefined → isQueuedSong = false)
  ∧ (variableValues st !! "queuedSongIndex" = None → isQueuedSong = false)
  ∧ (isQueuedSection = true
     ↔ queuedSection ≠ JS.Str "" ∧ ∃ q, JS.Number queuedSection = JS.Fin q ∧ (q == n - 1)%Q)
  ∧ (queuedSection = JS.Str "" ∨ queuedSection = JS.Undefined → isQueuedSection = false)
  ∧ (variableValues st !! "queuedSectionIndex" = None → isQueuedSection = false).
Proof.
  intros st n.
  apply (IsQueued_iff ∅ st n); vm_compute; discriminate.
Defined.

(** The queued song of the example above lights the feedback of song 3 and
    of no other song; before any index is received no song is queued. *)
Example queued_song_example :
  let st :=
    run integerToString
        [(200, Message "/setlist/queuedIndex" [JS.Num (JS.of_Z 2); JS.Num (JS.of_Z 0)])]
        confirmedExample in
  feedback_callback IsQueuedSong {["songNumber" := JS.Num (JS.of_Z 3)]} st = true
  ∧ feedback_callback IsQueuedSong {["songNumber" := JS.Num (JS.of_Z 2)]} st = false
  ∧ getVariableValue "queuedSongIndex" confirmedExample = JS.Str ""
  ∧ feedback_callback IsQueuedSong {["songNumber" := JS.Num (JS.of_Z 1)]}
                      confirmedExample = false.
Proof. vm_compute. done. Qed.

(* ===================================================================== *)
(** ** The song and section lists *)
(* ===================================================================== *)

Lemma append_cons a s t : String a s +:+ t = String a (s +:+ t).
Proof. reflexivity. Qed.

Lemma length_append s t :
  String.length (s +:+ t) = (String.length s + String.length t)%nat.
Proof. induction s as [|a s IH]; [done|]. rewrite append_cons. simpl. by rewrite IH. Qed.

Lemma append_inj_r s1 s2 t : s1 +:+ t = s2 +:+ t → s1 = s2.
Proof.
  revert s2. induction s1 as [|a s1 IH]; intros [|b s2] Heq; [done| | |].
  - apply (f_equal String.length) in Heq.
    rewrite !length_append in Heq. simpl in Heq. lia.
  - apply (f_equal String.length) in Heq.
    rewrite !length_append in Heq. simpl in Heq. lia.
  - rewrite !append_cons in Heq. injection Heq as -> Heq. f_equal. by apply IH.
Qed.

Lemma prefix_append p s : String.prefix p (p +:+ s) = true.
Proof.
  induction p as [|a p IH]; [by destruct s|].
  rewrite append_cons. simpl. by destruct (ascii_dec a a).
Qed.

(** A name that begins with [p] is none of the names of a list in which no
    name begins with [p]. *)
Lemma prefix_not_elem_of p s (names : list string) :
  forallb (λ x, negb (String.prefix p x)) names = true → p +:+ s ∉ names.
Proof.
  intros Hall Hin. apply list_elem_of_In in Hin.
  rewrite forallb_forall in Hall. specialize (Hall _ Hin).
  by rewrite prefix_append in Hall.
Qed.

Global Instance indexedName_inj prefix : Inj (=) (=) (indexedName prefix).
Proof.
  intros i j Heq. unfold indexedName in Heq.
  apply String.app_inj, append_inj_r, pretty_nat_inj in Heq. lia.
Qed.

Global Instance indexedKey_inj prefix : Inj (=) (=) (λ i : nat, prefix +:+ pretty (i + 1)%nat).
Proof. intros i j Heq. apply String.app_inj, pretty_nat_inj in Heq. lia. Qed.

Section SetVariableValues.
Implicit Types (values : list (string * JS.value)) (m : gmap string JS.value).

Lemma lookup_foldl_insert_notin values m k :
  k ∉ values.*1 →
  foldl (λ m kv, <[kv.1 := kv.2]> m) m values !! k = m !! k.
Proof.
  revert m. induction values as [|[k' v'] rest IH]; intros m Hk; simpl; [done|].
  rewrite fmap_cons, not_elem_of_cons in Hk. destruct Hk as [Hne Hk].
  rewrite IH by done. by rewrite lookup_insert_ne.
Qed.

Lemma lookup_foldl_insert values m k v :
  NoDup values.*1 → (k, v) ∈ values →
  foldl (λ m kv, <[kv.1 := kv.2]> m) m values !! k = Some v.
Proof.
  revert m. induction values as [|[k' v'] rest IH]; intros m Hnd Hin; simpl.
  - by apply elem_of_nil in Hin.
  - rewrite fmap_cons in Hnd. apply NoDup_cons in Hnd as [Hk' Hnd].
    apply elem_of_cons in Hin as [[= <- <-]|Hin].
    + rewrite lookup_foldl_insert_notin by done. apply lookup_insert_eq.
    + by apply IH.
Qed.

End SetVariableValues.

Section ListFacts.
Variable NumberToString : JS.number → string.

Abbreviation ToString := (ToString NumberToString).
Abbreviation indexedNames := (indexedNames NumberToString).
Abbreviation handle := (handle NumberToString).
Abbreviation dispatch := (dispatch NumberToString).

(** [String(items[i] ?? '')] *)
Definition displayName (items : list JS.value) (i : nat) : string :=
  ToString (JS.nullish (arg i items) (JS.Str "")).

Lemma displayName_beyond items i : (length items ≤ i)%nat → displayName items i = "".
Proof.
  intros Hle. unfold displayName, arg. by rewrite lookup_ge_None_2.
Qed.

Lemma displayName_entry items i s : items !! i = Some (JS.Str s) → displayName items i = s.
Proof. intros Hi. unfold displayName, arg. by rewrite Hi. Qed.

Lemma indexedNames_keys prefix items :
  (indexedNames prefix items).*1 = indexedName prefix <$> seq 0 PRESET_COUNT.
Proof.
  unfold indexedNames, makeRange. rewrite <- list_fmap_compose. done.
Qed.

(** The variables after [setVariableValues] of the per-index names: the
    first [PRESET_COUNT] hold the display names, the others are as before. *)
Lemma indexedNames_values prefix items st i :
  let st' := setVariableValues (indexedNames prefix items) st in
  ((i < PRESET_COUNT)%nat →
     getVariableValue (indexedName prefix i) st' = JS.Str (displayName items i))
  ∧ ((PRESET_COUNT ≤ i)%nat →
     variableValues st' !! indexedName prefix i = variableValues st !! indexedName prefix i).
Proof.
  intros st'.
  assert (variableValues st'
          = foldl (λ m kv, <[kv.1 := kv.2]> m) (variableValues st) (indexedNames prefix items))
    as Hvalues by (by destruct st).
  split; intros Hi.
  - unfold getVariableValue. rewrite Hvalues.
    rewrite (lookup_foldl_insert _ _ _ (JS.Str (displayName items i))); [done| |].
    + rewrite indexedNames_keys. apply (NoDup_fmap_2 _), NoDup_seq.
    + apply list_elem_of_fmap. exists i. split; [done|]. apply elem_of_seq. lia.
  - rewrite Hvalues. apply lookup_foldl_insert_notin.
    rewrite indexedNames_keys. intros (j & Heq & Hj)%list_elem_of_fmap.
    apply (inj _) in Heq as <-. apply elem_of_seq in Hj. lia.
Qed.

Lemma dispatch_songs now items st :
  dispatch now "/setlist/songs" items st
  = gather now [CanJumpToNextSong; CanJumpToPreviousSong]
      (setVariableValues (indexedNames "song" items) (set_songs items st)).
Proof. reflexivity. Qed.

Lemma dispatch_sections now items st :
  dispatch now "/setlist/sections" items st
  = gather now [CanJumpToNextSection; CanJumpToPreviousSection]
      (setVariableValues (indexedNames "section" items) (set_sections items st)).
Proof. reflexivity. Qed.

Lemma gather_mirrored now types st : mirrored (gather now types st) = mirrored st.
Proof. by destruct st. Qed.

(** What a message on ['/setlist/songs'] or ['/setlist/sections'] leaves in
    the list and in the variable of index [i]. *)
Lemma songs_update st now items i :
  live st = true →
  let updated := handle now (Message "/setlist/songs" items) st in
  songs updated = items
  ∧ ((i < PRESET_COUNT)%nat →
     getVariableValue (indexedName "song" i) updated = JS.Str (displayName items i))
  ∧ ((PRESET_COUNT ≤ i)%nat →
     variableValues updated !! indexedName "song" i
     = variableValues st !! indexedName "song" i).
Proof.
  intros Hlive updated. unfold updated, handle. rewrite Hlive, dispatch_songs.
  destruct (indexedNames_values "song" items (set_songs items st) i) as [Hlt Hge].
  split_and!.
  - by destruct st.
  - intros Hi. rewrite <- (Hlt Hi). unfold getVariableValue. f_equal.
    by destruct (setVariableValues _ _).
  - intros Hi.
    transitivity (variableValues (set_songs items st) !! indexedName "song" i);
      [|by destruct st].
    rewrite <- (Hge Hi). by destruct (setVariableValues _ _).
Qed.

Lemma sections_update st now items i :
  live st = true →
  let updated := handle now (Message "/setlist/sections" items) st in
  sections updated = items
  ∧ ((i < PRESET_COUNT)%nat →
     getVariableValue (indexedName "section" i) updated = JS.Str (displayName items i))
  ∧ ((PRESET_COUNT ≤ i)%nat →
     variableValues updated !! indexedName "section" i
     = variableValues st !! indexedName "section" i).
Proof.
  intros Hlive updated. unfold updated, handle. rewrite Hlive, dispatch_sections.
  destruct (indexedNames_values "section" items (set_sections items st) i) as [Hlt Hge].
  split_and!.
  - by destruct st.
  - intros Hi. rewrite <- (Hlt Hi). unfold getVariableValue. f_equal.
    by destruct (setVariableValues _ _).
  - intros Hi.
    transitivity (variableValues (set_sections items st) !! indexedName "section" i);
      [|by destruct st].
    rewrite <- (Hge Hi). by destruct (setVariableValues _ _).
Qed.

(** The variables such a message leaves alone: all but the [PRESET_COUNT]
    names. *)
Lemma songs_update_others st now items k :
  live st = true →
  k ∉ indexedName "song" <$> seq 0 PRESET_COUNT →
  variableValues (handle now (Message "/setlist/songs" items) st) !! k
  = variableValues st !! k.
Proof.
  intros Hlive Hk. unfold handle. rewrite Hlive, dispatch_songs.
  transitivity (foldl (λ m kv, <[kv.1 := kv.2]> m) (variableValues st)
                      (indexedNames "song" items) !! k); [by destruct st|].
  apply lookup_foldl_insert_notin. by rewrite indexedNames_keys.
Qed.

Lemma sections_update_others st now items k :
  live st = true →
  k ∉ indexedName "section" <$> seq 0 PRESET_COUNT →
  variableValues (handle now (Message "/setlist/sections" items) st) !! k
  = variableValues st !! k.
Proof.
  intros Hlive Hk. unfold handle. rewrite Hlive, dispatch_sections.
  transitivity (foldl (λ m kv, <[kv.1 := kv.2]> m) (variableValues st)
                      (indexedNames "section" items) !! k); [by destruct st|].
  apply lookup_foldl_insert_notin. by rewrite indexedNames_keys.
Qed.

(** C8. A message on ['/setlist/songs'] makes its arguments the stored list,
    whatever the list was before, and sets the display name of every song
    [1..32] from the new list alone: the entry at that index (a string
    entry is the name as it is), and the empty string from the length of
    the new list on, whatever the variable held before. The same holds of
    ['/setlist/sections']. *)
Theorem list_update_replaces_wholesale st now items :
  live st = true →
  let songsUpdated := handle now (Message "/setlist/songs" items) st in
  let sectionsUpdated := handle now (Message "/setlist/sections" items) st in
  songs songsUpdated = items
  ∧ (∀ i s, (i < PRESET_COUNT)%nat → items !! i = Some (JS.Str s) →
       getVariableValue (indexedName "song" i) songsUpdated = JS.Str s)
  ∧ (∀ i, (i < PRESET_COUNT)%nat →
       getVariableValue (indexedName "song" i) songsUpdated
       = JS.Str (ToString (JS.nullish (arg i items) (JS.Str ""))))
  ∧ (∀ i, (length items ≤ i < PRESET_COUNT)%nat →
       getVariableValue (indexedName "song" i) songsUpdated = JS.Str "")
  ∧ sections sectionsUpdated = items
  ∧ (∀ i s, (i < PRESET_COUNT)%nat → items !! i = Some (JS.Str s) →
       getVariableValue (indexedName "section" i) sectionsUpdated = JS.Str s)
  ∧ (∀ i, (i < PRESET_COUNT)%nat →
       getVariableValue (indexedName "section" i) sectionsUpdated
       = JS.Str (ToString (JS.nullish (arg i items) (JS.Str ""))))
  ∧ (∀ i, (length items ≤ i < PRESET_COUNT)%nat →
       getVariableValue (indexedName "section" i) sectionsUpdated = JS.Str "").
Proof.
  intros Hlive songsUpdated sectionsUpdated. subst songsUpdated sectionsUpdated.
  split_and!.
  - apply (songs_update st now items 0 Hlive).
  - intros i s Hi Hentry.
    destruct (songs_update st now items i Hlive) as (_ & Hname & _).
    rewrite Hname by done. by rewrite (displayName_entry items i s).
  - intros i. apply (songs_update st now items i Hlive).
  - intros i [Hlen Hi].
    destruct (songs_update st now items i Hlive) as (_ & Hname & _).
    rewrite Hname by done. by rewrite displayName_beyond.
  - apply (sections_update st now items 0 Hlive).
  - intros i s Hi Hentry.
    destruct (sections_update st now items i Hlive) as (_ & Hname & _).
    rewrite Hname by done. by rewrite (displayName_entry items i s).
  - intros i. apply (sections_update st now items i Hlive).
  - intros i [Hlen Hi].
    destruct (sections_update st now items i Hlive) as (_ & Hname & _).
    rewrite Hname by done. by rewrite displayName_beyond.
Qed.

(** The variable definitions name [song${i + 1}Name] exactly for [i < 32]. *)
Lemma song_definition i :
  indexedName "song" i ∈ variableDefinitionList.*1 ↔ (i < PRESET_COUNT)%nat.
Proof.
  unfold variableDefinitionList.
  rewrite !fmap_app, !elem_of_app, <- !list_fmap_compose. split.
  - intros [Hin|[Hin|[Hin|Hin]]].
    + by apply (prefix_not_elem_of "song") in Hin.
    + apply list_elem_of_fmap in Hin as (j & Heq & Hj). simpl in Heq.
      apply (inj _) in Heq as <-. apply elem_of_seq in Hj. lia.
    + by apply (prefix_not_elem_of "song") in Hin.
    + by apply (prefix_not_elem_of "song") in Hin.
  - intros Hi. right. left. apply list_elem_of_fmap. exists i.
    split; [done|]. apply elem_of_seq. lia.
Qed.

Lemma section_definition i :
  indexedName "section" i ∈ variableDefinitionList.*1 ↔ (i < PRESET_COUNT)%nat.
Proof.
  unfold variableDefinitionList.
  rewrite !fmap_app, !elem_of_app, <- !list_fmap_compose. split.
  - intros [Hin|[Hin|[Hin|Hin]]].
    + by apply (prefix_not_elem_of "section") in Hin.
    + by apply (prefix_not_elem_of "section") in Hin.
    + apply list_elem_of_fmap in Hin as (j & Heq & Hj). simpl in Heq.
      apply (inj _) in Heq as <-. apply elem_of_seq in Hj. lia.
    + by apply (prefix_not_elem_of "section") in Hin.
  - intros Hi. right. right. left. apply list_elem_of_fmap. exists i.
    split; [done|]. apply elem_of_seq. lia.
Qed.

(** The presets are keyed [song${i + 1}] exactly for [i < 32]. *)
Lemma song_preset i :
  "song" +:+ pretty (i + 1)%nat ∈ (songPresets ++ sectionPresets ++ playbackPresets).*1
  ↔ (i < PRESET_COUNT)%nat.
Proof.
  unfold songPresets, sectionPresets, makeRange.
  rewrite !fmap_app, !elem_of_app, <- !list_fmap_compose. split.
  - intros [Hin|[Hin|Hin]].
    + apply list_elem_of_fmap in Hin as (j & Heq & Hj). simpl in Heq.
      apply (inj (λ i : nat, "song" +:+ pretty (i + 1)%nat)) in Heq as <-.
      apply elem_of_seq in Hj. lia.
    + by apply (prefix_not_elem_of "song") in Hin.
    + by apply (prefix_not_elem_of "song") in Hin.
  - intros Hi. left. apply list_elem_of_fmap. exists i.
    split; [done|]. apply elem_of_seq. lia.
Qed.

Lemma section_preset i :
  "section" +:+ pretty (i + 1)%nat ∈ (songPresets ++ sectionPresets ++ playbackPresets).*1
  ↔ (i < PRESET_COUNT)%nat.
Proof.
  unfold songPresets, sectionPresets, makeRange.
  rewrite !fmap_app, !elem_of_app, <- !list_fmap_compose. split.
  - intros [Hin|[Hin|Hin]].
    + by apply (prefix_not_elem_of "section") in Hin.
    + apply list_elem_of_fmap in Hin as (j & Heq & Hj). simpl in Heq.
      apply (inj (λ i : nat, "section" +:+ pretty (i + 1)%nat)) in Heq as <-.
      apply elem_of_seq in Hj. lia.
    + by apply (prefix_not_elem_of "section") in Hin.
  - intros Hi. right. left. apply list_elem_of_fmap. exists i.
    split; [done|]. apply elem_of_seq. lia.
Qed.

(** C10. The variable [song${i + 1}Name] is defined, and the preset
    [song${i + 1}] exists, exactly for [i < 32]. A message on
    ['/setlist/songs'] sets each of these 32 variables: to the entry of that
    index (a string entry is the name as it is), and to the empty string
    when the list is shorter. It writes no other variable, so the entries
    from index 32 on appear in no per-index variable. The same holds of the
    sections. *)
Theorem only_first_32_entries_exposed st st0 now items :
  live st = true →
  let songsUpdated := handle now (Message "/setlist/songs" items) st in
  let sectionsUpdated := handle now (Message "/setlist/sections" items) st in
  (∀ i, indexedName "song" i ∈ (variableDefinitions (updateVariableDefinitions st0)).*1
        ↔ (i < 32)%nat)
  ∧ (∀ i, "song" +:+ pretty (i + 1)%nat ∈ (presetDefinitions (updatePresets st0)).*1
          ↔ (i < 32)%nat)
  ∧ (∀ i s, (i < 32)%nat → items !! i = Some (JS.Str s) →
       getVariableValue (indexedName "song" i) songsUpdated = JS.Str s)
  ∧ (∀ i, (i < 32)%nat →
       getVariableValue (indexedName "song" i) songsUpdated
       = JS.Str (ToString (JS.nullish (arg i items) (JS.Str ""))))
  ∧ (∀ i, (length items ≤ i < 32)%nat →
       getVariableValue (indexedName "song" i) songsUpdated = JS.Str "")
  ∧ (∀ i, (32 ≤ i)%nat →
       variableValues songsUpdated !! indexedName "song" i
       = variableValues st !! indexedName "song" i)
  ∧ (∀ k, k ∉ indexedName "song" <$> seq 0 32 →
       variableValues songsUpdated !! k = variableValues st !! k)
  ∧ (∀ i, indexedName "section" i
            ∈ (variableDefinitions (updateVariableDefinitions st0)).*1
          ↔ (i < 32)%nat)
  ∧ (∀ i, "section" +:+ pretty (i + 1)%nat ∈ (presetDefinitions (updatePresets st0)).*1
          ↔ (i < 32)%nat)
  ∧ (∀ i s, (i < 32)%nat → items !! i = Some (JS.Str s) →
       getVariableValue (indexedName "section" i) sectionsUpdated = JS.Str s)
  ∧ (∀ i, (i < 32)%nat →
       getVariableValue (indexedName "section" i) sectionsUpdated
       = JS.Str (ToString (JS.nullish (arg i items) (JS.Str ""))))
  ∧ (∀ i, (length items ≤ i < 32)%nat →
       getVariableValue (indexedName "section" i) sectionsUpdated = JS.Str "")
  ∧ (∀ i, (32 ≤ i)%nat →
       variableValues sectionsUpdated !! indexedName "section" i
       = variableValues st !! indexedName "section" i)
  ∧ (∀ k, k ∉ indexedName "section" <$> seq 0 32 →
       variableValues sectionsUpdated !! k = variableValues st !! k).
Proof.
  intros Hlive songsUpdated sectionsUpdated. subst songsUpdated sectionsUpdated.
  assert (variableDefinitions (updateVariableDefinitions st0) = variableDefinitionList)
    as -> by (by destruct st0).
  assert (presetDefinitions (updatePresets st0)
          = songPresets ++ sectionPresets ++ playbackPresets) as -> by (by destruct st0).
  change 32%nat with PRESET_COUNT.
  split_and!.
  - apply song_definition.
  - apply song_preset.
  - intros i s Hi Hentry.
    destruct (songs_update st now items i Hlive) as (_ & Hname & _).
    rewrite Hname by done. by rewrite (displayName_entry items i s).
  - intros i. apply (songs_update st now items i Hlive).
  - intros i [Hlen Hi].
    destruct (songs_update st now items i Hlive) as (_ & Hname & _).
    rewrite Hname by done. by rewrite displayName_beyond.
  - intros i. apply (songs_update st now items i Hlive).
  - intros k. by apply songs_update_others.
  - apply section_definition.
  - apply section_preset.
  - intros i s Hi Hentry.
    destruct (sections_update st now items i Hlive) as (_ & Hname & _).
    rewrite Hname by done. by rewrite (displayName_entry items i s).
  - intros i. apply (sections_update st now items i Hlive).
  - intros i [Hlen Hi].
    destruct (sections_update st now items i Hlive) as (_ & Hname & _).
    rewrite Hname by done. by rewrite displayName_beyond.
  - intros i. apply (sections_update st now items i Hlive).
  - intros k. by apply sections_update_others.
Qed.

End ListFacts.

(** The list [A, B] replaced by [X]: the second name is the empty string
    afterwards, not [B]. *)
Definition twoSongsExample : ModuleInstance :=
  run integerToString
      [(200, Message "/setlist/songs" [JS.Str "A"; JS.Str "B"])] confirmedExample.

Lemma list_update_replaces_wholesale_witness :
  let songsUpdated :=
    handle integerToString 300 (Message "/setlist/songs" [JS.Str "X"]) twoSongsExample in
  let sectionsUpdated :=
    handle integerToString 300 (Message "/setlist/sections" [JS.Str "X"]) twoSongsExample in
  songs songsUpdated = [JS.Str "X"]
  ∧ (∀ i s, (i < PRESET_COUNT)%nat → [JS.Str "X"] !! i = Some (JS.Str s) →
       getVariableValue (indexedName "song" i) songsUpdated = JS.Str s)
  ∧ (∀ i, (i < PRESET_COUNT)%nat →
       getVariableValue (indexedName "song" i) songsUpdated
       = JS.Str (ToString integerToString (JS.nullish (arg i [JS.Str "X"]) (JS.Str ""))))
  ∧ (∀ i, (length [JS.Str "X"] ≤ i < PRESET_COUNT)%nat →
       getVariableValue (indexedName "song" i) songsUpdated = JS.Str "")
  ∧ sections sectionsUpdated = [JS.Str "X"]
  ∧ (∀ i s, (i < PRESET_COUNT)%nat → [JS.Str "X"] !! i = Some (JS.Str s) →
       getVariableValue (indexedName "section" i) sectionsUpdated = JS.Str s)
  ∧ (∀ i, (i < PRESET_COUNT)%nat →
       getVariableValue (indexedName "section" i) sectionsUpdated
       = JS.Str (ToString integerToString (JS.nullish (arg i [JS.Str "X"]) (JS.Str ""))))
  ∧ (∀ i, (length [JS.Str "X"] ≤ i < PRESET_COUNT)%nat →
       getVariableValue (indexedName "section" i) sectionsUpdated = JS.Str "").
Proof.
  apply (list_update_replaces_wholesale integerToString twoSongsExample 300 [JS.Str "X"]).
  vm_compute; reflexivity.
Defined.

Example song_names_follow_the_latest_list :
  let songsUpdated :=
    handle integerToString 300 (Message "/setlist/songs" [JS.Str "X"]) twoSongsExample in
  getVariableValue "song2Name" twoSongsExample = JS.Str "B"
  ∧ getVariableValue "song6Name" twoSongsExample = JS.Str ""
  ∧ getVariableValue "song1Name" songsUpdated = JS.Str "X"
  ∧ getVariableValue "song2Name" songsUpdated = JS.Str "".
Proof. vm_compute. done. Qed.

(** Forty entries, [S1] to [S40]: the entries [S33] to [S40] exist and are
    dropped. *)
Definition fortyItems : list JS.value :=
  (λ i : nat, JS.Str ("S" +:+ pretty i)) <$> seq 1 40.

Lemma only_first_32_entries_exposed_witness :
  let songsUpdated :=
    handle integerToString 300 (Message "/setlist/songs" fortyItems) confirmedExample in
  let sectionsUpdated :=
    handle integerToString 300 (Message "/setlist/sections" fortyItems) confirmedExample in
  (∀ i, indexedName "song" i
          ∈ (variableDefinitions (updateVariableDefinitions new_ModuleInstance)).*1
        ↔ (i < 32)%nat)
  ∧ (∀ i, "song" +:+ pretty (i + 1)%nat
            ∈ (presetDefinitions (updatePresets new_ModuleInstance)).*1
          ↔ (i < 32)%nat)
  ∧ (∀ i s, (i < 32)%nat → fortyItems !! i = Some (JS.Str s) →
       getVariableValue (indexedName "song" i) songsUpdated = JS.Str s)
  ∧ (∀ i, (i < 32)%nat →
       getVariableValue (indexedName "song" i) songsUpdated
       = JS.Str (ToString integerToString (JS.nullish (arg i fortyItems) (JS.Str ""))))
  ∧ (∀ i, (length fortyItems ≤ i < 32)%nat →
       getVariableValue (indexedName "song" i) songsUpdated = JS.Str "")
  ∧ (∀ i, (32 ≤ i)%nat →
       variableValues songsUpdated !! indexedName "song" i
       = variableValues confirmedExample !! indexedName "song" i)
  ∧ (∀ k, k ∉ indexedName "song" <$> seq 0 32 →
       variableValues songsUpdated !! k = variableValues confirmedExample !! k)
  ∧ (∀ i, indexedName "section" i
            ∈ (variableDefinitions (updateVariableDefinitions new_ModuleInstance)).*1
          ↔ (i < 32)%nat)
  ∧ (∀ i, "section" +:+ pretty (i + 1)%nat
            ∈ (presetDefinitions (updatePresets new_ModuleInstance)).*1
          ↔ (i < 32)%nat)
  ∧ (∀ i s, (i < 32)%nat → fortyItems !! i = Some (JS.Str s) →
       getVariableValue (indexedName "section" i) sectionsUpdated = JS.Str s)
  ∧ (∀ i, (i < 32)%nat →
       getVariableValue (indexedName "section" i) sectionsUpdated
       = JS.Str (ToString integerToString (JS.nullish (arg i fortyItems) (JS.Str ""))))
  ∧ (∀ i, (length fortyItems ≤ i < 32)%nat →
       getVariableValue (indexedName "section" i) sectionsUpdated = JS.Str "")
  ∧ (∀ i, (32 ≤ i)%nat →
       variableValues sectionsUpdated !! indexedName "section" i
       = variableValues confirmedExample !! indexedName "section" i)
  ∧ (∀ k, k ∉ indexedName "section" <$> seq 0 32 →
       variableValues sectionsUpdated !! k = variableValues confirmedExample !! k).
Proof.
  apply (only_first_32_entries_exposed integerToString confirmedExample new_ModuleInstance
           300 fortyItems).
  vm_compute; reflexivity.
Defined.

(** Forty songs: the variables stop at [song32Name]; the entry [S32] is
    exposed, the entry [S33] is in the stored list and has no variable. *)
Example forty_songs :
  let st := handle integerToString 300 (Message "/setlist/songs" fortyItems)
                   confirmedExample in
  length (songs st) = 40%nat
  ∧ songs st !! 32%nat = Some (JS.Str "S33")
  ∧ getVariableValue "song1Name" st = JS.Str "S1"
  ∧ getVariableValue "song32Name" st = JS.Str "S32"
  ∧ getVariableValue "song33Name" st = JS.Undefined
  ∧ variableDefinitions st !! 16%nat = Some ("song1Name", "Song 1 Name")
  ∧ variableDefinitions st !! 47%nat = Some ("song32Name", "Song 32 Name")
  ∧ variableDefinitions st !! 48%nat = Some ("section1Name", "Section 1 Name")
  ∧ (presetDefinitions st).*1 !! 31%nat = Some "song32"
  ∧ (presetDefinitions st).*1 !! 32%nat = Some "section1".
Proof. vm_compute. done. Qed.

(** Section 8 of the spec, end to end: three position updates and one
    loop-bound update within one window of 50 ms give one re-check, of the
    two feedbacks once each, 50 ms after the first update. *)
Example feedbacks_checked_once_per_burst :
  let before := advance 1000 confirmedExample in
  let burst :=
    run integerToString
        [(1000, Message "/global/beatsPosition" [JS.Num (JS.of_Z 1)]);
         (1010, Message "/global/beatsPosition" [JS.Num (JS.of_Z 2)]);
         (1020, Message "/global/beatsPosition" [JS.Num (JS.of_Z 3)]);
         (1030, Message "/setlist/loopStart" [JS.Num (JS.of_Z 4)])] before in
  effects burst = effects before
  ∧ DebounceGather.timer (debouncedCheckFeedbacks burst) = Some 1050
  ∧ effects (advance 1049 burst) = effects before
  ∧ effects (advance 1050 burst) = effects before ++ [ECheckFeedbacks [IsInLoop; IsInActiveLoop]]
  ∧ debouncedCheckFeedbacks (advance 1050 burst) = DebounceGather.create.
Proof. vm_compute. done. Qed.

(* ===================================================================== *)
(** * Further properties of the module *)
(* ===================================================================== *)

(** ** The other feedbacks *)

Lemma Qleb_le a b : JS.Qltb a b || Qeq_bool a b = true ↔ (a <= b)%Q.
Proof.
  rewrite orb_true_iff, Qltb_lt, Qeq_bool_iff, Qle_lteq. tauto.
Qed.

Lemma leb_Fin a b : JS.leb (JS.Fin a) (JS.Fin b) = true ↔ (a <= b)%Q.
Proof. apply Qleb_le. Qed.

Lemma leb_NaN x : JS.leb JS.NaN x = false ∧ JS.leb x JS.NaN = false.
Proof. by destruct x as [|[]|]. Qed.

(** X1. [IsInLoop] is inclusive at both ends: when the position and the two
    loop bounds convert to the finite numbers [p], [s], [e], it is [true]
    exactly when [s <= p <= e]; when one of the three converts to [NaN] it
    is [false]. A variable that was never set reads as the empty string,
    which converts to 0: before any position or loop bound is received,
    [IsInLoop] is [true]. [IsInActiveLoop] is [IsInLoop] together with a
    truthy [loopEnabled], so it is [false] whenever [loopEnabled] is falsy
    (as it is when it was never set), wherever the position is. *)
Theorem IsInLoop_inclusive (options : gmap string JS.value) st :
  let pos := JS.Number (getVariableValue "beatsPosition" st) in
  let loopStart := JS.Number (getVariableValue "loopStart" st) in
  let loopEnd := JS.Number (getVariableValue "loopEnd" st) in
  let inLoop := feedback_callback IsInLoop options st in
  let inActiveLoop := feedback_callback IsInActiveLoop options st in
  (∀ p s e, pos = JS.Fin p → loopStart = JS.Fin s → loopEnd = JS.Fin e →
     (inLoop = true ↔ (s <= p)%Q ∧ (p <= e)%Q))
  ∧ (pos = JS.NaN ∨ loopStart = JS.NaN ∨ loopEnd = JS.NaN → inLoop = false)
  ∧ (variableValues st !! "beatsPosition" = None →
     variableValues st !! "loopStart" = None →
     variableValues st !! "loopEnd" = None → inLoop = true)
  ∧ inActiveLoop = JS.Boolean (getVariableValue "loopEnabled" st) && inLoop
  ∧ (JS.Boolean (getVariableValue "loopEnabled" st) = false → inActiveLoop = false)
  ∧ (variableValues st !! "loopEnabled" = None → inActiveLoop = false).
Proof.
  intros pos loopStart loopEnd inLoop inActiveLoop.
  assert (inLoop = JS.geb pos loopStart && JS.leb pos loopEnd) as HinLoop by done.
  assert (inActiveLoop = JS.Boolean (getVariableValue "loopEnabled" st) && inLoop) as Hactive.
  { unfold inActiveLoop, feedback_callback, isInActiveLoop. fold pos loopStart loopEnd.
    rewrite HinLoop. by rewrite andb_assoc. }
  split_and!; [| | |done| |].
  - intros p s e Hp Hs He. rewrite HinLoop, Hp, Hs, He. unfold JS.geb.
    by rewrite andb_true_iff, !leb_Fin.
  - intros Hnan. rewrite HinLoop. unfold JS.geb.
    destruct Hnan as [Hnan|[Hnan|Hnan]]; rewrite Hnan.
    + by rewrite (proj2 (leb_NaN loopStart)).
    + by rewrite (proj1 (leb_NaN pos)).
    + by rewrite (proj2 (leb_NaN pos)), andb_false_r.
  - intros Hp Hs He. rewrite HinLoop. unfold pos, loopStart, loopEnd.
    rewrite !getVariableValue_never_set by (by_computation || done). done.
  - intros Hoff. by rewrite Hactive, Hoff.
  - intros Hnone. rewrite Hactive.
    rewrite (getVariableValue_never_set "loopEnabled") by (by_computation || done). done.
Qed.

Lemma current_iff v (n : Q) :
  JS.eqb (JS.Number v) (JS.sub (JS.Fin n) (JS.of_Z 1)) = true
  ↔ ∃ q, JS.Number v = JS.Fin q ∧ (q == n - 1)%Q.
Proof. apply eqb_number. Qed.

(** X2. [IsCurrentSong] with the option [songNumber = n], for [n] of the
    range the option declares, [min: 1] to [max: 100] (where the subtraction
    [n - 1] of the runtime is exact), is [true] exactly when the active song
    index converts to [n - 1]. Unlike [IsQueuedSong] it has no guard for the
    empty string: an index that is the empty string, as it reads when it was
    never set, converts to 0, so the feedback of song 1 is [true] then; a
    value [undefined] would give [false]. The same holds of
    [IsCurrentSection]. *)
Theorem IsCurrent_iff (options : gmap string JS.value) st (n : Q) :
  (1 <= n)%Q → (n <= 100)%Q →
  let activeSong := getVariableValue "activeSongIndex" st in
  let activeSection := getVariableValue "activeSectionIndex" st in
  let isCurrentSong :=
    feedback_callback IsCurrentSong (<["songNumber" := JS.Num (JS.Fin n)]> options) st in
  let isCurrentSection :=
    feedback_callback IsCurrentSection
      (<["sectionNumber" := JS.Num (JS.Fin n)]> options) st in
  (isCurrentSong = true ↔ ∃ q, JS.Number activeSong = JS.Fin q ∧ (q == n - 1)%Q)
  ∧ (activeSong = JS.Str "" → (isCurrentSong = true ↔ (n == 1)%Q))
  ∧ (variableValues st !! "activeSongIndex" = None → (isCurrentSong = true ↔ (n == 1)%Q))
  ∧ (activeSong = JS.Undefined → isCurrentSong = false)
  ∧ (isCurrentSection = true ↔ ∃ q, JS.Number activeSection = JS.Fin q ∧ (q == n - 1)%Q)
  ∧ (activeSection = JS.Str "" → (isCurrentSection = true ↔ (n == 1)%Q))
  ∧ (variableValues st !! "activeSectionIndex" = None
     → (isCurrentSection = true ↔ (n == 1)%Q))
  ∧ (activeSection = JS.Undefined → isCurrentSection = false).
Proof.
  intros _ _ activeSong activeSection isCurrentSong isCurrentSection.
  assert (isCurrentSong = true ↔ ∃ q, JS.Number activeSong = JS.Fin q ∧ (q == n - 1)%Q)
    as Hsong.
  { unfold isCurrentSong, feedback_callback, option_value.
    rewrite lookup_insert_eq. apply current_iff. }
  assert (isCurrentSection = true
          ↔ ∃ q, JS.Number activeSection = JS.Fin q ∧ (q == n - 1)%Q) as Hsection.
  { unfold isCurrentSection, feedback_callback, option_value.
    rewrite lookup_insert_eq. apply current_iff. }
  assert (∀ v, v = JS.Str "" →
            (∃ q, JS.Number v = JS.Fin q ∧ (q == n - 1)%Q) ↔ (n == 1)%Q) as Hempty.
  { intros v ->. split.
    - intros (q & [= <-] & Hq). unfold Qeq in *. simpl in *. lia.
    - intros Hn. exists (inject_Z 0). split; [done|].
      unfold Qeq in *. simpl in *. lia. }
  split_and!; [done| | | |done| | |].
  - intros Hv. by rewrite Hsong, Hempty.
  - intros Hnone. rewrite Hsong. apply Hempty.
    apply getVariableValue_never_set; [by_computation | done].
  - intros Hv. apply not_true_is_false. rewrite Hsong, Hv. intros (? & ? & ?); done.
  - intros Hv. by rewrite Hsection, Hempty.
  - intros Hnone. rewrite Hsection. apply Hempty.
    apply getVariableValue_never_set; [by_computation | done].
  - intros Hv. apply not_true_is_false. rewrite Hsection, Hv. intros (? & ? & ?); done.
Qed.

(** The third song is active, no section index was received, and [n]
    is 3. *)
Lemma IsCurrent_iff_witness :
  let st :=
    run integerToString
        [(200, Message "/setlist/activeSongIndex" [JS.Num (JS.of_Z 2)])] confirmedExample in
  let n := inject_Z 3 in
  let activeSong := getVariableValue "activeSongIndex" st in
  let activeSection := getVariableValue "activeSectionIndex" st in
  let isCurrentSong :=
    feedback_callback IsCurrentSong (<["songNumber" := JS.Num (JS.Fin n)]> ∅) st in
  let isCurrentSection :=
    feedback_callback IsCurrentSection (<["sectionNumber" := JS.Num (JS.Fin n)]> ∅) st in
  (isCurrentSong = true ↔ ∃ q, JS.Number activeSong = JS.Fin q ∧ (q == n - 1)%Q)
  ∧ (activeSong = JS.Str "" → (isCurrentSong = true ↔ (n == 1)%Q))
  ∧ (variableValues st !! "activeSongIndex" = None → (isCurrentSong = true ↔ (n == 1)%Q))
  ∧ (activeSong = JS.Undefined → isCurrentSong = false)
  ∧ (isCurrentSection = true ↔ ∃ q, JS.Number activeSection = JS.Fin q ∧ (q == n - 1)%Q)
  ∧ (activeSection = JS.Str "" → (isCurrentSection = true ↔ (n == 1)%Q))
  ∧ (variableValues st !! "activeSectionIndex" = None
     → (isCurrentSection = true ↔ (n == 1)%Q))
  ∧ (activeSection = JS.Undefined → isCurrentSection = false).
Proof.
  intros st n.
  apply (IsCurrent_iff ∅ st n); vm_compute; discriminate.
Defined.

Lemma gtb_zero x :
  JS.gtb x (JS.of_Z 0) = true
  ↔ x = JS.Infinity false ∨ ∃ q, x = JS.Fin q ∧ (0 < q)%Q.
Proof.
  unfold JS.gtb. destruct x as [|[]|q]; simpl.
  - split; [done|]. intros [?|(? & ? & ?)]; done.
  - split; [done|]. intros [?|(? & ? & ?)]; done.
  - split; [by left | done].
  - rewrite Qltb_lt. split.
    + intros Hq. right. by exists q.
    + intros [?|(q' & [= <-] & Hq)]; done.
Qed.

(** X3. [CanJumpToPreviousSong] is [true] exactly when the active song index
    converts to a number above 0; it is [false] at the first song, and
    [false] when the index is the empty string or [undefined]. The same
    holds of [CanJumpToPreviousSection]. Neither reads the lists. *)
Theorem CanJumpToPrevious_iff (options : gmap string JS.value) st :
  let song := JS.Number (getVariableValue "activeSongIndex" st) in
  let section := JS.Number (getVariableValue "activeSectionIndex" st) in
  let previousSong := feedback_callback CanJumpToPreviousSong options st in
  let previousSection := feedback_callback CanJumpToPreviousSection options st in
  (previousSong = true ↔ song = JS.Infinity false ∨ ∃ q, song = JS.Fin q ∧ (0 < q)%Q)
  ∧ (∀ i : Z, song = JS.of_Z i → (previousSong = true ↔ 0 < i))
  ∧ (getVariableValue "activeSongIndex" st = JS.Str ""
     ∨ getVariableValue "activeSongIndex" st = JS.Undefined → previousSong = false)
  ∧ (previousSection = true
     ↔ section = JS.Infinity false ∨ ∃ q, section = JS.Fin q ∧ (0 < q)%Q)
  ∧ (∀ i : Z, section = JS.of_Z i → (previousSection = true ↔ 0 < i))
  ∧ (getVariableValue "activeSectionIndex" st = JS.Str ""
     ∨ getVariableValue "activeSectionIndex" st = JS.Undefined → previousSection = false).
Proof.
  intros song section previousSong previousSection.
  assert (∀ x, (∀ i : Z, x = JS.of_Z i →
            (x = JS.Infinity false ∨ (∃ q, x = JS.Fin q ∧ (0 < q)%Q)) ↔ 0 < i)) as Hint.
  { intros x i ->. unfold JS.of_Z. split.
    - intros [?|(q & [= <-] & Hq)]; [done|]. by apply (inject_Z_lt 0 i).
    - intros Hi. right. eexists. split; [done|]. by apply (inject_Z_lt 0 i). }
  assert (∀ v, v = JS.Str "" ∨ v = JS.Undefined →
            ¬ (JS.Number v = JS.Infinity false
               ∨ ∃ q, JS.Number v = JS.Fin q ∧ (0 < q)%Q)) as Hunknown.
  { intros v [-> | ->] [?|(q & Hq & Hlt)]; try done.
    injection Hq as <-. by apply (inject_Z_lt 0 0) in Hlt. }
  pose proof (gtb_zero song) as Hsong. pose proof (gtb_zero section) as Hsection.
  split_and!; [done| | |done| |].
  - intros i Hi. fold previousSong in Hsong. by rewrite <- (Hint song i Hi).
  - intros Hv. apply not_true_is_false. intros Ht. apply Hsong in Ht.
    by apply (Hunknown _ Hv).
  - intros i Hi. fold previousSection in Hsection. by rewrite <- (Hint section i Hi).
  - intros Hv. apply not_true_is_false. intros Ht. apply Hsection in Ht.
    by apply (Hunknown _ Hv).
Qed.

(** X4. [CanJumpToNextSection] is [true] exactly when the active section
    index converts to a number below the number of sections minus one: for
    an integer index [i] and [n] sections, when [i < n - 1]. It is [false] at
    the last section, past the end of the list, for an empty list and an
    index from -1 on, and for an index that is [undefined]. It reads the
    sections list, not the songs list. *)
Theorem CanJumpToNextSection_iff (options : gmap string JS.value) st :
  let index := JS.Number (getVariableValue "activeSectionIndex" st) in
  let n := Z.of_nat (length (sections st)) in
  let can := feedback_callback CanJumpToNextSection options st in
  (can = true ↔ index = JS.Infinity true ∨ ∃ q, index = JS.Fin q ∧ (q < inject_Z (n - 1))%Q)
  ∧ (∀ i : Z, index = JS.of_Z i →
       (can = true ↔ i < n - 1)
       ∧ (n ≤ i + 1 → can = false)
       ∧ (n = 0 → -1 ≤ i → can = false))
  ∧ (getVariableValue "activeSectionIndex" st = JS.Undefined → can = false)
  ∧ (∀ items, feedback_callback CanJumpToNextSection options (set_songs items st) = can).
Proof.
  intros index n can.
  assert (can = true ↔ index = JS.Infinity true
                       ∨ ∃ q, index = JS.Fin q ∧ (q < inject_Z (n - 1))%Q) as Hcan
    by apply ltb_lt.
  assert (∀ i : Z, index = JS.of_Z i → (can = true ↔ i < n - 1)) as Hint.
  { intros i Hi. rewrite Hcan, Hi. unfold JS.of_Z. split.
    - intros [?|(q & [= <-] & Hq)]; [done|]. by apply inject_Z_lt.
    - intros Hlt. right. eexists. split; [done|]. by apply inject_Z_lt. }
  split_and!; [done| | |].
  - intros i Hi. specialize (Hint i Hi).
    split_and!; [done|..]; intros; apply not_true_is_false; rewrite Hint; lia.
  - intros Hu. apply not_true_is_false. rewrite Hcan. unfold index. rewrite Hu.
    intros [?|(? & ? & ?)]; done.
  - intros items. by destruct st.
Qed.

(** ** Messages and the mirrored state *)

(** The feedbacks waiting for their re-check, and whether the timer that
    delivers them is pending. *)
Definition pending_checks (st : ModuleInstance) : list Feedback :=
  DebounceGather.pending (debouncedCheckFeedbacks st).

Definition awaits_check (st : ModuleInstance) (f : Feedback) : Prop :=
  f ∈ pending_checks st ∧ is_Some (DebounceGather.timer (debouncedCheckFeedbacks st)).

(** The variables a feedback callback reads, and whether it reads a list. *)
Definition reads (f : Feedback) : list string :=
  match f with
  | IsPlaying => ["isPlaying"]
  | IsInLoop => ["beatsPosition"; "loopStart"; "loopEnd"]
  | IsInActiveLoop => ["beatsPosition"; "loopEnabled"; "loopStart"; "loopEnd"]
  | IsCurrentSong | CanJumpToNextSong | CanJumpToPreviousSong => ["activeSongIndex"]
  | IsCurrentSection | CanJumpToNextSection | CanJumpToPreviousSection =>
      ["activeSectionIndex"]
  | IsQueuedSong => ["queuedSongIndex"]
  | IsQueuedSection => ["queuedSectionIndex"]
  end.

Definition reads_songs (f : Feedback) : bool :=
  match f with CanJumpToNextSong => true | _ => false end.

Definition reads_sections (f : Feedback) : bool :=
  match f with CanJumpToNextSection => true | _ => false end.

Lemma feedback_callback_reads f options st st' :
  Forall (λ k, variableValues st' !! k = variableValues st !! k) (reads f) →
  (reads_songs f = true → songs st' = songs st) →
  (reads_sections f = true → sections st' = sections st) →
  feedback_callback f options st' = feedback_callback f options st.
Proof.
  intros Hreads Hsongs Hsections.
  destruct f; simpl in Hreads, Hsongs, Hsections;
    repeat match goal with
           | H : Forall _ (_ :: _) |- _ => apply Forall_cons in H as [? H]
           end;
    unfold feedback_callback, isInActiveLoop, getVariableValue;
    repeat match goal with
           | H : variableValues st' !! _ = _ |- _ => rewrite H; clear H
           end;
    rewrite ?Hsongs, ?Hsections by done; reflexivity.
Qed.

Lemma elem_of_foldl_add (acc keys : list Feedback) k :
  k ∈ foldl DebounceGather.add acc keys ↔ k ∈ acc ∨ k ∈ keys.
Proof.
  revert acc. induction keys as [|x keys IH]; intros acc; simpl.
  - rewrite elem_of_nil. tauto.
  - rewrite IH, add_spec, elem_of_cons. tauto.
Qed.

Lemma awaits_check_gather now keys st f :
  f ∈ keys ∨ awaits_check st f → awaits_check (gather now keys st) f.
Proof.
  unfold awaits_check, pending_checks. intros Hf.
  assert (debouncedCheckFeedbacks (gather now keys st)
          = DebounceGather.fire FEEDBACK_DELAY now keys (debouncedCheckFeedbacks st)) as ->
    by (by destruct st).
  simpl. split.
  - apply elem_of_foldl_add. destruct Hf as [?|[? _]]; auto.
  - by destruct (DebounceGather.timer _).
Qed.

Lemma awaits_check_same st st' f :
  debouncedCheckFeedbacks st' = debouncedCheckFeedbacks st →
  awaits_check st f → awaits_check st' f.
Proof. unfold awaits_check, pending_checks. by intros ->. Qed.

Lemma setVariableValues_frame values st :
  songs (setVariableValues values st) = songs st
  ∧ sections (setVariableValues values st) = sections st
  ∧ debouncedCheckFeedbacks (setVariableValues values st) = debouncedCheckFeedbacks st
  ∧ connection (setVariableValues values st) = connection st.
Proof. by destruct st. Qed.

Lemma setVariableValues_lookup_notin values st k :
  k ∉ values.*1 →
  variableValues (setVariableValues values st) !! k = variableValues st !! k.
Proof.
  intros Hk. rewrite <- (lookup_foldl_insert_notin values (variableValues st) k Hk).
  by destruct st.
Qed.

Lemma gather_frame now keys st :
  songs (gather now keys st) = songs st
  ∧ sections (gather now keys st) = sections st
  ∧ variableValues (gather now keys st) = variableValues st.
Proof. by destruct st. Qed.

Lemma set_songs_frame items st :
  sections (set_songs items st) = sections st
  ∧ variableValues (set_songs items st) = variableValues st
  ∧ debouncedCheckFeedbacks (set_songs items st) = debouncedCheckFeedbacks st.
Proof. by destruct st. Qed.

Lemma set_sections_frame items st :
  songs (set_sections items st) = songs st
  ∧ variableValues (set_sections items st) = variableValues st
  ∧ debouncedCheckFeedbacks (set_sections items st) = debouncedCheckFeedbacks st.
Proof. by destruct st. Qed.

(** The variable [k] after a listener of one of the shapes of
    [initOscListeners]. *)
Ltac listener_lookup :=
  unfold set1;
  rewrite ?(proj2 (proj2 (gather_frame _ _ _)));
  rewrite setVariableValues_lookup_notin by by_computation;
  rewrite ?(proj1 (proj2 (set_songs_frame _ _))), ?(proj1 (proj2 (set_sections_frame _ _)));
  reflexivity.

Ltac listener_list :=
  unfold set1;
  rewrite ?(proj1 (gather_frame _ _ _)), ?(proj1 (proj2 (gather_frame _ _ _)));
  rewrite ?(proj1 (setVariableValues_frame _ _)),
          ?(proj1 (proj2 (setVariableValues_frame _ _)));
  rewrite ?(proj1 (set_songs_frame _ _)), ?(proj1 (set_sections_frame _ _));
  first [reflexivity | discriminate].

Section MessageFacts.
Variable NumberToString : JS.number → string.

Abbreviation handle := (handle NumberToString).
Abbreviation dispatch := (dispatch NumberToString).
Abbreviation step := (step NumberToString).
Abbreviation run := (run NumberToString).
Abbreviation initOscListeners := (initOscListeners NumberToString).

Lemma emit_to_unmatched (listeners : list (string * Listener)) now address args st :
  address ∉ listeners.*1 → emit_to listeners now address args st = st.
Proof.
  unfold emit_to. revert st.
  induction listeners as [|l rest IH]; intros st Hnot; simpl; [done|].
  rewrite fmap_cons, not_elem_of_cons in Hnot. destruct Hnot as [Hne Hnot].
  destruct (String.eqb_spec l.1 address) as [Heq|_]; [by rewrite Heq in Hne|].
  by apply IH.
Qed.

(** X5. A message whose address has no listener is ignored: when the address
    is none of those [initOscListeners] registers and is not ['/heartbeat']
    (nor one of the event names ['listening'] and ['error'] that [init]
    listens to on the same emitter), the instance after the message is the
    instance before it: no variable, no list, no status, no timer and no
    effect changes. *)
Theorem unrecognized_message_ignored st now address args :
  address ∉ initOscListeners.*1 →
  address ≠ "/heartbeat" →
  address ≠ "listening" → address ≠ "error" →
  handle now (Message address args) st = st.
Proof.
  intros Hnot Hne _ _. unfold handle. destruct (live st); [|done].
  unfold dispatch. rewrite emit_to_unmatched by done.
  destruct (String.eqb_spec address "/global/isPlaying") as [->|_].
  - exfalso. apply Hnot. by_computation.
  - by destruct (String.eqb_spec address "/heartbeat").
Qed.

(** What one listener does to a feedback: it requests its re-check, or it
    leaves its result as it is. *)
Definition invalidates_or_keeps (l : string * Listener) : Prop :=
  ∀ now args st f options,
    awaits_check (l.2 now args st) f
    ∨ feedback_callback f options (l.2 now args st) = feedback_callback f options st.

Definition keeps_requests (l : string * Listener) : Prop :=
  ∀ now args st f, awaits_check st f → awaits_check (l.2 now args st) f.

Ltac listener_invalidates :=
  first
    [ left; apply awaits_check_gather; left; by_computation
    | right; apply feedback_callback_reads;
      [ repeat (apply List.Forall_cons; [listener_lookup|]); apply List.Forall_nil
      | simpl; intros Hreads; first [discriminate Hreads | listener_list]
      | simpl; intros Hreads; first [discriminate Hreads | listener_list] ] ].

Lemma listeners_invalidate : Forall invalidates_or_keeps initOscListeners.
Proof.
  repeat (apply List.Forall_cons;
          [intros now args st f options; cbv [snd]; destruct f; listener_invalidates|]).
  apply List.Forall_nil.
Qed.

Lemma listeners_keep_requests : Forall keeps_requests initOscListeners.
Proof.
  repeat (apply List.Forall_cons;
          [intros now args st f Hf; cbv [snd]; unfold set1;
           first [ apply awaits_check_gather; right | idtac ];
           (apply (awaits_check_same st); [|done]);
           rewrite ?(proj1 (proj2 (proj2 (setVariableValues_frame _ _))));
           rewrite ?(proj2 (proj2 (set_songs_frame _ _))),
                   ?(proj2 (proj2 (set_sections_frame _ _)));
           reflexivity|]).
  apply List.Forall_nil.
Qed.

Lemma emit_to_keeps_requests (listeners : list (string * Listener)) now address args st f :
  Forall keeps_requests listeners →
  awaits_check st f → awaits_check (emit_to listeners now address args st) f.
Proof.
  intros Hall. revert st. unfold emit_to.
  induction Hall as [|l rest Hl _ IH]; intros st Hf; simpl; [done|].
  apply IH. destruct (String.eqb l.1 address); [by apply Hl | done].
Qed.

Lemma emit_to_invalidates (listeners : list (string * Listener)) now address args st f options :
  Forall invalidates_or_keeps listeners →
  Forall keeps_requests listeners →
  awaits_check (emit_to listeners now address args st) f
  ∨ feedback_callback f options (emit_to listeners now address args st)
    = feedback_callback f options st.
Proof.
  intros Hall Hkeep. revert st.
  induction Hall as [|l rest Hl _ IH]; intros st; [by right|].
  apply Forall_cons in Hkeep as [Hkl Hkeep].
  change (emit_to (l :: rest) now address args st)
    with (emit_to rest now address args
            (if String.eqb l.1 address then l.2 now args st else st)).
  destruct (String.eqb l.1 address); [|by apply IH].
  destruct (IH Hkeep (l.2 now args st)) as [Hw|Heq]; [by left|].
  destruct (Hl now args st f options) as [Hw|Heq'].
  - left. by apply emit_to_keeps_requests.
  - right. congruence.
Qed.

Lemma once_isPlaying_frame st :
  mirrored (once_isPlaying st) = mirrored st
  ∧ debouncedCheckFeedbacks (once_isPlaying st) = debouncedCheckFeedbacks st.
Proof.
  unfold once_isPlaying. destruct st as [? ? ? ? ? ? ? ? ? ? [[c h []]|] ? ?]; done.
Qed.

Lemma on_heartbeat_frame now st :
  mirrored (on_heartbeat now st) = mirrored st
  ∧ debouncedCheckFeedbacks (on_heartbeat now st) = debouncedCheckFeedbacks st.
Proof.
  unfold on_heartbeat. destruct st as [? ? ? ? ? ? ? ? ? ? [[[] h o]|] ? ?]; done.
Qed.

(** X6. No invalidation is missed: whenever a message changes the result of
    a feedback callback, for whatever options, the listener of that message
    has passed the feedback to [debouncedCheckFeedbacks]: after the message
    the feedback is among the pending keys and the timer of the window is
    pending. *)
Theorem changed_feedback_awaits_check st now address args f options :
  let st' := handle now (Message address args) st in
  feedback_callback f options st' ≠ feedback_callback f options st →
  awaits_check st' f.
Proof.
  intros st' Hchanged. unfold st', handle in *.
  destruct (live st); [|done]. unfold dispatch in *.
  set (st1 := emit_to initOscListeners now address args st) in *.
  set (st2 := if String.eqb address "/global/isPlaying" then once_isPlaying st1 else st1) in *.
  assert (mirrored st2 = mirrored st1
          ∧ debouncedCheckFeedbacks st2 = debouncedCheckFeedbacks st1) as [Hm2 Hd2].
  { unfold st2. destruct (String.eqb address "/global/isPlaying"); [|done].
    apply once_isPlaying_frame. }
  set (st3 := if String.eqb address "/heartbeat" then on_heartbeat now st2 else st2) in *.
  assert (mirrored st3 = mirrored st2
          ∧ debouncedCheckFeedbacks st3 = debouncedCheckFeedbacks st2) as [Hm3 Hd3].
  { unfold st3. destruct (String.eqb address "/heartbeat"); [|done].
    apply on_heartbeat_frame. }
  destruct (emit_to_invalidates initOscListeners now address args st f options
              listeners_invalidate listeners_keep_requests) as [Hw|Heq].
  - apply (awaits_check_same st1); [congruence | done].
  - exfalso. apply Hchanged. rewrite <- Heq.
    rewrite (feedback_callback_mirrored f options st2 st3 Hm3).
    by apply feedback_callback_mirrored.
Qed.

(** The per-index name variables agree with the stored list. *)
Definition song_names_follow (st : ModuleInstance) : Prop :=
  ∀ i, (i < PRESET_COUNT)%nat →
    getVariableValue (indexedName "song" i) st
    = JS.Str (displayName NumberToString (songs st) i).

Definition section_names_follow (st : ModuleInstance) : Prop :=
  ∀ i, (i < PRESET_COUNT)%nat →
    getVariableValue (indexedName "section" i) st
    = JS.Str (displayName NumberToString (sections st) i).

Lemma song_names_follow_mirrored st st' :
  mirrored st' = mirrored st → song_names_follow st → song_names_follow st'.
Proof.
  unfold mirrored, song_names_follow, getVariableValue.
  intros [= Hsongs _ Hvalues]. by rewrite Hsongs, Hvalues.
Qed.

Lemma section_names_follow_mirrored st st' :
  mirrored st' = mirrored st → section_names_follow st → section_names_follow st'.
Proof.
  unfold mirrored, section_names_follow, getVariableValue.
  intros [= _ Hsections Hvalues]. by rewrite Hsections, Hvalues.
Qed.

(** A listener other than that of [address] leaves the list [field] and the
    variables named [prefix ++ ...] alone. *)
Definition keeps_list {A : Type} (address prefix : string)
    (field : ModuleInstance → A) (l : string * Listener) : Prop :=
  l.1 ≠ address →
  ∀ now args st,
    field (l.2 now args st) = field st
    ∧ ∀ s, variableValues (l.2 now args st) !! (prefix +:+ s)
           = variableValues st !! (prefix +:+ s).

Ltac listener_keeps_list :=
  intros Hne now args st; cbv [fst snd] in *;
  first
    [ done
    | split;
      [ listener_list
      | intros s; unfold set1;
        rewrite ?(proj2 (proj2 (gather_frame _ _ _)));
        rewrite setVariableValues_lookup_notin
          by (apply prefix_not_elem_of; vm_compute; reflexivity);
        rewrite ?(proj1 (proj2 (set_songs_frame _ _))),
                ?(proj1 (proj2 (set_sections_frame _ _)));
        reflexivity ] ].

Lemma listeners_keep_songs :
  Forall (keeps_list "/setlist/songs" "song" songs) initOscListeners.
Proof.
  repeat (apply List.Forall_cons; [listener_keeps_list|]). apply List.Forall_nil.
Qed.

Lemma listeners_keep_sections :
  Forall (keeps_list "/setlist/sections" "section" sections) initOscListeners.
Proof.
  repeat (apply List.Forall_cons; [listener_keeps_list|]). apply List.Forall_nil.
Qed.

Lemma emit_to_keeps_list {A : Type} (target prefix : string) (field : ModuleInstance → A)
    (listeners : list (string * Listener)) now address args st :
  Forall (keeps_list target prefix field) listeners →
  address ≠ target →
  field (emit_to listeners now address args st) = field st
  ∧ ∀ s, variableValues (emit_to listeners now address args st) !! (prefix +:+ s)
         = variableValues st !! (prefix +:+ s).
Proof.
  intros Hall Hne. revert st. unfold emit_to.
  induction Hall as [|l rest Hl _ IH]; intros st; simpl; [done|].
  destruct (String.eqb_spec l.1 address) as [Heq|_]; [|apply IH].
  destruct (IH (l.2 now args st)) as [-> Hv].
  destruct (Hl ltac:(congruence) now args st) as [-> Hv'].
  split; [done|]. intros s. by rewrite Hv, Hv'.
Qed.

Lemma dispatch_mirrored now address args st :
  mirrored (dispatch now address args st)
  = mirrored (emit_to initOscListeners now address args st).
Proof.
  unfold dispatch.
  set (st1 := emit_to initOscListeners now address args st).
  destruct (String.eqb address "/heartbeat"), (String.eqb address "/global/isPlaying");
    rewrite ?(proj1 (on_heartbeat_frame _ _)), ?(proj1 (once_isPlaying_frame _)); done.
Qed.

Lemma advance_mirrored now st : mirrored (advance now st) = mirrored st.
Proof.
  unfold advance.
  assert (∀ s, mirrored (run_watchdog now s) = mirrored s) as Hw.
  { intros s. unfold run_watchdog.
    destruct s as [? ? ? ? ? ? ? ? ? ? [[c h o]|] ? ?]; simpl; [|done].
    by destruct (Debounce.due now h). }
  assert (∀ s, mirrored (run_orphans now s) = mirrored s) as Ho.
  { intros s. unfold run_orphans.
    assert (∀ (l : list Z) s',
      mirrored (foldl (λ st _, updateStatus Disconnected (Some lostMessage) st) s' l)
      = mirrored s') as Hfold.
    { induction l as [|x l IH]; intros s'; simpl; [done|]. rewrite IH. by destruct s'. }
    rewrite Hfold. by destruct s. }
  assert (mirrored (run_gather now st) = mirrored st) as Hg.
  { unfold run_gather. destruct (DebounceGather.due _ _); [|done]. by destruct st. }
  by rewrite Hw, Ho, Hg.
Qed.

Lemma handle_other_mirrored now e st :
  (∀ address args, e ≠ Message address args) → mirrored (handle now e st) = mirrored st.
Proof.
  intros He. unfold handle. destruct (live st); [|done].
  destruct e as [|address args|message]; [|by destruct (He address args)|by destruct st].
  unfold on_listening. destruct st as [? [?|] [?|] ? ? ? ? ? ? ? [?|] ? ?]; done.
Qed.

Lemma songs_message_names st now items :
  live st = true → song_names_follow (handle now (Message "/setlist/songs" items) st).
Proof.
  intros Hlive i Hi.
  destruct (songs_update NumberToString st now items i Hlive) as (Hsongs & Hname & _).
  rewrite Hsongs. by apply Hname.
Qed.

Lemma sections_message_names st now items :
  live st = true →
  section_names_follow (handle now (Message "/setlist/sections" items) st).
Proof.
  intros Hlive i Hi.
  destruct (sections_update NumberToString st now items i Hlive) as (Hsections & Hname & _).
  rewrite Hsections. by apply Hname.
Qed.

Lemma handle_keeps_song_names now e st :
  song_names_follow st → song_names_follow (handle now e st).
Proof.
  intros Hst. destruct e as [|address args|message];
    try (apply (song_names_follow_mirrored st); [|done];
         by apply handle_other_mirrored).
  destruct (live st) eqn:Hlive; [|by unfold handle; rewrite Hlive].
  destruct (String.eqb_spec address "/setlist/songs") as [->|Hne].
  - by apply songs_message_names.
  - unfold handle. rewrite Hlive.
    apply (song_names_follow_mirrored (emit_to initOscListeners now address args st));
      [apply dispatch_mirrored|].
    destruct (emit_to_keeps_list "/setlist/songs" "song" songs initOscListeners
                now address args st listeners_keep_songs Hne) as [Hsongs Hvalues].
    intros i Hi. unfold getVariableValue, indexedName. rewrite Hvalues, Hsongs.
    by apply Hst.
Qed.

Lemma handle_keeps_section_names now e st :
  section_names_follow st → section_names_follow (handle now e st).
Proof.
  intros Hst. destruct e as [|address args|message];
    try (apply (section_names_follow_mirrored st); [|done];
         by apply handle_other_mirrored).
  destruct (live st) eqn:Hlive; [|by unfold handle; rewrite Hlive].
  destruct (String.eqb_spec address "/setlist/sections") as [->|Hne].
  - by apply sections_message_names.
  - unfold handle. rewrite Hlive.
    apply (section_names_follow_mirrored (emit_to initOscListeners now address args st));
      [apply dispatch_mirrored|].
    destruct (emit_to_keeps_list "/setlist/sections" "section" sections initOscListeners
                now address args st listeners_keep_sections Hne) as [Hsections Hvalues].
    intros i Hi. unfold getVariableValue, indexedName. rewrite Hvalues, Hsections.
    by apply Hst.
Qed.

(** X7. The 32 name variables never go stale against the stored list. A
    message on ['/setlist/songs'] makes every variable [song${i + 1}Name]
    the display name of entry [i] of the stored list; from then on this
    holds after every sequence of events and timers, whatever they are, and
    after [configUpdated] with any configuration. The same holds of the
    sections. *)
Theorem names_follow_lists :
  (∀ st now items, live st = true →
     song_names_follow (handle now (Message "/setlist/songs" items) st))
  ∧ (∀ st now items, live st = true →
       section_names_follow (handle now (Message "/setlist/sections" items) st))
  ∧ (∀ st events, song_names_follow st → song_names_follow (run events st))
  ∧ (∀ st events, section_names_follow st → section_names_follow (run events st))
  ∧ (∀ new_Server new_Client cfg st,
       song_names_follow st →
       song_names_follow (configUpdated new_Server new_Client cfg st))
  ∧ (∀ new_Server new_Client cfg st,
       section_names_follow st →
       section_names_follow (configUpdated new_Server new_Client cfg st)).
Proof.
  split_and!.
  - apply songs_message_names.
  - apply sections_message_names.
  - intros st events. revert st. unfold run.
    induction events as [|e rest IH]; intros st Hst; simpl; [done|].
    apply IH, handle_keeps_song_names.
    by apply (song_names_follow_mirrored st); [apply advance_mirrored|].
  - intros st events. revert st. unfold run.
    induction events as [|e rest IH]; intros st Hst; simpl; [done|].
    apply IH, handle_keeps_section_names.
    by apply (section_names_follow_mirrored st); [apply advance_mirrored|].
  - intros new_Server new_Client cfg st.
    apply song_names_follow_mirrored, configUpdated_mirrored.
  - intros new_Server new_Client cfg st.
    apply section_names_follow_mirrored, configUpdated_mirrored.
Qed.

End MessageFacts.

Lemma unrecognized_message_ignored_witness :
  handle integerToString 300 (Message "/setlist/unknown" [JS.Num (JS.of_Z 1)])
         twoSongsExample
  = twoSongsExample.
Proof.
  apply (unrecognized_message_ignored integerToString twoSongsExample 300
           "/setlist/unknown" [JS.Num (JS.of_Z 1)]).
  - by_computation.
  - done.
  - done.
  - done.
Defined.

(** With two songs stored and no index received yet (it counts as 0), the
    index 1 turns [CanJumpToNextSong] from [true] to [false]. *)
Lemma changed_feedback_awaits_check_witness :
  awaits_check
    (handle integerToString 300
            (Message "/setlist/activeSongIndex" [JS.Num (JS.of_Z 1)]) twoSongsExample)
    CanJumpToNextSong.
Proof.
  apply (changed_feedback_awaits_check integerToString twoSongsExample 300
           "/setlist/activeSongIndex" [JS.Num (JS.of_Z 1)] CanJumpToNextSong ∅).
  vm_compute. intros [=].
Defined.

(* ===================================================================== *)
(** ** The actions *)
(* ===================================================================== *)

Section Actions.
Variable NumberToString : JS.number → string.

Abbreviation ToString := (ToString NumberToString).

(** [event.options] *)
Definition ActionCallback : Type := gmap string JS.value → ModuleInstance → ModuleInstance.

Definition send (address : string) : ActionCallback := λ _ st, sendOsc address [] st.

Definition send_number (address id : string) : ActionCallback :=
  λ options st, sendOsc address [JS.Num (JS.Number (option_value id options))] st.

Definition send_string (address id : string) : ActionCallback :=
  λ options st, sendOsc address [JS.Str (ToString (option_value id options))] st.

(** The callbacks given to [setActionDefinitions] by [updateActions], under
    the values of the [Action] enum of [enums.ts]. *)
Definition actionDefinitions : list (string * ActionCallback) := [
  ("play", send "/global/play");
  ("pause", send "/global/pause");
  ("stop", send "/global/stop");
  ("playPause", λ _ st,
     if JS.Boolean (getVariableValue "isPlaying" st)
     then sendOsc "/global/pause" [] st else sendOsc "/global/play" [] st);
  ("playStop", λ _ st,
     if JS.Boolean (getVariableValue "isPlaying" st)
     then sendOsc "/global/stop" [] st else sendOsc "/global/play" [] st);
  ("enableLoop", send "/setlist/enableLoop");
  ("escapeLoop", send "/setlist/escapeLoop");
  ("toggleLoop", λ _ st,
     if isInActiveLoop st
     then sendOsc "/setlist/escapeLoop" [] st else sendOsc "/setlist/enableLoop" [] st);
  ("jumpToSongByNumber", send_number "/setlist/jumpToSong" "number");
  ("jumpToSongByName", send_string "/setlist/jumpToSong" "name");
  ("jumpBySongs", send_number "/setlist/jumpBySongs" "steps");
  ("jumpToSectionByNumber", send_number "/setlist/jumpToSection" "number");
  ("jumpToSectionByName", send_string "/setlist/jumpToSection" "name");
  ("jumpBySections", send_number "/setlist/jumpBySections" "steps");
  ("playCuedSong", send "/setlist/playCuedSong");
  ("pa12SetScene", send_string "/playaudio12/setScene" "scene");
  ("pa12ToggleScene", send "/playaudio12/toggleScene");
  ("setAutoplay", send_number "/settings/autoplay" "value");
  ("setSafeMode", send_number "/settings/safeMode" "value");
  ("setAlwaysStopOnSongEnd", send_number "/settings/alwaysStopOnSongEnd" "value");
  ("setAutoJumpToNextSong", send_number "/settings/autoJumpToNextSong" "value");
  ("setAutoLoopCurrentSection", send_number "/settings/autoLoopCurrentSection" "value");
  ("setCountIn", send_number "/settings/countIn" "value");
  ("setCountInSoloClick", send_number "/settings/countInSoloClick" "value");
  ("setCountInDuration", send_number "/settings/countInDuration" "value");
  ("setJumpMode", send_string "/settings/jumpMode" "value")
].

(** The value of a member of the [Action] enum. *)
Definition Action_id (a : Action) : string :=
  match a with
  | PlayPause => "playPause"
  | PlayStop => "playStop"
  | ToggleLoop => "toggleLoop"
  | JumpToSongByNumber => "jumpToSongByNumber"
  | JumpBySongs => "jumpBySongs"
  | JumpToSectionByNumber => "jumpToSectionByNumber"
  | JumpBySections => "jumpBySections"
  end.

(** The host runs the callback registered under [actionId], if there is
    one. *)
Definition run_action (actionId : string) (options : gmap string JS.value)
    (st : ModuleInstance) : ModuleInstance :=
  match list_find (λ d : string * ActionCallback, d.1 = actionId) actionDefinitions with
  | Some (_, d) => d.2 options st
  | None => st
  end.

(** A press of the button of a preset: the actions of [down], in order. *)
Definition press (p : Preset) (st : ModuleInstance) : ModuleInstance :=
  foldl (λ st (a : Action * list (string * JS.value)),
           run_action (Action_id a.1) (list_to_map a.2) st)
        st (down p).

(** The feedbacks of a preset whose callback returns [true], each with the
    options the preset gives it. *)
Definition lit (p : Preset) (st : ModuleInstance) : list Feedback :=
  (filter (λ f : Feedback * list (string * JS.value),
             feedback_callback f.1 (list_to_map f.2) st = true) (feedbacks p)).*1.

(** The addresses the actions send to. *)
Definition sends_one (cb : ActionCallback) : Prop :=
  ∀ options st,
    (oscClient st = None → cb options st = st)
    ∧ (is_Some (oscClient st) →
       ∃ address args, cb options st = emit (ESend address args) st).

Lemma sendOsc_one address args st :
  (oscClient st = None → sendOsc address args st = st)
  ∧ (is_Some (oscClient st) →
     ∃ address' args', sendOsc address args st = emit (ESend address' args') st).
Proof.
  unfold sendOsc. split.
  - by intros ->.
  - intros [c ->]. by eexists _, _.
Qed.

Lemma action_callbacks_send_one :
  Forall (λ d : string * ActionCallback, sends_one d.2) actionDefinitions.
Proof.
  repeat (apply List.Forall_cons;
          [intros options st; cbv [snd send send_number send_string];
           repeat match goal with |- context [if ?b then _ else _] => destruct b end;
           apply sendOsc_one |]).
  apply List.Forall_nil.
Qed.

(** X8. Every action sends exactly one message, and does nothing else: with
    an OSC client, the instance after a defined action is the instance
    before with one more effect, a send; without a client (before the first
    [init] that constructs one) it is the instance before, nothing is sent.
    No action writes a variable, a list or the status; an action id that is
    not defined does nothing. *)
Theorem actions_send_one_message actionId options st :
  (oscClient st = None → run_action actionId options st = st)
  ∧ (is_Some (oscClient st) → actionId ∈ actionDefinitions.*1 →
     ∃ address args, run_action actionId options st = emit (ESend address args) st)
  ∧ (actionId ∉ actionDefinitions.*1 → run_action actionId options st = st).
Proof.
  unfold run_action.
  destruct (list_find _ actionDefinitions) as [[i d]|] eqn:Hfind.
  - apply list_find_Some in Hfind as (Hd & Hid & _).
    pose proof (proj1 (Forall_lookup _ _) action_callbacks_send_one i d Hd options st)
      as [Hnone Hsome].
    split_and!; [done|intros Hc _; by apply Hsome|].
    intros Hnot. destruct Hnot. rewrite <- Hid.
    apply list_elem_of_fmap. exists d. split; [done|]. by eapply list_elem_of_lookup_2.
  - apply list_find_None in Hfind.
    split_and!; [done| |done].
    intros _ (d & -> & Hd)%list_elem_of_fmap.
    by destruct (proj1 (Forall_forall _ _) Hfind d Hd).
Qed.

Lemma run_action_playPause options st :
  run_action "playPause" options st
  = sendOsc (if JS.Boolean (getVariableValue "isPlaying" st)
             then "/global/pause" else "/global/play") [] st.
Proof.
  change (run_action "playPause" options st)
    with (if JS.Boolean (getVariableValue "isPlaying" st)
          then sendOsc "/global/pause" [] st else sendOsc "/global/play" [] st).
  by destruct (JS.Boolean _).
Qed.

Lemma run_action_playStop options st :
  run_action "playStop" options st
  = sendOsc (if JS.Boolean (getVariableValue "isPlaying" st)
             then "/global/stop" else "/global/play") [] st.
Proof.
  change (run_action "playStop" options st)
    with (if JS.Boolean (getVariableValue "isPlaying" st)
          then sendOsc "/global/stop" [] st else sendOsc "/global/play" [] st).
  by destruct (JS.Boolean _).
Qed.

Lemma run_action_toggleLoop options st :
  run_action "toggleLoop" options st
  = sendOsc (if isInActiveLoop st
             then "/setlist/escapeLoop" else "/setlist/enableLoop") [] st.
Proof.
  change (run_action "toggleLoop" options st)
    with (if isInActiveLoop st
          then sendOsc "/setlist/escapeLoop" [] st else sendOsc "/setlist/enableLoop" [] st).
  by destruct (isInActiveLoop st).
Qed.

(** X9. The toggle actions follow the mirrored state the feedbacks show.
    After a message on ['/global/isPlaying'] with the argument [v], the
    action [playPause] sends ['/global/pause'] when [v] is truthy and
    ['/global/play'] otherwise, and [playStop] sends ['/global/stop'] or
    ['/global/play']; [toggleLoop] sends ['/setlist/escapeLoop'] exactly
    when the feedback [IsInActiveLoop] is [true], and
    ['/setlist/enableLoop'] otherwise. *)
Theorem toggles_follow_mirrored_state st now v options :
  live st = true →
  let st' := handle NumberToString now (Message "/global/isPlaying" [v]) st in
  run_action "playPause" options st'
  = sendOsc (if JS.Boolean v then "/global/pause" else "/global/play") [] st'
  ∧ run_action "playStop" options st'
    = sendOsc (if JS.Boolean v then "/global/stop" else "/global/play") [] st'
  ∧ feedback_callback IsPlaying options st' = JS.Boolean v
  ∧ ∀ s, run_action "toggleLoop" options s
         = sendOsc (if feedback_callback IsInActiveLoop options s
                    then "/setlist/escapeLoop" else "/setlist/enableLoop") [] s.
Proof.
  intros Hlive st'.
  assert (getVariableValue "isPlaying" st' = JS.Bool (JS.Boolean v)) as Hv.
  { assert (mirrored st'
            = mirrored (gather now [IsPlaying] (set1 "isPlaying" (boolean_of 0 [v]) st)))
      as Hm.
    { unfold st', handle. rewrite Hlive, dispatch_isPlaying.
      apply once_isPlaying_frame. }
    unfold mirrored in Hm. injection Hm as _ _ Hvalues.
    unfold getVariableValue. rewrite Hvalues.
    unfold set1. rewrite (proj2 (proj2 (gather_frame _ _ _))).
    assert (variableValues
              (setVariableValues [("isPlaying", boolean_of 0 [v])] st)
            = <["isPlaying" := JS.Bool (JS.Boolean v)]> (variableValues st)) as ->
      by (by destruct st).
    by rewrite lookup_insert_eq. }
  split_and!.
  - rewrite run_action_playPause, Hv. simpl. done.
  - rewrite run_action_playStop, Hv. simpl. done.
  - unfold feedback_callback. by rewrite Hv.
  - intros s. apply run_action_toggleLoop.
Qed.

End Actions.

Lemma toggles_follow_mirrored_state_witness :
  let st' := handle integerToString 3000 (Message "/global/isPlaying" [JS.Num (JS.of_Z 1)])
               confirmedExample in
  run_action integerToString "playPause" ∅ st'
  = sendOsc (if JS.Boolean (JS.Num (JS.of_Z 1))
             then "/global/pause" else "/global/play") [] st'
  ∧ run_action integerToString "playStop" ∅ st'
    = sendOsc (if JS.Boolean (JS.Num (JS.of_Z 1))
               then "/global/stop" else "/global/play") [] st'
  ∧ feedback_callback IsPlaying ∅ st' = JS.Boolean (JS.Num (JS.of_Z 1))
  ∧ ∀ s, run_action integerToString "toggleLoop" ∅ s
         = sendOsc (if feedback_callback IsInActiveLoop ∅ s
                    then "/setlist/escapeLoop" else "/setlist/enableLoop") [] s.
Proof.
  apply (toggles_follow_mirrored_state integerToString confirmedExample 3000
           (JS.Num (JS.of_Z 1)) ∅).
  vm_compute; reflexivity.
Defined.

(* ===================================================================== *)
(** ** The presets *)
(* ===================================================================== *)

Section Presets.
Variable NumberToString : JS.number → string.

Abbreviation handle := (handle NumberToString).
Abbreviation press := (press NumberToString).
Abbreviation run_action := (run_action NumberToString).

Definition allPresets : list (string * Preset) :=
  songPresets ++ sectionPresets ++ playbackPresets.

Lemma allPresets_NoDup : NoDup allPresets.*1.
Proof. by_computation. Qed.

Lemma preset_unique key p p' :
  (key, p) ∈ allPresets → (key, p') ∈ allPresets → p = p'.
Proof.
  intros Hp Hp'.
  apply list_elem_of_lookup in Hp as [i Hi]. apply list_elem_of_lookup in Hp' as [j Hj].
  assert (i = j) as ->.
  { apply (NoDup_lookup _ i j key allPresets_NoDup); rewrite list_lookup_fmap.
    - by rewrite Hi.
    - by rewrite Hj. }
  congruence.
Qed.

Lemma song_preset_elem i :
  (i < PRESET_COUNT)%nat →
  indexedPreset "song" "Song" "song" JumpToSongByNumber
                IsQueuedSong IsCurrentSong "songNumber" i ∈ allPresets.
Proof.
  intros Hi. unfold allPresets, songPresets, makeRange.
  apply elem_of_app. left. apply list_elem_of_fmap. exists i.
  split; [done|]. apply elem_of_seq. lia.
Qed.

Lemma section_preset_elem i :
  (i < PRESET_COUNT)%nat →
  indexedPreset "section" "Section" "section" JumpToSectionByNumber
                IsQueuedSection IsCurrentSection "sectionNumber" i ∈ allPresets.
Proof.
  intros Hi. unfold allPresets, sectionPresets, makeRange.
  apply elem_of_app. right. apply elem_of_app. left.
  apply list_elem_of_fmap. exists i. split; [done|]. apply elem_of_seq. lia.
Qed.

Lemma press_jumpToSong p n st :
  down p = [(JumpToSongByNumber, [("number", JS.Num n)])] →
  press p st = sendOsc "/setlist/jumpToSong" [JS.Num n] st.
Proof.
  intros Hdown. unfold press. rewrite Hdown.
  change (sendOsc "/setlist/jumpToSong"
            [JS.Num (JS.Number (option_value "number"
                                  (list_to_map [("number", JS.Num n)])))] st
          = sendOsc "/setlist/jumpToSong" [JS.Num n] st).
  unfold option_value. simpl list_to_map. by rewrite lookup_insert_eq.
Qed.

Lemma press_jumpToSection p n st :
  down p = [(JumpToSectionByNumber, [("number", JS.Num n)])] →
  press p st = sendOsc "/setlist/jumpToSection" [JS.Num n] st.
Proof.
  intros Hdown. unfold press. rewrite Hdown.
  change (sendOsc "/setlist/jumpToSection"
            [JS.Num (JS.Number (option_value "number"
                                  (list_to_map [("number", JS.Num n)])))] st
          = sendOsc "/setlist/jumpToSection" [JS.Num n] st).
  unfold option_value. simpl list_to_map. by rewrite lookup_insert_eq.
Qed.

(** X10. The button of song [i + 1] jumps to song [i + 1]: for [i < 32],
    pressing the preset registered under [song${i + 1}] sends
    ['/setlist/jumpToSong'] with the number [i + 1], through the action
    [jumpToSongByNumber]; the preset under [section${i + 1}] sends
    ['/setlist/jumpToSection'] with [i + 1]. The number sent is 1-based, as
    the stored indices are 0-based. *)
Theorem preset_press_jumps i song section st st0 :
  (i < 32)%nat →
  ("song" +:+ pretty (i + 1)%nat, song) ∈ presetDefinitions (updatePresets st0) →
  ("section" +:+ pretty (i + 1)%nat, section) ∈ presetDefinitions (updatePresets st0) →
  press song st = sendOsc "/setlist/jumpToSong" [JS.Num (JS.of_nat (i + 1))] st
  ∧ press section st = sendOsc "/setlist/jumpToSection" [JS.Num (JS.of_nat (i + 1))] st.
Proof.
  intros Hi Hsong Hsection.
  assert (presetDefinitions (updatePresets st0) = allPresets) as Hall by (by destruct st0).
  rewrite Hall in Hsong, Hsection.
  rewrite (preset_unique _ _ _ Hsong (song_preset_elem i Hi)).
  rewrite (preset_unique _ _ _ Hsection (section_preset_elem i Hi)).
  split; [by apply press_jumpToSong | by apply press_jumpToSection].
Qed.

Lemma lit_spec p st f :
  f ∈ lit p st
  ↔ ∃ options, (f, options) ∈ feedbacks p
               ∧ feedback_callback f (list_to_map options) st = true.
Proof.
  unfold lit. rewrite list_elem_of_fmap. split.
  - intros ([f' options] & -> & [Hcb Hin]%list_elem_of_filter). by exists options.
  - intros (options & Hin & Hcb). exists (f, options). split; [done|].
    by apply list_elem_of_filter.
Qed.

Lemma handle_activeSongIndex now args st :
  live st = true →
  variableValues (handle now (Message "/setlist/activeSongIndex" args) st)
  = <["activeSongIndex" := number_of 0 args]> (variableValues st).
Proof.
  intros Hlive. unfold handle. rewrite Hlive.
  change (dispatch NumberToString now "/setlist/activeSongIndex" args st)
    with (gather now [IsCurrentSong; CanJumpToNextSong; CanJumpToPreviousSong]
            (set1 "activeSongIndex" (number_of 0 args) st)).
  by destruct st.
Qed.

Lemma handle_queuedIndex now args st :
  live st = true →
  variableValues (handle now (Message "/setlist/queuedIndex" args) st)
  = <["queuedSectionIndex" := number_of 1 args]>
      (<["queuedSongIndex" := number_of 0 args]> (variableValues st)).
Proof.
  intros Hlive. unfold handle. rewrite Hlive.
  change (dispatch NumberToString now "/setlist/queuedIndex" args st)
    with (gather now [IsQueuedSong; IsQueuedSection]
            (setVariableValues [("queuedSongIndex", number_of 0 args);
                                ("queuedSectionIndex", number_of 1 args)] st)).
  by destruct st.
Qed.

Lemma index_matches (j : Z) (i : nat) :
  JS.eqb (JS.of_Z j) (JS.sub (JS.of_nat (i + 1)) (JS.of_Z 1)) = true ↔ j = Z.of_nat i.
Proof.
  unfold JS.of_nat, JS.of_Z. simpl. rewrite Qeq_bool_iff.
  unfold Qeq, Qminus, Qplus, Qopp, inject_Z. simpl. lia.
Qed.

(** X11. Exactly the button of the active song is lit as current, and
    exactly the button of the queued song as queued. After the messages
    ['/setlist/activeSongIndex'] with the integer [j] and
    ['/setlist/queuedIndex'] with the integers [q] and [q'], the preset
    registered under [song${i + 1}] ([i < 32]) has its feedback
    [IsCurrentSong] returning [true] exactly when [j = i], and
    [IsQueuedSong] exactly when [q = i]. *)
Theorem song_preset_lit st st0 now (j q q' : Z) i song :
  live st = true →
  (i < 32)%nat →
  ("song" +:+ pretty (i + 1)%nat, song) ∈ presetDefinitions (updatePresets st0) →
  let st' :=
    handle now (Message "/setlist/queuedIndex" [JS.Num (JS.of_Z q); JS.Num (JS.of_Z q')])
           (handle now (Message "/setlist/activeSongIndex" [JS.Num (JS.of_Z j)]) st) in
  (IsCurrentSong ∈ lit song st' ↔ j = Z.of_nat i)
  ∧ (IsQueuedSong ∈ lit song st' ↔ q = Z.of_nat i).
Proof.
  intros Hlive Hi Hsong st'.
  assert (presetDefinitions (updatePresets st0) = allPresets) as Hall by (by destruct st0).
  rewrite Hall in Hsong.
  rewrite (preset_unique _ _ _ Hsong (song_preset_elem i Hi)).
  assert (getVariableValue "activeSongIndex" st' = JS.Num (JS.of_Z j)
          ∧ getVariableValue "queuedSongIndex" st' = JS.Num (JS.of_Z q)) as [Hactive Hqueued].
  { unfold st', getVariableValue.
    rewrite handle_queuedIndex by (by rewrite handle_live).
    rewrite handle_activeSongIndex by done.
    rewrite !lookup_insert_ne by done. rewrite !lookup_insert_eq.
    rewrite lookup_insert_ne by done. by rewrite lookup_insert_eq. }
  split; rewrite lit_spec; simpl.
  - split.
    + intros (options & Hin & Hcb).
      apply elem_of_cons in Hin as [[=]|Hin].
      apply list_elem_of_singleton in Hin as [= ->].
      unfold feedback_callback, option_value in Hcb. simpl list_to_map in Hcb.
      rewrite lookup_insert_eq, Hactive in Hcb. by apply index_matches.
    + intros Hj. eexists. split; [apply elem_of_cons; right; apply list_elem_of_singleton; done|].
      unfold feedback_callback, option_value. simpl list_to_map.
      rewrite lookup_insert_eq, Hactive. by apply index_matches.
  - split.
    + intros (options & Hin & Hcb).
      apply elem_of_cons in Hin as [[= ->]|Hin];
        [|by apply list_elem_of_singleton in Hin].
      unfold feedback_callback, option_value in Hcb. simpl list_to_map in Hcb.
      rewrite lookup_insert_eq, Hqueued in Hcb.
      apply andb_true_iff in Hcb as [_ Hcb]. by apply index_matches.
    + intros Hq. eexists. split; [apply elem_of_cons; left; done|].
      unfold feedback_callback, option_value. simpl list_to_map.
      rewrite lookup_insert_eq, Hqueued. apply andb_true_iff. split; [done|].
      by apply index_matches.
Qed.

End Presets.

Lemma preset_press_jumps_witness :
  let song :=
    (indexedPreset "song" "Song" "song" JumpToSongByNumber
                   IsQueuedSong IsCurrentSong "songNumber" 2).2 in
  let section :=
    (indexedPreset "section" "Section" "section" JumpToSectionByNumber
                   IsQueuedSection IsCurrentSection "sectionNumber" 2).2 in
  press integerToString song twoSongsExample
  = sendOsc "/setlist/jumpToSong" [JS.Num (JS.of_nat 3)] twoSongsExample
  ∧ press integerToString section twoSongsExample
    = sendOsc "/setlist/jumpToSection" [JS.Num (JS.of_nat 3)] twoSongsExample.
Proof.
  intros song section.
  apply (preset_press_jumps integerToString 2 song section twoSongsExample
           new_ModuleInstance).
  - lia.
  - apply list_elem_of_lookup. exists 2%nat. vm_compute. reflexivity.
  - apply list_elem_of_lookup. exists 34%nat. vm_compute. reflexivity.
Defined.

(** The third song is active and the sixth is queued. *)
Lemma song_preset_lit_witness :
  let song :=
    (indexedPreset "song" "Song" "song" JumpToSongByNumber
                   IsQueuedSong IsCurrentSong "songNumber" 2).2 in
  let st' :=
    handle integerToString 300
           (Message "/setlist/queuedIndex" [JS.Num (JS.of_Z 5); JS.Num (JS.of_Z 0)])
           (handle integerToString 300
                   (Message "/setlist/activeSongIndex" [JS.Num (JS.of_Z 2)])
                   confirmedExample) in
  (IsCurrentSong ∈ lit song st' ↔ 2 = Z.of_nat 2)
  ∧ (IsQueuedSong ∈ lit song st' ↔ 5 = Z.of_nat 2).
Proof.
  intros song.
  apply (song_preset_lit integerToString confirmedExample new_ModuleInstance
           300 2 5 0 2 song).
  - vm_compute. reflexivity.
  - lia.
  - apply list_elem_of_lookup. exists 2%nat. vm_compute. reflexivity.
Defined.

(* ===================================================================== *)
(** ** The life cycle *)
(* ===================================================================== *)

Section LifeCycle.
Variable NumberToString : JS.number → string.
Variable new_Server : JS.number → string → option string.
Variable new_Client : string → JS.number → option string.

Abbreviation handle := (handle NumberToString).
Abbreviation init := (init new_Server new_Client).
Abbreviation init_try := (init_try new_Server new_Client).
Abbreviation configUpdated := (configUpdated new_Server new_Client).

(** The port number [init] reads from a configuration. *)
Definition portNumber (cfg : Config) : JS.number := JS.Number (JS.Str (clientPort cfg)).

(** [init] gets to construct both endpoints. *)
Definition constructs (cfg : Config) : Prop :=
  remote_without_client_host cfg = false
  ∧ JS.isNaN (portNumber cfg) = false
  ∧ new_Server (portNumber cfg) (clientHost cfg) = None
  ∧ new_Client (serverHost cfg) (JS.of_Z 39051) = None.

Lemma init_unfold cfg st :
  remote_without_client_host cfg = false →
  init cfg st
  = updateVariableDefinitions
      (updatePresets (init_try cfg (updateStatus Connecting None (set_config cfg st)))).
Proof. intros Hhost. unfold init. by rewrite Hhost. Qed.

Lemma init_try_constructs cfg st :
  config st = cfg → constructs cfg →
  init_try cfg st
  = set_session (Some fresh_session)
      (emit (ENewClient (serverHost cfg) (JS.of_Z 39051))
         (set_oscClient
            (Some {| host := serverHost cfg; port := JS.of_Z 39051; open := true |})
            (emit (ENewServer (portNumber cfg) (clientHost cfg))
               (set_oscServer
                  (Some {| host := clientHost cfg; port := portNumber cfg; open := true |})
                  (supersede st))))).
Proof.
  intros Hcfg (_ & Hport & HS & HC). unfold init_try, portNumber in *.
  rewrite Hcfg, Hport, HS.
  pose proof (supersede_config st) as Hsup. rewrite Hcfg in Hsup.
  destruct (supersede st); simpl in *; subst. by rewrite HC.
Qed.

Lemma supersede_frame st :
  effects (supersede st) = effects st ∧ status (supersede st) = status st
  ∧ oscClient (supersede st) = oscClient st.
Proof.
  unfold supersede. destruct st as [? ? ? ? ? ? ? ? ? ? [[c [[at_|]] o]|] ? ?]; done.
Qed.

(** X12. A successful [init], and the server's ['listening'] event after it.
    When the host check passes, the port converts to a number and both
    constructors return, [init] reports [Connecting], constructs the server
    on the client host and the numeric port and the client on the server
    host and port 39051, and starts a session that is not connected, with
    no watchdog pending and the once-listener registered. When the server
    then reports that it listens, at [now], the module sends ['/subscribe']
    with the client host, the numeric port and ["Companion"], then
    ['/getValues'], and arms the watchdog for [now + 2500]; the status
    stays [Connecting]. *)
Theorem init_subscribes_on_listening cfg st now :
  constructs cfg →
  let st1 := init cfg st in
  let st2 := handle now Listening st1 in
  status st1 = Some (Connecting, None)
  ∧ oscServer st1 = Some {| host := clientHost cfg; port := portNumber cfg; open := true |}
  ∧ oscClient st1 = Some {| host := serverHost cfg; port := JS.of_Z 39051; open := true |}
  ∧ session st1 = Some fresh_session
  ∧ effects st1 = effects st ++ [EUpdateStatus Connecting None;
                                 ENewServer (portNumber cfg) (clientHost cfg);
                                 ENewClient (serverHost cfg) (JS.of_Z 39051)]
  ∧ effects st2 = effects st1 ++ [ESend "/subscribe"
                                    [JS.Str (clientHost cfg); JS.Num (portNumber cfg);
                                     JS.Str "Companion"];
                                  ESend "/getValues" []]
  ∧ watchdog st2 = Some (now + 2500)
  ∧ status st2 = Some (Connecting, None).
Proof.
  intros Hok st1 st2. pose proof Hok as (Hhost & _).
  assert (st1 = updateVariableDefinitions (updatePresets
            (init_try cfg (updateStatus Connecting None (set_config cfg st))))) as Hst1
    by (by apply init_unfold).
  rewrite init_try_constructs in Hst1; [|by destruct st|done].
  destruct (supersede_frame (updateStatus Connecting None (set_config cfg st)))
    as (Heffects & Hstatus & _).
  destruct (supersede (updateStatus Connecting None (set_config cfg st)))
    as [? ? ? ? ? ? ? ? ? ? ? ? ?] eqn:Hsup.
  simpl in Heffects, Hstatus, Hst1.
  assert (effects0 = effects st ++ [EUpdateStatus Connecting None]) as ->
    by (rewrite Heffects; by destruct st).
  assert (status0 = Some (Connecting, None)) as -> by (rewrite Hstatus; by destruct st).
  unfold st2. rewrite Hst1. unfold watchdog. simpl.
  rewrite <- !app_assoc. done.
Qed.

(** X13. What [init] exports, and a server that cannot be constructed. When
    the host check fails, [init] returns before it registers anything: the
    variable definitions and the presets stay as they were. When the check
    passes they are registered, whatever happens to the transport. When the
    constructor of the server throws, the message of the exception is
    reported with [ConnectionFailure] after [Connecting]; the endpoints and
    the listeners stay as they were. *)
Theorem init_exports cfg st :
  (remote_without_client_host cfg = true →
     variableDefinitions (init cfg st) = variableDefinitions st
     ∧ presetDefinitions (init cfg st) = presetDefinitions st)
  ∧ (remote_without_client_host cfg = false →
     variableDefinitions (init cfg st) = variableDefinitionList
     ∧ presetDefinitions (init cfg st) = songPresets ++ sectionPresets ++ playbackPresets)
  ∧ (∀ message,
       remote_without_client_host cfg = false →
       JS.isNaN (portNumber cfg) = false →
       new_Server (portNumber cfg) (clientHost cfg) = Some message →
       status (init cfg st) = Some (ConnectionFailure, Some message)
       ∧ effects (init cfg st)
         = effects st ++ [EUpdateStatus Connecting None;
                          EUpdateStatus ConnectionFailure (Some message)]
       ∧ oscServer (init cfg st) = oscServer st
       ∧ oscClient (init cfg st) = oscClient st
       ∧ session (init cfg st) = session st).
Proof.
  split_and!.
  - intros Hhost. unfold init. rewrite Hhost. by destruct st.
  - intros Hhost. rewrite init_unfold by done. by destruct (init_try _ _).
  - intros message Hhost Hport HS. rewrite init_unfold by done.
    unfold init_try, portNumber in *.
    assert (config (updateStatus Connecting None (set_config cfg st)) = cfg) as ->
      by (by destruct st).
    rewrite Hport, HS. destruct st; simpl. by rewrite <- app_assoc.
Qed.

(** X14. [destroy] with both endpoints open: it sends ['/unsubscribe'],
    closes the client and then the server, and finishes. Afterwards no event
    reaches the listeners: every event leaves the instance as it is. The
    mirrored state is untouched, and the watchdog of the session is still
    pending at the instant it was pending at. *)
Theorem destroy_closes st c s :
  oscClient st = Some c → open c = true →
  oscServer st = Some s → open s = true →
  let st' := (destroy st).1 in
  (destroy st).2 = true
  ∧ effects st' = effects st ++ [ESend "/unsubscribe" []; EClose c; EClose s]
  ∧ oscClient st' = Some (close c)
  ∧ oscServer st' = Some (close s)
  ∧ (∀ now e, handle now e st' = st')
  ∧ mirrored st' = mirrored st
  ∧ watchdog st' = watchdog st.
Proof.
  intros Hc _ Hs _ st'. unfold st', destroy, sendOsc.
  destruct st as [? ? ? ? ? ? ? ? ? ? ? ? ?]; simpl in *; subst; simpl.
  split_and!; try done.
  - by rewrite <- !app_assoc.
  - intros now e. unfold handle, live. simpl. by destruct session0.
Qed.

Lemma configUpdated_without_client cfg st :
  oscClient st = None → configUpdated cfg st = set_config cfg st.
Proof.
  intros Hc. unfold configUpdated, destroy, sendOsc.
  destruct st; simpl in *; subst. done.
Qed.

Lemma init_without_client cfg :
  ¬ constructs cfg →
  oscClient (init cfg new_ModuleInstance) = None
  ∧ session (init cfg new_ModuleInstance) = None
  ∧ config (init cfg new_ModuleInstance) = cfg.
Proof.
  intros Hnot. unfold init.
  destruct (remote_without_client_host cfg) eqn:Hhost; [done|].
  set (st := init_try cfg _).
  assert (oscClient st = None ∧ session st = None ∧ config st = cfg) as Hst.
  { unfold st, init_try. simpl.
    destruct (JS.isNaN _) eqn:Hport; [done|].
    destruct (new_Server _ _) eqn:HS; [done|].
    destruct (new_Client _ _) eqn:HC; [done|].
    destruct Hnot. by repeat split. }
  by destruct st.
Qed.

Lemma configUpdated_without_client_repeated (cfgs : list Config) st :
  oscClient st = None →
  let final := foldl (λ st cfg, configUpdated cfg st) st cfgs in
  status final = status st
  ∧ effects final = effects st
  ∧ oscClient final = None
  ∧ oscServer final = oscServer st
  ∧ session final = session st
  ∧ config final = default (config st) (last cfgs).
Proof.
  revert st. induction cfgs as [|cfg rest IH]; intros st Hclient; simpl; [done|].
  rewrite configUpdated_without_client by done.
  destruct (IH (set_config cfg st)) as (Hs & He & Hc & Hv & Hss & Hcfg);
    [by destruct st|].
  rewrite Hs, He, Hc, Hv, Hss, Hcfg.
  split_and!; try (by destruct st).
  rewrite last_cons. destruct (last rest); by destruct st.
Qed.

(** X15. An instance whose first [init] did not construct both endpoints
    never initialises again. [destroy] awaits the callback of
    [this.oscClient?.close(res)], which is never called while [oscClient] is
    [null]; so [configUpdated] records the new configuration and stops
    there. However many configurations follow, valid or not, no endpoint is
    constructed, nothing is reported and the status stays the one of the
    failed [init]. *)
Theorem failed_first_init_is_final cfg0 (cfgs : list Config) :
  ¬ constructs cfg0 →
  let failed := init cfg0 new_ModuleInstance in
  let final := foldl (λ st cfg, configUpdated cfg st) failed cfgs in
  status final = status failed
  ∧ effects final = effects failed
  ∧ oscClient final = None
  ∧ session final = None
  ∧ config final = default cfg0 (last cfgs).
Proof.
  intros Hnot failed final.
  destruct (init_without_client cfg0 Hnot) as (Hclient & Hsession & Hconfig).
  destruct (configUpdated_without_client_repeated cfgs failed Hclient)
    as (Hs & He & Hc & _ & Hss & Hcfg).
  simpl in Hs, He, Hc, Hss, Hcfg. unfold final.
  split_and!; [done|done|done| |].
  - by rewrite Hss.
  - rewrite Hcfg. unfold failed. by rewrite Hconfig.
Qed.

End LifeCycle.

Lemma init_subscribes_on_listening_witness :
  let st1 := init returns returns localConfig new_ModuleInstance in
  let st2 := handle integerToString 0 Listening st1 in
  status st1 = Some (Connecting, None)
  ∧ oscServer st1
    = Some {| host := "127.0.0.1"; port := portNumber localConfig; open := true |}
  ∧ oscClient st1 = Some {| host := "127.0.0.1"; port := JS.of_Z 39051; open := true |}
  ∧ session st1 = Some fresh_session
  ∧ effects st1
    = effects new_ModuleInstance
      ++ [EUpdateStatus Connecting None;
          ENewServer (portNumber localConfig) "127.0.0.1";
          ENewClient "127.0.0.1" (JS.of_Z 39051)]
  ∧ effects st2
    = effects st1 ++ [ESend "/subscribe"
                        [JS.Str "127.0.0.1"; JS.Num (portNumber localConfig);
                         JS.Str "Companion"];
                      ESend "/getValues" []]
  ∧ watchdog st2 = Some (0 + 2500)
  ∧ status st2 = Some (Connecting, None).
Proof.
  apply (init_subscribes_on_listening integerToString returns returns localConfig
           new_ModuleInstance 0).
  repeat split; vm_compute; reflexivity.
Defined.

Lemma destroy_closes_witness :
  let c := {| host := "127.0.0.1"; port := JS.of_Z 39051; open := true |} in
  let s := {| host := "127.0.0.1"; port := portNumber localConfig; open := true |} in
  let st' := (destroy confirmedExample).1 in
  (destroy confirmedExample).2 = true
  ∧ effects st'
    = effects confirmedExample ++ [ESend "/unsubscribe" []; EClose c; EClose s]
  ∧ oscClient st' = Some (close c)
  ∧ oscServer st' = Some (close s)
  ∧ (∀ now e, handle integerToString now e st' = st')
  ∧ mirrored st' = mirrored confirmedExample
  ∧ watchdog st' = watchdog confirmedExample.
Proof.
  intros c s.
  apply (destroy_closes integerToString confirmedExample c s);
    vm_compute; reflexivity.
Defined.

(** A first configuration whose port is not a number, then a valid one. *)
Lemma failed_first_init_is_final_witness :
  let cfg0 := {| clientHost := "127.0.0.1"; clientPort := "abc";
                 serverHost := "127.0.0.1" |} in
  let failed := init returns returns cfg0 new_ModuleInstance in
  let final :=
    foldl (λ st cfg, configUpdated returns returns cfg st) failed [localConfig] in
  status final = status failed
  ∧ effects final = effects failed
  ∧ oscClient final = None
  ∧ session final = None
  ∧ config final = default cfg0 (last [localConfig]).
Proof.
  intros cfg0.
  apply (failed_first_init_is_final returns returns cfg0 [localConfig]).
  intros (_ & Hport & _). vm_compute in Hport. discriminate Hport.
Defined.

(* ===================================================================== *)
(** ** The watchdog of a session that was replaced *)
(* ===================================================================== *)

Section SupersededWatchdog.
Variable NumberToString : JS.number → string.
Variable new_Server : JS.number → string → option string.
Variable new_Client : string → JS.number → option string.

Abbreviation handle := (handle NumberToString).
Abbreviation dispatch := (dispatch NumberToString).
Abbreviation step := (step NumberToString).
Abbreviation run := (run NumberToString).
Abbreviation initOscListeners := (initOscListeners NumberToString).
Abbreviation init := (init new_Server new_Client).
Abbreviation configUpdated := (configUpdated new_Server new_Client).
Abbreviation constructs := (constructs new_Server new_Client).

(** Heartbeats that arrive in time: each less than 2500 ms after the one
    before it, the first after [last]. *)
Fixpoint in_time (last : Z) (beats : list (Z * list JS.value)) : bool :=
  match beats with
  | [] => true
  | beat :: beats =>
      (last <=? beat.1) && (beat.1 <? last + HEARTBEAT_TIMEOUT) && in_time beat.1 beats
  end.

Definition heartbeats (beats : list (Z * list JS.value)) : list (Z * Event) :=
  (λ beat, (beat.1, Message "/heartbeat" beat.2)) <$> beats.

Definition lostStatus : option (InstanceStatus * option string) :=
  Some (Disconnected, Some lostMessage).

Lemma reports_lost (due : list Z) st :
  status (foldl (λ st _, updateStatus Disconnected (Some lostMessage) st) st due)
  = match due with [] => status st | _ => lostStatus end
  ∧ orphans (foldl (λ st _, updateStatus Disconnected (Some lostMessage) st) st due)
    = orphans st.
Proof.
  revert st. induction due as [|at_ due IH]; intros st; simpl; [done|].
  destruct (IH (updateStatus Disconnected (Some lostMessage) st)) as [-> ->].
  destruct st, due; done.
Qed.

Lemma run_orphans_status now st :
  status (run_orphans now st)
  = match filter (λ at_, at_ ≤ now) (orphans st) with [] => status st | _ => lostStatus end
  ∧ orphans (run_orphans now st) = filter (λ at_, ¬ at_ ≤ now) (orphans st).
Proof.
  unfold run_orphans.
  destruct (reports_lost (filter (λ at_, at_ ≤ now) (orphans st))
              (set_orphans (filter (λ at_, ¬ at_ ≤ now) (orphans st)) st)) as [-> ->].
  by destruct st.
Qed.

Lemma run_gather_orphans now st : orphans (run_gather now st) = orphans st.
Proof.
  unfold run_gather. destruct (DebounceGather.due _ _); [|done]. by destruct st.
Qed.

Lemma run_watchdog_not_due now st :
  (∀ at_, watchdog st = Some at_ → now < at_) → run_watchdog now st = st.
Proof.
  unfold watchdog, run_watchdog, Debounce.due.
  destruct (session st) as [[c [[at_|]] o]|]; simpl; [|done..].
  intros Hlt. specialize (Hlt at_ eq_refl). by destruct (Z.leb_spec at_ now); [lia|].
Qed.

(** The clock reaching [now] before the watchdog is due: only the timers of
    superseded sessions can report. *)
Lemma advance_not_due now st :
  (∀ at_, watchdog st = Some at_ → now < at_) →
  session (advance now st) = session st
  ∧ status (advance now st)
    = match filter (λ at_, at_ ≤ now) (orphans st) with [] => status st | _ => lostStatus end
  ∧ orphans (advance now st) = filter (λ at_, ¬ at_ ≤ now) (orphans st).
Proof.
  intros Hlt. unfold advance.
  destruct (run_gather_connection now st) as (Hs1 & _ & Ht1).
  destruct (run_orphans_connection now (run_gather now st)) as (Hs2 & _).
  destruct (run_orphans_status now (run_gather now st)) as (Ht2 & Ho2).
  rewrite run_gather_orphans, Ht1 in Ht2. rewrite run_gather_orphans in Ho2.
  rewrite run_watchdog_not_due.
  - split_and!; congruence.
  - unfold watchdog in *. by rewrite Hs2, Hs1.
Qed.

Lemma handle_orphans now e st : orphans (handle now e st) = orphans st.
Proof.
  unfold handle. destruct (live st); [|done]. destruct e as [|address args|message].
  - unfold on_listening.
    destruct st as [? [?|] [?|] ? ? ? ? ? ? ? [?|] ? ?]; reflexivity.
  - unfold dispatch.
    assert (orphans (emit_to initOscListeners now address args st) = orphans st) as Hs.
    { apply (emit_to_keeps orphans), listeners_keep. unfold connection. congruence. }
    destruct (String.eqb address "/heartbeat"), (String.eqb address "/global/isPlaying");
      rewrite <- Hs; unfold on_heartbeat, once_isPlaying;
      destruct (emit_to _ _ _ _ _) as [? ? ? ? ? ? ? ? ? ? [[[] h []]|] ? ?]; reflexivity.
  - destruct st; reflexivity.
Qed.

Lemma handle_status now e st :
  live st = true →
  status (handle now e st)
  = match e with
    | Listening => status st
    | Message address args => status (dispatch now address args st)
    | Error message => Some (ConnectionFailure, Some message)
    end.
Proof.
  intros Hlive. unfold handle. rewrite Hlive. destruct e as [|address args|message].
  - apply on_listening_status.
  - done.
  - by destruct st.
Qed.

(** A heartbeat that arrives in time on a session that is connected reports
    nothing: the status stays what it is. *)
Lemma heartbeat_in_time st last now args :
  live st = true → connected st = Some true →
  watchdog st = Some (last + HEARTBEAT_TIMEOUT) → status st = lostStatus →
  now < last + HEARTBEAT_TIMEOUT →
  let st' := step st (now, Message "/heartbeat" args) in
  live st' = true ∧ connected st' = Some true
  ∧ watchdog st' = Some (now + HEARTBEAT_TIMEOUT) ∧ status st' = lostStatus.
Proof.
  intros Hlive Hconn Hw Hstatus Hlt st'. unfold st', step. simpl.
  assert (live (advance now st) = true) as Hlive' by (by rewrite advance_live).
  destruct (advance_not_due now st) as (Hs & Ht & _).
  { intros at_ Hat. rewrite Hw in Hat. injection Hat as <-. done. }
  rewrite handle_live. split_and!; [done|..].
  - unfold connected in *. rewrite handle_session, Hs by done.
    by destruct (session st).
  - by apply handle_heartbeat_watchdog.
  - rewrite handle_status, dispatch_status, Hs by done.
    unfold connected in Hconn. destruct (session st) as [[c h o]|]; [|done].
    simpl in Hconn. injection Hconn as ->. simpl.
    rewrite Ht, Hstatus. by destruct (filter _ _).
Qed.

Lemma heartbeats_in_time beats st last :
  live st = true → connected st = Some true →
  watchdog st = Some (last + HEARTBEAT_TIMEOUT) → status st = lostStatus →
  in_time last beats = true →
  status (run (heartbeats beats) st) = lostStatus
  ∧ connected (run (heartbeats beats) st) = Some true.
Proof.
  revert st last. induction beats as [|[now args] beats IH];
    intros st last Hlive Hconn Hw Hstatus Hbeats; [done|].
  simpl in Hbeats. apply andb_true_iff in Hbeats as [[_ Hlt]%andb_true_iff Hbeats].
  apply Z.ltb_lt in Hlt.
  destruct (heartbeat_in_time st last now args) as (? & ? & ? & ?); try done.
  by apply (IH _ now).
Qed.

(** X16. The watchdog of a session that [configUpdated] replaced still
    fires, and reports through the instance. [destroy] closes the endpoints
    and leaves the timer of [handleHeartbeat] pending; [init] then starts a
    new session with a watchdog of its own. When the new session was
    confirmed by ['/global/isPlaying'] before the old timer is due, the old
    timer sets the status to [Disconnected] while [isConnected] of the new
    session stays [true]; so the heartbeat listener reports nothing, and
    the status stays [Disconnected] for as long as the heartbeats keep
    arriving in time. *)
Theorem superseded_watchdog_masks_connection
    st cfg c at_ t0 t1 t2 args1 args2 beats :
  live st = true →
  oscClient st = Some c →
  watchdog st = Some at_ →
  constructs cfg →
  t0 ≤ t1 → t1 < at_ → at_ ≤ t2 → t2 < t0 + 2500 →
  in_time t2 beats = true →
  let st1 := configUpdated cfg st in
  let confirmed := run [(t0, Listening); (t1, Message "/global/isPlaying" args1)] st1 in
  let st2 := step confirmed (t2, Message "/heartbeat" args2) in
  let st3 := run (heartbeats beats) st2 in
  session st1 = Some fresh_session
  ∧ orphans st1 = orphans st ++ [at_]
  ∧ status confirmed = Some (Ok, None)
  ∧ status st2 = Some (Disconnected, Some lostMessage)
  ∧ connected st2 = Some true
  ∧ status st3 = Some (Disconnected, Some lostMessage)
  ∧ connected st3 = Some true.
Proof.
  intros Hlive Hc Hw Hok H01 H1 H2 H3 Hbeats st1 confirmed st2 st3.
  assert (session st1 = Some fresh_session ∧ orphans st1 = orphans st ++ [at_]
          ∧ live st1 = true) as (Hs1 & Ho1 & Hlive1).
  { apply live_iff in Hlive as (ss & sv & Hss & Hsv & Hopen).
    unfold st1, configUpdated, destroy, sendOsc.
    destruct st as [? ? ? ? ? ? ? ? ? ? ? ? ?]; simpl in *; subst; simpl.
    rewrite init_unfold by apply Hok.
    rewrite init_try_constructs; [|done|done].
    unfold watchdog in Hw. simpl in Hw.
    destruct ss as [connected_ [[at'|]] once]; simpl in Hw; [|done].
    injection Hw as ->. done. }
  set (sA := step st1 (t0, Listening)).
  assert (live sA = true
          ∧ session sA
            = Some {| isConnected := false;
                      handleHeartbeat := Debounce.fire HEARTBEAT_TIMEOUT t0 Debounce.create;
                      oncePlaying := true |}
          ∧ at_ ∈ orphans sA) as (HliveA & HsA & HoA).
  { unfold sA, step. simpl.
    destruct (advance_not_due t0 st1) as (Hs & _ & Ho).
    { intros a Ha. unfold watchdog in Ha. by rewrite Hs1 in Ha. }
    rewrite handle_live, advance_live. split_and!; [done| |].
    - rewrite handle_session by (by rewrite advance_live). by rewrite Hs, Hs1.
    - rewrite handle_orphans, Ho, Ho1. apply list_elem_of_filter. split; [lia|].
      apply elem_of_app. right. by apply list_elem_of_singleton. }
  set (sB := step sA (t1, Message "/global/isPlaying" args1)).
  assert (live sB = true
          ∧ session sB
            = Some {| isConnected := true;
                      handleHeartbeat := Debounce.fire HEARTBEAT_TIMEOUT t0 Debounce.create;
                      oncePlaying := false |}
          ∧ at_ ∈ orphans sB
          ∧ status sB = Some (Ok, None)) as (HliveB & HsB & HoB & HtB).
  { unfold sB, step. simpl.
    destruct (advance_not_due t1 sA) as (Hs & _ & Ho).
    { intros a Ha. unfold watchdog in Ha. rewrite HsA in Ha. simpl in Ha.
      injection Ha as <-. unfold HEARTBEAT_TIMEOUT. lia. }
    rewrite handle_live, advance_live. split_and!; [done|..].
    - rewrite handle_session by (by rewrite advance_live). by rewrite Hs, HsA.
    - rewrite handle_orphans, Ho. apply list_elem_of_filter. split; [lia|done].
    - rewrite handle_status by (by rewrite advance_live).
      by rewrite dispatch_status, Hs, HsA. }
  assert (confirmed = sB) as HsB' by reflexivity.
  assert (live st2 = true ∧ connected st2 = Some true
          ∧ watchdog st2 = Some (t2 + HEARTBEAT_TIMEOUT)
          ∧ status st2 = lostStatus) as (Hlive2 & Hconn2 & Hw2 & Ht2).
  { unfold st2. rewrite HsB'. unfold step. simpl.
    destruct (advance_not_due t2 sB) as (Hs & Ht & _).
    { intros a Ha. unfold watchdog in Ha. rewrite HsB in Ha. simpl in Ha.
      injection Ha as <-. unfold HEARTBEAT_TIMEOUT. lia. }
    rewrite handle_live, advance_live. split_and!; [done|..].
    - unfold connected. rewrite handle_session by (by rewrite advance_live).
      by rewrite Hs, HsB.
    - apply handle_heartbeat_watchdog. by rewrite advance_live.
    - rewrite handle_status by (by rewrite advance_live).
      rewrite dispatch_status, Hs, HsB. simpl. rewrite Ht.
      destruct (filter _ _) eqn:Hdue; [|done].
      assert (at_ ∈ filter (λ at_, at_ ≤ t2) (orphans sB)) as Hin
        by (by apply list_elem_of_filter).
      rewrite Hdue in Hin. by apply elem_of_nil in Hin. }
  destruct (heartbeats_in_time beats st2 t2) as [Ht3 Hconn3]; [done..|].
  by rewrite HsB'.
Qed.

End SupersededWatchdog.

(** The configuration is updated at 1000 on the confirmed session whose
    watchdog is due at 2500; the new session is confirmed at 1100, and
    heartbeats arrive at 2600, 3600 and 4600. *)
Lemma superseded_watchdog_masks_connection_witness :
  let st1 := configUpdated returns returns localConfig confirmedExample in
  let confirmed :=
    run integerToString
        [(1000, Listening); (1100, Message "/global/isPlaying" [JS.Bool true])] st1 in
  let st2 := step integerToString confirmed (2600, Message "/heartbeat" []) in
  let st3 := run integerToString (heartbeats [(3600, []); (4600, [])]) st2 in
  session st1 = Some fresh_session
  ∧ orphans st1 = orphans confirmedExample ++ [2500]
  ∧ status confirmed = Some (Ok, None)
  ∧ status st2 = Some (Disconnected, Some lostMessage)
  ∧ connected st2 = Some true
  ∧ status st3 = Some (Disconnected, Some lostMessage)
  ∧ connected st3 = Some true.
Proof.
  apply (superseded_watchdog_masks_connection integerToString returns returns
           confirmedExample localConfig
           {| host := "127.0.0.1"; port := JS.of_Z 39051; open := true |}
           2500 1000 1100 2600 [JS.Bool true] [] [(3600, []); (4600, [])]);
    try lia; try (vm_compute; reflexivity).
  repeat split; vm_compute; reflexivity.
Defined.

(* ===================================================================== *)
(** ** The variables that are written *)
(* ===================================================================== *)

Section VariableFacts.
Variable NumberToString : JS.number → string.

Abbreviation handle := (handle NumberToString).
Abbreviation dispatch := (dispatch NumberToString).
Abbreviation step := (step NumberToString).
Abbreviation run := (run NumberToString).
Abbreviation initOscListeners := (initOscListeners NumberToString).

(** The [variableId]s of [updateVariableDefinitions]. *)
Definition definedVariables : list string := variableDefinitionList.*1.

Definition writes_defined (l : string * Listener) : Prop :=
  ∀ now args st k,
    k ∉ definedVariables →
    variableValues (l.2 now args st) !! k = variableValues st !! k.

Ltac listener_writes_defined :=
  intros now args st k Hk; cbv [snd]; unfold set1;
  rewrite ?(proj2 (proj2 (gather_frame _ _ _)));
  rewrite setVariableValues_lookup_notin;
  [ rewrite ?(proj1 (proj2 (set_songs_frame _ _))),
            ?(proj1 (proj2 (set_sections_frame _ _)));
    reflexivity
  | match goal with
    | |- _ ∉ ?written =>
        intros Hin; apply Hk;
        assert (written ⊆ definedVariables) as Hsub by by_computation;
        exact (Hsub k Hin)
    end ].

Lemma listeners_write_defined : Forall writes_defined initOscListeners.
Proof.
  repeat (apply List.Forall_cons; [listener_writes_defined|]). apply List.Forall_nil.
Qed.

Lemma emit_to_writes_defined (listeners : list (string * Listener)) now address args st k :
  Forall writes_defined listeners →
  k ∉ definedVariables →
  variableValues (emit_to listeners now address args st) !! k = variableValues st !! k.
Proof.
  intros Hall Hk. revert st. unfold emit_to.
  induction Hall as [|l rest Hl _ IH]; intros st; simpl; [done|].
  rewrite IH. destruct (String.eqb l.1 address); [by apply Hl | done].
Qed.

Lemma mirrored_variableValues st st' :
  mirrored st' = mirrored st → variableValues st' = variableValues st.
Proof. unfold mirrored. by intros [= _ _ ?]. Qed.

Lemma handle_variableValues now e st k :
  k ∉ definedVariables →
  variableValues (handle now e st) !! k = variableValues st !! k.
Proof.
  intros Hk. destruct e as [|address args|message].
  - by rewrite (mirrored_variableValues _ _
                  (handle_other_mirrored NumberToString now Listening st ltac:(done))).
  - unfold handle. destruct (live st); [|done].
    rewrite (mirrored_variableValues _ _
               (dispatch_mirrored NumberToString now address args st)).
    by apply emit_to_writes_defined; [apply listeners_write_defined|].
  - by rewrite (mirrored_variableValues _ _
                  (handle_other_mirrored NumberToString now (Error message) st
                     ltac:(done))).
Qed.

(** X17. Only defined variables are written. Whatever events arrive and
    whatever timers fire, a variable whose id is not among those
    [updateVariableDefinitions] registers keeps the value it had, so an
    instance that starts without values only ever holds values of defined
    variables. *)
Theorem only_defined_variables_written events st :
  (∀ k, k ∉ definedVariables →
        variableValues (run events st) !! k = variableValues st !! k)
  ∧ (dom (variableValues st) ⊆ list_to_set definedVariables →
     dom (variableValues (run events st)) ⊆@{gset string} list_to_set definedVariables).
Proof.
  assert (∀ k, k ∉ definedVariables →
            variableValues (run events st) !! k = variableValues st !! k) as Hkeep.
  { intros k Hk. revert st. unfold run.
    induction events as [|e rest IH]; intros st; simpl; [done|].
    rewrite IH. unfold step. rewrite handle_variableValues by done.
    by rewrite (mirrored_variableValues _ _ (advance_mirrored e.1 st)). }
  split; [done|].
  intros Hdom k Hin. destruct (decide (k ∈ definedVariables)) as [Hk|Hk].
  - by apply elem_of_list_to_set.
  - apply Hdom. apply elem_of_dom. rewrite <- (Hkeep k Hk). by apply elem_of_dom.
Qed.

(** A listener gives [k] a value; a listener never takes a value away. *)
Definition gives_value (k : string) (l : string * Listener) : Prop :=
  ∀ now args st, is_Some (variableValues (l.2 now args st) !! k).

Definition keeps_values (l : string * Listener) : Prop :=
  ∀ k now args st,
    is_Some (variableValues st !! k) → is_Some (variableValues (l.2 now args st) !! k).

Lemma insert_all_keeps (values : list (string * JS.value)) (m : gmap string JS.value) k :
  is_Some (m !! k) → is_Some (foldl (λ m kv, <[kv.1 := kv.2]> m) m values !! k).
Proof.
  revert m. induction values as [|[k' v'] rest IH]; intros m Hk; simpl; [done|].
  apply IH. destruct (decide (k' = k)) as [->|Hne].
  - by rewrite lookup_insert_eq.
  - by rewrite lookup_insert_ne.
Qed.

Lemma insert_all_sets (values : list (string * JS.value)) (m : gmap string JS.value) k :
  k ∈ values.*1 → is_Some (foldl (λ m kv, <[kv.1 := kv.2]> m) m values !! k).
Proof.
  revert m. induction values as [|[k' v'] rest IH]; intros m Hk; simpl.
  - by apply elem_of_nil in Hk.
  - rewrite fmap_cons in Hk. apply elem_of_cons in Hk as [->|Hk]; [|by apply IH].
    apply insert_all_keeps. by rewrite lookup_insert_eq.
Qed.

Lemma setVariableValues_keeps values st k :
  is_Some (variableValues st !! k) →
  is_Some (variableValues (setVariableValues values st) !! k).
Proof. intros Hk. destruct st. by apply insert_all_keeps. Qed.

Lemma setVariableValues_sets values st k :
  k ∈ values.*1 → is_Some (variableValues (setVariableValues values st) !! k).
Proof. intros Hk. destruct st. by apply insert_all_sets. Qed.

Lemma listeners_keep_values : Forall keeps_values initOscListeners.
Proof.
  repeat (apply List.Forall_cons;
          [intros k now args st Hk; cbv [snd]; unfold set1;
           rewrite ?(proj2 (proj2 (gather_frame _ _ _)));
           apply setVariableValues_keeps;
           rewrite ?(proj1 (proj2 (set_songs_frame _ _))),
                   ?(proj1 (proj2 (set_sections_frame _ _)));
           exact Hk|]).
  apply List.Forall_nil.
Qed.

Lemma emit_to_keeps_values (listeners : list (string * Listener)) now address args st k :
  Forall keeps_values listeners →
  is_Some (variableValues st !! k) →
  is_Some (variableValues (emit_to listeners now address args st) !! k).
Proof.
  intros Hall. revert st. unfold emit_to.
  induction Hall as [|l rest Hl _ IH]; intros st Hk; simpl; [done|].
  apply IH. destruct (String.eqb l.1 address); [by apply Hl | done].
Qed.

Lemma emit_to_sets (listeners : list (string * Listener)) l now args st k :
  Forall keeps_values listeners →
  l ∈ listeners → gives_value k l →
  is_Some (variableValues (emit_to listeners now l.1 args st) !! k).
Proof.
  intros Hall Hin Hl. revert st.
  induction Hall as [|x rest Hx Hrest IH]; intros st; [by apply elem_of_nil in Hin|].
  change (emit_to (x :: rest) now l.1 args st)
    with (emit_to rest now l.1 args (if String.eqb x.1 l.1 then x.2 now args st else st)).
  apply elem_of_cons in Hin as [->|Hin]; [|by apply IH].
  rewrite String.eqb_refl. by apply emit_to_keeps_values.
Qed.

Ltac listener_sets :=
  intros now args st; cbv [snd]; unfold set1;
  rewrite ?(proj2 (proj2 (gather_frame _ _ _)));
  apply setVariableValues_sets; by_computation.

Lemma defined_variables_have_listeners :
  Forall (λ k, Exists (gives_value k) initOscListeners) definedVariables.
Proof.
  let keys := eval vm_compute in definedVariables in
  change (Forall (λ k, Exists (gives_value k) initOscListeners) keys).
  repeat (apply List.Forall_cons;
          [repeat first [ apply List.Exists_cons_hd; listener_sets
                        | apply List.Exists_cons_tl ]|]).
  apply List.Forall_nil.
Qed.

(** X18. Every defined variable has a message that sets it: for each id
    registered by [updateVariableDefinitions] there is an address with a
    listener of [initOscListeners] such that a message on it, whatever its
    arguments, leaves the variable with a value. *)
Theorem defined_variables_are_written k :
  k ∈ definedVariables →
  ∃ address,
    address ∈ initOscListeners.*1
    ∧ ∀ st now args,
        live st = true →
        is_Some (variableValues (handle now (Message address args) st) !! k).
Proof.
  intros Hk.
  pose proof (proj1 (Forall_forall _ _) defined_variables_have_listeners k Hk) as Hl.
  apply Exists_exists in Hl as (l & Hin & Hsets).
  exists l.1. split; [by apply list_elem_of_fmap_2|].
  intros st now args Hlive. unfold handle. rewrite Hlive.
  rewrite (mirrored_variableValues _ _
             (dispatch_mirrored NumberToString now l.1 args st)).
  by apply emit_to_sets; [apply listeners_keep_values| |].
Qed.

End VariableFacts.

Lemma defined_variables_are_written_witness :
  ∃ address,
    address ∈ (initOscListeners integerToString).*1
    ∧ ∀ st now args,
        live st = true →
        is_Some (variableValues
                   (handle integerToString now (Message address args) st) !! "tempo").
Proof.
  apply (defined_variables_are_written integerToString "tempo"). by_computation.
Defined.
